(** * QR expander: a shallow embedding of [qr_expander.cc]

    The expander emits a data-flow graph; the graph is embedded here by its
    denotation.  A graph value of static shape [[..., m, n]] is a function
    from a batch index and two positions to a scalar, and every emitter of
    the source becomes the function that maps the denotations of its
    operands to the denotation of its result.  Scalars are real numbers:
    the element type of the source is a floating type, and the development
    reasons about the emitted formulas in exact arithmetic (no rounding, no
    NaN, no overflow).  Values of the index type S32 are integers. *)

From Stdlib Require Import Reals Lra Lia ZArith List.
From stdpp Require Import gmap strings pretty.

Local Open Scope R_scope.

(** ** Scalars and predicates of the emitted graph *)

Definition S32 := Z.

(** Modelled from the spec: the element-wise comparisons [Eq] and [Lt] of
    the builder (absent from the sources) on scalars of the element type,
    the tests "sigma = 0" and "Lt(alpha, 0)" of section 4.1.  They compare
    exact values: on a floating type a sum of squares of nonzero entries
    can round to zero, so the properties of the degenerate branch are
    stated on the sigma that is computed, not on the entries. *)
Definition EqR (x y : R) : bool := if Req_dec_T x y then true else false.
Definition LtR (x y : R) : bool := if Rlt_dec x y then true else false.

(** Modelled from the spec: [ConvertElementType(pred, type)] (absent from
    the sources) turns the predicate of a mask into the scalars 1 and 0. *)
Definition ConvertElementType (p : bool) : R := if p then 1 else 0.

(** Modelled from the spec: [Select(pred, on_true, on_false)] (absent from
    the sources) is the lane-wise "select" that merges the two branches. *)
Definition Select {A : Type} (p : bool) (on_true on_false : A) : A :=
  if p then on_true else on_false.

(** Modelled from the spec: [Iota(builder, S32, m)] (absent from the
    sources) is the "index tensor (iota)": position [i] holds [i]. *)
Definition Iota (i : nat) : S32 := Z.of_nat i.

(** Modelled from the spec: the dynamic-slice primitives of the client
    library (slicing.h) are absent from the sources.  The spec calls them
    "dynamic-slice" and "dynamic-update-slice" with a start index along the
    minor dimension; as in XLA the start index is clamped so that the slice
    of size [size] stays inside a dimension of size [dim]. *)
Definition clamp_start (start : S32) (dim size : nat) : nat :=
  Z.to_nat (Z.max 0 (Z.min start (Z.of_nat dim - Z.of_nat size))).

(** Modelled from the spec: [Reduce(operand, init, add, {minor_dim})] is the
    "reduction over the last axis" of the spec, a sum of [m] terms starting
    from [init]. *)
Fixpoint Reduce (m : nat) (f : nat -> R) (init : R) : R :=
  match m with
  | O => init
  | S m' => Reduce m' f init + f m'
  end.

(** Modelled from the spec: [ForEachIndex(n, S32, body, init)] (loops.h) is
    absent from the sources; it is the "fixed-trip-count loop over
    j in [0, p)" of section 4.2, the counter being an S32 scalar. *)
Fixpoint ForEachIndex {St : Type} (num_iterations : nat)
    (body : S32 -> St -> St) (init : St) : St :=
  match num_iterations with
  | O => init
  | S i => body (Z.of_nat i) (ForEachIndex i body init)
  end.

Section Emitted.

(** The batch index: one value per combination of the leading dimensions. *)
Variable B : Type.

Definition Scalars := B -> R.
Definition Vectors := B -> nat -> R.
Definition Matrices := B -> nat -> nat -> R.

(** ** House (lines 78-121) *)

Section House.

Variable x : Vectors.
Variable k : S32.
Variable m : nat.

(* alpha = x[k] *)
Definition House_alpha : Scalars :=
  fun b => x b (clamp_start k m 1).

(* x[k+1:], padded with zeros in elements 0..k *)
Definition House_x_after_k : Vectors :=
  fun b i => x b i * ConvertElementType (Z.ltb k (Iota i)).

(* sigma = np.dot(x[k+1:], x[k+1:]) *)
Definition House_sigma : Scalars :=
  fun b => Reduce m (fun i => House_x_after_k b i * House_x_after_k b i) 0.

(* mu = np.sqrt(x[k]*x[k] + sigma) *)
Definition House_mu : Scalars :=
  fun b => sqrt (House_alpha b * House_alpha b + House_sigma b).

Definition House_sigma_is_zero : B -> bool :=
  fun b => EqR (House_sigma b) 0.

Definition House_beta : Scalars :=
  fun b => Select (House_sigma_is_zero b) (House_alpha b)
             (Select (LtR (House_alpha b) 0) 1 (- 1) * House_mu b).

Definition House_tau : Scalars :=
  fun b => Select (House_sigma_is_zero b) 0
             ((House_beta b - House_alpha b) / House_beta b).

Definition House_divisor : Scalars :=
  fun b => Select (House_sigma_is_zero b) 1 (House_alpha b - House_beta b).

Definition House_e_k : nat -> R :=
  fun i => ConvertElementType (Z.eqb (Iota i) k).

(* v = [0, 0, ..., 1] ++ x[k+1:] / divisor *)
Definition House_v : Vectors :=
  fun b i => House_e_k i + House_x_after_k b i / House_divisor b.

(** The three outputs [(v, tau, beta)]; the status is always OK once the
    shape of [x] is known. *)
Definition House : Vectors * Scalars * Scalars :=
  (House_v, House_tau, House_beta).

End House.

(** ** Primitives on batched matrices *)

Inductive Precision := DEFAULT | HIGH | HIGHEST.

(** The operand of a batched matmul, transposed in its two minor dimensions
    when the flag is set. *)
Definition Transposed (t : bool) (x : Matrices) : Matrices :=
  if t then (fun b r c => x b c r) else x.

(** Modelled from the spec: [BatchDot] (matrix.h) is the "batched matmul"
    of the spec, a product over the two minor dimensions, [kdim] being the
    static size of the contracted dimension.  The precision is the hint
    passed to the emitted dot; it does not change the exact product, and is
    recorded with the graph value ([op_dots] below). *)
Definition BatchDot4 (kdim : nat) (x : Matrices) (transpose_x : bool)
    (y : Matrices) (transpose_y : bool) (precision : Precision) : Matrices :=
  fun b r c =>
    Reduce kdim
      (fun l => Transposed transpose_x x b r l * Transposed transpose_y y b l c)
      0.

Definition BatchDot (kdim : nat) (x y : Matrices) (precision : Precision)
    : Matrices :=
  BatchDot4 kdim x false y false precision.

(** Modelled from the spec: [DynamicSliceInMinorDims(x, {j}, {1})]
    (slicing.h, absent from the sources) is the "dynamic-slice": the column
    at the clamped start [j] of a value with [n] columns, as a value with
    one column. *)
Definition DynamicSliceInMinorDims (x : Matrices) (j : S32) (n : nat)
    : Matrices :=
  fun b r c => x b r (clamp_start j n 1 + c)%nat.

(** Modelled from the spec: [DynamicUpdateSliceInMinorDims(t, z, {j})]
    (slicing.h, absent from the sources) is the "dynamic-update-slice" that
    sets column [j] of [t] to the one-column value [z]. *)
Definition DynamicUpdateSliceInMinorDims (t z : Matrices) (j : S32) (n : nat)
    : Matrices :=
  fun b r c => if Nat.eqb c (clamp_start j n 1) then z b r O else t b r c.

(** Modelled from the spec: [Collapse(x, {num_dims - 2, num_dims - 1})]
    (absent from the sources) merges the two minor dimensions; on a
    one-column value it yields the column as a vector. *)
Definition Collapse (x : Matrices) : Vectors := fun b r => x b r O.

(** Modelled from the spec: [IdentityMatrix(builder, type, m, n)]
    (matrix.h, absent from the sources), broadcast over the batch. *)
Definition IdentityMatrix : Matrices :=
  fun _ r c => ConvertElementType (Nat.eqb r c).

(** Modelled from the spec: [TriangleMask(x, diagonal)] (matrix.h) is true
    on and below the [diagonal]-th diagonal: with diagonal 0 the builder
    keeps the "strict upper triangle" where the mask is false, with
    diagonal -1 the driver keeps the "strict lower triangle" where it is
    true. *)
Definition TriangleMask (diagonal : Z) (r c : nat) : bool :=
  Z.leb (Iota c) (Iota r + diagonal).

(** Modelled from the spec: [ZerosLike(x)] (absent from the sources), the
    zeros a mask selects. *)
Definition ZerosLike (x : Matrices) : Matrices := fun _ _ _ => 0.

(** ** QrBlock (lines 147-246): the loop body and the loop *)

Section QrBlock.

Variables m n : nat.
Variable precision : Precision.

Definition qr_body_fn (j : S32) (values : Matrices * Vectors)
    : Matrices * Vectors :=
  let a := fst values in
  let taus := snd values in
  (* v, tau, beta = house(a[:, j], j) *)
  let x := DynamicSliceInMinorDims a j n in
  let '(v, tau, beta) := House (Collapse x) j m in
  let iota_mn : nat -> nat -> S32 := fun _ c => Iota c in
  let v_broadcast : Matrices := fun b _ c => v b c in
  (* a[:, j+1:] -= tau * (v[:, np.newaxis] @ (v[np.newaxis, :] @ a[:, j+1:])) *)
  let vva :=
    BatchDot m v_broadcast
      (fun b r c => Select (Z.ltb j (iota_mn r c)) (a b r c) (ZerosLike a b r c))
      precision in
  let vva := BatchDot4 1 v_broadcast true vva false precision in
  let a : Matrices := fun b r c => a b r c - tau b * vva b r c in
  (* a[j, j] = beta ; a[j+1:, j] = v[j+1:] *)
  let iota : nat -> S32 := Iota in
  let predecessor_mask := fun r => ConvertElementType (Z.ltb (iota r) j) in
  let mask := fun r => ConvertElementType (Z.eqb (iota r) j) in
  let successor_mask := fun r => Z.ltb j (Iota r) in
  let new_x : Matrices :=
    fun b r c => x b r c * predecessor_mask r + beta b * mask r in
  let new_x : Matrices :=
    fun b r c => new_x b r c + Select (successor_mask r) (v b r) 0 in
  (* Update a[:, j] *)
  let new_x : Matrices := fun b r _ => new_x b r O in
  let a : Matrices :=
    fun b r c => Select (Z.eqb (iota_mn r c) j) (new_x b r c) (a b r c) in
  (* taus[j] = tau *)
  let iota_n : nat -> S32 := Iota in
  let taus_zeros : Vectors := fun _ _ => 0 in
  let taus_update : Vectors :=
    fun b c => Select (Z.eqb (iota_n c) j) (taus_zeros b c + tau b)
                 (taus_zeros b c) in
  let taus : Vectors := fun b c => taus b c + taus_update b c in
  (a, taus).

(** The values carried out of [ForEachIndex(min(m, n), S32, qr_body_fn,
    {a, taus}, "qr", builder)], [taus] starting as zeros. *)
Definition qr_loop (a : Matrices) : Matrices * Vectors :=
  ForEachIndex (Nat.min m n) qr_body_fn (a, fun _ _ => 0).

End QrBlock.

(** ** CompactWYRepresentation (lines 264-304): the emitted values *)

Section CompactWY.

Variables m n : nat.
Variable precision : Precision.

Definition wy_body_fn (j : S32) (values : Matrices * Matrices)
    : Matrices * Matrices :=
  let t := fst values in
  let vtv := snd values in
  (* yv has shape [..., n, 1] *)
  let yv := DynamicSliceInMinorDims vtv j n in
  (* z has shape [..., n, 1] *)
  let z := BatchDot n t yv precision in
  let t := DynamicUpdateSliceInMinorDims t z j n in
  (t, vtv).

Definition wy_tau_scale (taus : Vectors) : Matrices :=
  fun b _ c => - taus b c.

(** The second loop-carried value: [(strict upper of vs^T vs + eye) *
    tau_scale]. *)
Definition wy_vtv (vs : Matrices) (taus : Vectors) : Matrices :=
  let eye := IdentityMatrix in
  let vtv := BatchDot4 m vs true vs false precision in
  let vtv : Matrices :=
    fun b r c => Select (TriangleMask 0 r c) (ZerosLike vtv b r c) (vtv b r c) in
  fun b r c => (vtv b r c + eye b r c) * wy_tau_scale taus b r c.

(** The loop state after the first [i] iterations. *)
Definition wy_loop (i : nat) (vs : Matrices) (taus : Vectors)
    : Matrices * Matrices :=
  let eye := IdentityMatrix in
  let t := eye in
  ForEachIndex i wy_body_fn (t, wy_vtv vs taus).

Definition CompactWY_T (vs : Matrices) (taus : Vectors)
    : Matrices :=
  fst (wy_loop n vs taus).

End CompactWY.

End Emitted.

Arguments House_alpha {B}.
Arguments House_x_after_k {B}.
Arguments House_sigma {B}.
Arguments House_mu {B}.
Arguments House_sigma_is_zero {B}.
Arguments House_beta {B}.
Arguments House_tau {B}.
Arguments House_divisor {B}.
Arguments House_v {B}.
Arguments House {B}.
Arguments BatchDot4 {B}.
Arguments BatchDot {B}.
Arguments Transposed {B}.
Arguments DynamicSliceInMinorDims {B}.
Arguments DynamicUpdateSliceInMinorDims {B}.
Arguments Collapse {B}.
Arguments IdentityMatrix {B}.
Arguments ZerosLike {B}.
Arguments qr_body_fn {B}.
Arguments qr_loop {B}.
Arguments wy_body_fn {B}.
Arguments wy_tau_scale {B}.
Arguments wy_vtv {B}.
Arguments wy_loop {B}.
Arguments CompactWY_T {B}.

(** ** Shapes, statuses and graph values *)

Inductive PrimitiveType := F16 | BF16 | F32 | F64.

(** A static shape: the element type and the dimension sizes. *)
Record Shape := MakeShape {
  element_type : PrimitiveType;
  dimensions : list nat
}.

Definition rank (s : Shape) : nat := length (dimensions s).

(** Modelled from the spec: [ShapeUtil::GetDimension(shape,
    dimension_number)] (absent from the sources) reads a dimension size; a
    negative number counts from the minor end, so that -2 and -1 are the
    [m] and [n] of a shape [[..., m, n]]. *)
Definition GetDimension (s : Shape) (dimension_number : Z) : nat :=
  let i :=
    if (dimension_number <? 0)%Z
    then (Z.of_nat (rank s) + dimension_number)%Z
    else dimension_number in
  nth (Z.to_nat i) (dimensions s) O.

(** Modelled from the spec: [Status] and [StatusOr] (absent from the
    sources) with the two failure kinds of section 7, invalid-argument and
    internal. *)
Inductive StatusCode := INVALID_ARGUMENT | INTERNAL.

Record Status := MakeStatus {
  code : StatusCode;
  error_message : string
}.

Inductive StatusOr (A : Type) : Type :=
  | Ok (value : A)
  | Failure (status : Status).

Arguments Ok {A}.
Arguments Failure {A}.

Definition InvalidArgument {A : Type} (message : string) : StatusOr A :=
  Failure (MakeStatus INVALID_ARGUMENT message).

(** [TF_ASSIGN_OR_RETURN(x, e); k]. *)
Definition assign_or_return {A C : Type} (e : StatusOr A)
    (k : A -> StatusOr C) : StatusOr C :=
  match e with
  | Ok value => k value
  | Failure status => Failure status
  end.

Notation "'let_ok' x ':=' e 'in' k" :=
  (assign_or_return e (fun x => k))
  (at level 10, x name, e at level 100, k at level 200).

(** The value of parameter 0 of the computation under construction: a
    scalar for every multi-index. *)
Definition Tensor := list nat -> R.

(** A graph value of rank at least 2: its static shape; for every value
    of the parameter, the batch of matrices it evaluates to, the batch index
    being the list of the leading coordinates; and the precision
    configuration of the dot instructions it is computed with, listed
    operand by operand, the dot of the value itself last (a dot that is
    reached along several operands is listed once for each).  The precision
    does not change the exact product, it is an attribute of the emitted
    instruction.  [XlaVec] is the same for a batch of vectors. *)
Record XlaOp := MakeOp {
  op_shape : Shape;
  op_value : Tensor -> Matrices (list nat);
  op_dots : list Precision
}.

Record XlaVec := MakeVec {
  vec_shape : Shape;
  vec_value : Tensor -> Vectors (list nat);
  vec_dots : list Precision
}.

(** Modelled from the spec: [Parameter(&builder, 0, shape, "a")] (absent
    from the sources), the one parameter [A] of the emitted sub-program; it
    evaluates to the value passed, read as a batch of matrices. *)
Definition Parameter0 (shape : Shape) : XlaOp :=
  MakeOp shape (fun env b r c => env (b ++ [r; c])) [].

(** Modelled from the spec: the static-shape primitives of the client
    library that the block driver composes (slices and slice updates in the
    two minor dimensions, batched matmul, identity, triangle selection),
    with the shapes they produce. *)
Module Op.

Definition batch_dims_of (s : Shape) : list nat :=
  firstn (rank s - 2) (dimensions s).

Definition rows (x : XlaOp) : nat := GetDimension (op_shape x) (-2).
Definition cols (x : XlaOp) : nat := GetDimension (op_shape x) (-1).

Definition with_minor_dims (s : Shape) (r c : nat) : Shape :=
  MakeShape (element_type s) (batch_dims_of s ++ [r; c]).

(* SliceInMinorDims(x, {r0, c0}, {r1, c1}) *)
Definition SliceInMinorDims (x : XlaOp) (r0 c0 r1 c1 : nat) : XlaOp :=
  MakeOp (with_minor_dims (op_shape x) (r1 - r0) (c1 - c0))
    (fun env b r c => op_value x env b (r0 + r)%nat (c0 + c)%nat)
    (op_dots x).

(* UpdateSliceInMinorDims(x, update, {r0, c0}) *)
Definition UpdateSliceInMinorDims (x update : XlaOp) (r0 c0 : nat) : XlaOp :=
  MakeOp (op_shape x)
    (fun env b r c =>
       if (Nat.leb r0 r && Nat.ltb r (r0 + rows update)
           && Nat.leb c0 c && Nat.ltb c (c0 + cols update))%bool
       then op_value update env b (r - r0)%nat (c - c0)%nat
       else op_value x env b r c)
    (op_dots x ++ op_dots update).

(* Broadcast(IdentityMatrix(builder, type, m, n), batch_dims) *)
Definition IdentityMatrix (type : PrimitiveType) (batch_dims : list nat)
    (m n : nat) : XlaOp :=
  MakeOp (MakeShape type (batch_dims ++ [m; n])) (fun _ => IdentityMatrix) [].

(* Add(x, y), also written x + y *)
Definition Add (x y : XlaOp) : XlaOp :=
  MakeOp (op_shape y)
    (fun env b r c => op_value x env b r c + op_value y env b r c)
    (op_dots x ++ op_dots y).

(* Select(TriangleMask(x, -1), x, ZerosLike(x)) *)
Definition StrictLowerTriangle (x : XlaOp) : XlaOp :=
  MakeOp (op_shape x)
    (fun env b r c =>
       Select (TriangleMask (-1) r c) (op_value x env b r c)
         (ZerosLike (op_value x env) b r c))
    (op_dots x).

(* UpperTriangle(x) = Select(TriangleMask(x, -1), ZerosLike(x), x) *)
Definition UpperTriangle (x : XlaOp) : XlaOp :=
  MakeOp (op_shape x)
    (fun env b r c =>
       Select (TriangleMask (-1) r c) (ZerosLike (op_value x env) b r c)
         (op_value x env b r c))
    (op_dots x).

(* BatchDot(x, transpose_x, y, transpose_y, precision) *)
Definition BatchDot (x : XlaOp) (transpose_x : bool) (y : XlaOp)
    (transpose_y : bool) (precision : Precision) : XlaOp :=
  let r := if transpose_x then cols x else rows x in
  let kdim := if transpose_x then rows x else cols x in
  let c := if transpose_y then rows y else cols y in
  MakeOp (with_minor_dims (op_shape x) r c)
    (fun env =>
       BatchDot4 kdim (op_value x env) transpose_x (op_value y env) transpose_y
         precision)
    (op_dots x ++ op_dots y ++ [precision]).

End Op.

(** ** Instructions and computations of the host module *)

Inductive HloOpcode := kAdd | kCall | kCustomCall | kParameter | kTuple.

(** Computations and modules are addressed by position. *)
Abbreviation CompPtr := nat (only parsing).
Abbreviation ModulePtr := nat (only parsing).

#[local] Unset Elimination Schemes.

(** An instruction: opcode, custom-call target, declared shape, operands,
    the computation that holds it, and the computation it calls ([None] is
    the null pointer). *)
Inductive HloInstruction := MakeInstruction {
  opcode : HloOpcode;
  custom_call_target : string;
  shape : Shape;
  operands : list HloInstruction;
  parent : CompPtr;
  to_apply : option CompPtr
}.

#[local] Set Elimination Schemes.

(** A sub-program built with the client builder: its name, the shape of its
    parameter and the pair of graph values under its root tuple. *)
Record XlaComputation := MakeXlaComputation {
  xla_name : string;
  xla_parameter : Shape;
  xla_root : XlaOp * XlaOp
}.

(** A computation of a host module: the module that owns it, its
    instructions and, for a cloned sub-program, the graph it carries. *)
Record HloComputation := MakeComputation {
  comp_module : ModulePtr;
  instructions : list HloInstruction;
  emitted : option XlaComputation
}.

(** ** The expander (lines 147-432) *)

Module QrExpander.

Record QrResult := MakeQrResult {
  a : XlaOp;
  taus : XlaVec
}.

Section Expander.

(** [Shape::ToString()], the rendering used in messages and in the cache
    key; it is not part of the sources. *)
Variable ShapeToString : Shape -> string.

(** Modelled from the spec: the shape rule of [Select(pred, on_true,
    on_false)] (absent from the sources): the predicate and the operands
    have the same dimensions, or the builder reports an invalid-argument
    failure, which [ForEachIndex] and [TF_ASSIGN_OR_RETURN] hand on ("a
    sub-builder returns a failure", section 7).  The text of the message is
    the library's and is not in the sources. *)
Definition SelectShapes {A : Type} (pred_dims operand_dims : list nat)
    (built : StatusOr A) : StatusOr A :=
  if decide (pred_dims = operand_dims) then built
  else
    InvalidArgument
      "Select operation with non-scalar predicate with dimensionality different from the other operands".

(* StatusOr<QrResult> QrExpander::QrBlock(XlaOp a, Precision precision).
   In the loop body taus_update = Select(Eq(iota_n, j), ..., taus_zeros)
   selects under a predicate of dimensions batch_dims ++ [n] between values
   of the dimensions batch_dims ++ [min(m, n)] of taus: the body, and with
   it the loop, is built only when n <= m.  The two BatchDot of the body
   carry the precision. *)
Definition QrBlock (a : XlaOp) (precision : Precision) : StatusOr QrResult :=
  let a_shape := op_shape a in
  let num_dims := rank a_shape in
  if Nat.ltb num_dims 2 then
    InvalidArgument
      ("Argument to QR must have rank >= 2; got shape "
       +:+ ShapeToString a_shape)
  else
    let type := element_type a_shape in
    let m := GetDimension a_shape (-2) in
    let n := GetDimension a_shape (-1) in
    let num_batch_dims := (num_dims - 2)%nat in
    let batch_dims :=
      map (fun i => GetDimension a_shape (Z.of_nat i)) (seq 0 num_batch_dims) in
    let values := fun env => qr_loop m n precision (op_value a env) in
    let dots := op_dots a ++ [precision; precision] in
    SelectShapes (batch_dims ++ [n]) (batch_dims ++ [Nat.min m n])
      (Ok (MakeQrResult
             (MakeOp a_shape (fun env => fst (values env)) dots)
             (MakeVec (MakeShape type (batch_dims ++ [Nat.min m n]))
                (fun env => snd (values env)) dots))).

(* StatusOr<XlaOp> QrExpander::CompactWYRepresentation(type, batch_dims, vs,
   taus, m, n, precision).  The dots: BatchDot(vs, true, vs, false,
   precision) for vtv, scaled by taus, and BatchDot(t, yv, precision) in
   the loop body. *)
Definition CompactWYRepresentation (type : PrimitiveType)
    (batch_dims : list nat) (vs : XlaOp) (taus : XlaVec) (m n : nat)
    (precision : Precision) : StatusOr XlaOp :=
  let vtv_dots := op_dots vs ++ op_dots vs ++ [precision] ++ vec_dots taus in
  Ok (MakeOp (MakeShape type (batch_dims ++ [n; n]))
        (fun env =>
           CompactWY_T m n precision (op_value vs env) (vec_value taus env))
        (vtv_dots ++ [precision])).

(** The body of the loop [for (i = 0; i < p; i += block_size)] of the block
    driver, from the values of [a] and [q] before the block that starts at
    [i] to their values after it.  [i], [k] and the block size are int64 in
    the source; inside the loop [0 <= i < p] and [block_size >= 1], so they
    are naturals here. *)
Definition block_step (type : PrimitiveType) (batch_dims : list nat)
    (m n p block_size : nat) (precision : Precision)
    (i : nat) (a q : XlaOp) : StatusOr (XlaOp * XlaOp) :=
  let k := Nat.min block_size (p - i) in
  let a_block := Op.SliceInMinorDims a i i m (i + k) in
  let_ok qr_block := QrBlock a_block precision in
  let y :=
    Op.Add (Op.IdentityMatrix type [] (m - i) k)
      (Op.StrictLowerTriangle (QrExpander.a qr_block)) in
  let a := Op.UpdateSliceInMinorDims a (QrExpander.a qr_block) i i in
  (* Compute the I + Y @ T @ Y^t block representation of a product of
     Householder matrices. *)
  let_ok t :=
    CompactWYRepresentation type batch_dims y (taus qr_block) (m - i) k
      precision in
  (* a[i:, i+k:] += (y @ t.T) @ (y.T @ a[i:, i+k:]) *)
  let yt := Op.BatchDot y false t true precision in
  let a_panel := Op.SliceInMinorDims a i (i + k) m n in
  let a_update := Op.BatchDot y true a_panel false precision in
  let a_update := Op.BatchDot yt false a_update false precision in
  let a_panel := Op.Add a_panel a_update in
  let a := Op.UpdateSliceInMinorDims a a_panel i (i + k) in
  (* q[:, i:] += (q[:, i:] @ y) @ (y @ t.T).T *)
  let q_panel := Op.SliceInMinorDims q 0 i m m in
  let q_update := Op.BatchDot q_panel false y false precision in
  let q_update := Op.BatchDot q_update false yt true precision in
  let q_panel := Op.Add q_panel q_update in
  let q := Op.UpdateSliceInMinorDims q q_panel 0 i in
  Ok (a, q).

(** The loop itself, unrolled at expansion time.  It is run on fuel; it is
    an internal failure to run out of it. *)
Fixpoint block_loop (type : PrimitiveType) (batch_dims : list nat)
    (m n p block_size : nat) (precision : Precision)
    (fuel i : nat) (a q : XlaOp) : StatusOr (XlaOp * XlaOp) :=
  if Nat.ltb i p then
    match fuel with
    | O => Failure (MakeStatus INTERNAL "out of fuel")
    | S fuel' =>
        let_ok aq :=
          block_step type batch_dims m n p block_size precision i a q in
        block_loop type batch_dims m n p block_size precision fuel'
          (i + block_size) (fst aq) (snd aq)
    end
  else Ok (a, q).

(** The start of the block that holds column [j], with the value of [a]
    before that block. *)
Fixpoint block_holding (type : PrimitiveType) (batch_dims : list nat)
    (m n p block_size : nat) (precision : Precision)
    (fuel i : nat) (a q : XlaOp) (j : nat) : option (nat * XlaOp) :=
  if Nat.ltb i p then
    match fuel with
    | O => None
    | S fuel' =>
        if Nat.ltb j (i + Nat.min block_size (p - i)) then Some (i, a)
        else
          match block_step type batch_dims m n p block_size precision i a q with
          | Ok aq =>
              block_holding type batch_dims m n p block_size precision fuel'
                (i + block_size) (fst aq) (snd aq) j
          | Failure _ => None
          end
    end
  else None.

(* StatusOr<XlaOp> QrExpander::BuildQrDecomposition(XlaOp a, int64
   block_size, Precision precision); the result is the pair under Tuple *)
Definition BuildQrDecomposition (a : XlaOp) (block_size : Z)
    (precision : Precision) : StatusOr (XlaOp * XlaOp) :=
  let a_shape := op_shape a in
  let num_dims := rank a_shape in
  if Nat.ltb num_dims 2 then
    InvalidArgument
      ("Arguments to QR must have rank >= 2: got shape "
       +:+ ShapeToString a_shape)
  else
    let type := element_type a_shape in
    let m := GetDimension a_shape (-2) in
    let n := GetDimension a_shape (-1) in
    let p := Nat.min m n in
    if (block_size <? 1)%Z then
      InvalidArgument
        ("block_size argument to QR must be >= 1; got " +:+ pretty block_size)
    else
      let num_batch_dims := (num_dims - 2)%nat in
      let batch_dims :=
        map (fun i => GetDimension a_shape (Z.of_nat i)) (seq 0 num_batch_dims) in
      let q := Op.IdentityMatrix type batch_dims m m in
      let_ok aq :=
        block_loop type batch_dims m n p (Z.to_nat block_size) precision
          p 0 a q in
      Ok (snd aq, Op.UpperTriangle (fst aq)).

(* bool QrExpander::InstructionMatchesPattern(HloInstruction* instruction) *)
Definition InstructionMatchesPattern (instruction : HloInstruction) : bool :=
  match opcode instruction with
  | kCustomCall => String.eqb (custom_call_target instruction) "QrDecomposition"
  | _ => false
  end.

(** The state that [ExpandInstruction] reads and writes: the cache of the
    expander and the computations of the host modules, a computation being
    addressed by its position. *)
Record State := MakeState {
  computation_cache_ : gmap string (option CompPtr);
  computations : list HloComputation
}.

(** Modelled from the spec: [instruction->parent()->parent()], the host
    module of an instruction (absent from the sources). *)
Definition module_of (st : State) (computation : CompPtr) : ModulePtr :=
  from_option comp_module O (computations st !! computation).

(** Modelled from the spec: [HloInstruction::CreateCall(shape, operands,
    computation)] (absent from the sources) is the "call to that sub-program
    on the original operand list" with the declared output shape; [parent]
    is the computation it is added to. *)
Definition CreateCall (shape : Shape) (operands : list HloInstruction)
    (computation : option CompPtr) (parent : CompPtr) : HloInstruction :=
  MakeInstruction kCall "" shape operands parent computation.

(** Modelled from the spec: [computation->AddInstruction(instruction)]
    (absent from the sources) appends the instruction to the computation. *)
Definition AddInstruction (st : State) (computation : CompPtr)
    (instruction : HloInstruction) : State :=
  MakeState (computation_cache_ st)
    (alter
       (fun c =>
          MakeComputation (comp_module c) (instructions c ++ [instruction])
            (emitted c))
       computation (computations st)).

(** Modelled from the spec: [builder.Build], [GetProgramShape],
    [HloModule::CreateFromProto] and [DeepCloneComputation] are absent from
    the sources; the spec has the wrapper "wrap the resulting graph as a
    callable sub-program" and clone it into the host module.  The clone is
    a new computation of [module] that carries the emitted graph; the
    computations nested in that graph (the bodies and conditions of its
    loops, the adder of its reductions), which a deep clone adds to the
    module as well, are not represented. *)
Definition DeepCloneComputation (st : State) (module : ModulePtr)
    (entry_computation : XlaComputation) : State * CompPtr :=
  (MakeState (computation_cache_ st)
     (computations st ++ [MakeComputation module [] (Some entry_computation)]),
   length (computations st)).

(* StatusOr<HloInstruction*> QrExpander::ExpandInstruction(HloInstruction*
   instruction).  [operand(0)] of an instruction without operand aborts; it
   is an internal failure here. *)
Definition ExpandInstruction (st : State) (instruction : HloInstruction)
    : State * StatusOr HloInstruction :=
  match operands instruction with
  | [] => (st, Failure (MakeStatus INTERNAL "operand(0) out of range"))
  | operand0 :: _ =>
      let name := "xla.qr_" +:+ ShapeToString (shape operand0) in
      let module := module_of st (parent instruction) in
      (* computation_cache_.emplace(name, nullptr).first->second *)
      let st :=
        match computation_cache_ st !! name with
        | Some _ => st
        | None =>
            MakeState (<[name := None]> (computation_cache_ st))
              (computations st)
        end in
      let computation : option CompPtr :=
        default None (computation_cache_ st !! name) in
      let built : StatusOr (State * option CompPtr) :=
        match computation with
        | None =>
            (* Builds a new expansion. *)
            let a := Parameter0 (shape operand0) in
            let_ok l := BuildQrDecomposition a 128 HIGHEST in
            let xla_computation := MakeXlaComputation name (shape operand0) l in
            let '(st, clone) := DeepCloneComputation st module xla_computation in
            Ok (MakeState (<[name := Some clone]> (computation_cache_ st))
                  (computations st),
                Some clone)
        | Some _ => Ok (st, computation)
        end in
      match built with
      | Failure status => (st, Failure status)
      | Ok (st, computation) =>
          let call :=
            CreateCall (shape instruction) (operands instruction) computation
              (parent instruction) in
          (AddInstruction st (parent instruction) call, Ok call)
      end
  end.

(** Modelled from the spec: the pass that drives the expander is absent
    from the sources; the cache "is consulted once per custom-op site", the
    sites being expanded one after the other. *)
Fixpoint expand_all (st : State) (instructions : list HloInstruction)
    : State * list (StatusOr HloInstruction) :=
  match instructions with
  | [] => (st, [])
  | instruction :: rest =>
      let '(st, result) := ExpandInstruction st instruction in
      let '(st, results) := expand_all st rest in
      (st, result :: results)
  end.

End Expander.

End QrExpander.

(** ** Notions used to state the properties *)

(** The sign used by the builder: the sign of 0 is +1. *)
Definition sign_of (a : R) : R := if Rlt_dec a 0 then - 1 else 1.

(** Column [j] of a batched matrix, as a batched vector. *)
Definition column {B : Type} (a : Matrices B) (j : nat) : Vectors B :=
  fun b r => a b r j.

(** The panel step as section 4.2 of the spec words it: apply the reflector
    to the columns right of [j] through the mask [M_j], overwrite column
    [j], scatter tau into position [j]. *)
Definition reference_step {B : Type} (m n : nat) (j : nat)
    (values : Matrices B * Vectors B) : Matrices B * Vectors B :=
  let A := fst values in
  let tau_packed := snd values in
  let x := column A j in
  let '(v, tau, beta) := House x (Z.of_nat j) m in
  let M_j : Matrices B := fun b r c => if Nat.leb c j then 0 else A b r c in
  let vtM : Vectors B := fun b c => Reduce m (fun l => v b l * M_j b l c) 0 in
  let A' : Matrices B := fun b r c => A b r c - tau b * (v b r * vtM b c) in
  let A'' : Matrices B :=
    fun b r c =>
      if Nat.eqb c j then
        if Nat.ltb r j then A' b r c
        else if Nat.eqb r j then beta b
        else v b r
      else A' b r c in
  let tau_packed' : Vectors B :=
    fun b c => if Nat.eqb c j then tau b else tau_packed b c in
  (A'', tau_packed').

(** The loop state of the panel factorizer before step [j]. *)
Definition qr_state {B : Type} (m n : nat) (precision : Precision)
    (a : Matrices B) (j : nat) : Matrices B * Vectors B :=
  ForEachIndex j (qr_body_fn m n precision) (a, fun _ _ => 0).

(** ** Sample inputs *)

(** A lane with x = (3, 4): at pivot 0, alpha = 3 and sigma = 16. *)
Definition x_3_4 : Vectors unit :=
  fun _ i => match i with O => 3 | S O => 4 | _ => 0 end.

(** A lane with x = (5, 0): at pivot 0 the tail is zero. *)
Definition x_5_0 : Vectors unit :=
  fun _ i => match i with O => 5 | _ => 0 end.

(** A parameter value that is the 2 x 2 identity. *)
Definition eye_2_env : Tensor :=
  fun index =>
    match index with
    | [r; c] => if Nat.eqb r c then 1 else 0
    | _ => 0
    end.

(** The matrix ((3, 1), (4, 2)). *)
Definition a_3_1_4_2 : Matrices unit :=
  fun _ r c =>
    match r, c with
    | O, O => 3 | O, S O => 1
    | S O, O => 4 | S O, S O => 2
    | _, _ => 0
    end.

(** The loop state of the panel factorizer just before the step at pivot
    [j], in the block that starts at [i]; [a_i] is the work matrix before
    that block.  Entry [(j - i, j - i)] of its matrix is the pre-reflection
    alpha of pivot [j], the entries below it are the tail. *)
Definition pivot_state (m p block_size : nat) (precision : Precision)
    (i : nat) (a_i : XlaOp) (env : Tensor) (j : nat)
    : Matrices (list nat) * Vectors (list nat) :=
  let k := Nat.min block_size (p - i) in
  qr_state (m - i) k precision
    (op_value (Op.SliceInMinorDims a_i i i m (i + k)) env) (j - i).

(** The start of the block of the driver that holds column [j] and the work
    matrix before that block, for the driver run on [a]. *)
Definition work_matrix_before (ShapeToString : Shape -> string) (a : XlaOp)
    (block_size : Z) (precision : Precision) (j : nat)
    : option (nat * XlaOp) :=
  let a_shape := op_shape a in
  let type := element_type a_shape in
  let m := GetDimension a_shape (-2) in
  let n := GetDimension a_shape (-1) in
  let p := Nat.min m n in
  let batch_dims :=
    map (fun i => GetDimension a_shape (Z.of_nat i))
      (seq 0 (rank a_shape - 2)) in
  let q := Op.IdentityMatrix type batch_dims m m in
  QrExpander.block_holding ShapeToString type batch_dims m n p
    (Z.to_nat block_size) precision p 0 a q j.

(** The sign convention as the spec states it, at pivot [j]: the emitted
    [R[j, j]] has the sign opposite to the pre-reflection alpha (the sign of
    0 being +1), or it is zero when alpha is zero and the tail below [j] is
    zero. *)
Definition sign_convention_as_stated (ShapeToString : Shape -> string)
    (a : XlaOp) (block_size : Z) (precision : Precision) (env : Tensor)
    (b : list nat) (j : nat) : Prop :=
  let m := GetDimension (op_shape a) (-2) in
  let n := GetDimension (op_shape a) (-1) in
  let p := Nat.min m n in
  forall q r i a_i,
    QrExpander.BuildQrDecomposition ShapeToString a block_size precision
    = Ok (q, r) ->
    work_matrix_before ShapeToString a block_size precision j = Some (i, a_i) ->
    let st := pivot_state m p (Z.to_nat block_size) precision i a_i env j in
    let alpha := fst st b (j - i)%nat (j - i)%nat in
    let R_jj := op_value r env b j j in
    let tail_zero :=
      forall r', (j - i < r')%nat -> (r' < m - i)%nat ->
                 fst st b r' (j - i)%nat = 0 in
    (0 <= alpha /\ R_jj < 0) \/ (alpha < 0 /\ 0 < R_jj) \/
    (alpha = 0 /\ tail_zero /\ R_jj = 0).

(** The elementary reflector [H_j = I - tau_j v_j v_j^T] encoded by column
    [j] of [vs] and by [taus[j]], and the product [H_0 H_1 ... H_(k-1)] of
    the first [k] of them, as [m x m] matrices. *)
Definition reflector {B : Type} (vs : Matrices B) (taus : Vectors B)
    (j : nat) : Matrices B :=
  fun b r c => IdentityMatrix b r c - taus b j * (vs b r j * vs b c j).

Fixpoint reflector_product {B : Type} (m : nat) (vs : Matrices B)
    (taus : Vectors B) (k : nat) : Matrices B :=
  match k with
  | O => IdentityMatrix
  | S k' =>
      BatchDot m (reflector_product m vs taus k') (reflector vs taus k') HIGHEST
  end.

(** [Y T Y^T] for a panel [Y] with [n] columns. *)
Definition Y_T_Yt {B : Type} (n : nat) (Y T : Matrices B) : Matrices B :=
  BatchDot4 n (BatchDot n Y T HIGHEST) false Y true HIGHEST.

(** The recipe for [T] as section 4.3 of the spec words it: with
    [U = -tau[None,:] (strict_upper_triangle(Y^T Y) + I)], start from
    [diag(-tau)] and, for [j] in [1, k), replace column [j] of [T] by
    [T U[:, j]].  [spec_wy_loop i] is the state after the steps
    [1 .. i]. *)
Definition spec_wy_U {B : Type} (m : nat) (Y : Matrices B) (taus : Vectors B)
    : Matrices B :=
  fun b r c =>
    - taus b c
    * ((if Nat.ltb r c then Reduce m (fun l => Y b l r * Y b l c) 0 else 0)
       + (if Nat.eqb r c then 1 else 0)).

Fixpoint spec_wy_loop {B : Type} (m k : nat) (Y : Matrices B)
    (taus : Vectors B) (i : nat) : Matrices B :=
  match i with
  | O => fun b r c => if Nat.eqb r c then - taus b c else 0
  | S i' =>
      let T := spec_wy_loop m k Y taus i' in
      fun b r c =>
        if Nat.eqb c i
        then Reduce k (fun l => T b r l * spec_wy_U m Y taus b l i) 0
        else T b r c
  end.

Definition spec_wy_recipe {B : Type} (m k : nat) (Y : Matrices B)
    (taus : Vectors B) : Matrices B :=
  spec_wy_loop m k Y taus (k - 1).

(** The recipe of the comment above [CompactWYRepresentation]
    ([compact_wy]): [t = eye * -taus], [vtv = -taus[None, :] * triu(vs^T vs,
    1) + eye], and for [i] in [1, n) column [i] of [t] becomes [t vtv[:, i]]. *)
Definition compact_wy_vtv {B : Type} (m : nat) (vs : Matrices B)
    (taus : Vectors B) : Matrices B :=
  fun b r c =>
    - taus b c
    * (if Nat.ltb r c then Reduce m (fun l => vs b l r * vs b l c) 0 else 0)
    + (if Nat.eqb r c then 1 else 0).

Fixpoint compact_wy_loop {B : Type} (m n : nat) (vs : Matrices B)
    (taus : Vectors B) (i : nat) : Matrices B :=
  match i with
  | O => fun b r c => (if Nat.eqb r c then 1 else 0) * - taus b c
  | S i' =>
      let t := compact_wy_loop m n vs taus i' in
      fun b r c =>
        if Nat.eqb c i
        then Reduce n (fun l => t b r l * compact_wy_vtv m vs taus b l i) 0
        else t b r c
  end.

Definition compact_wy {B : Type} (m n : nat) (vs : Matrices B)
    (taus : Vectors B) : Matrices B :=
  compact_wy_loop m n vs taus (n - 1).

(** A panel of one reflector, v = (1), tau = 2, and a panel of two columns
    ((1, 0), (1/2, 1)) with tau = (8/5, 2). *)
Definition y_1 : Matrices unit := fun _ _ _ => 1.
Definition tau_2 : Vectors unit := fun _ _ => 2.

Definition y_2x2 : Matrices unit :=
  fun _ r c =>
    match r, c with
    | O, O => 1 | O, S O => 0
    | S O, O => 1 / 2 | S O, S O => 1
    | _, _ => 0
    end.

Definition tau_2x2 : Vectors unit :=
  fun _ c => match c with O => 8 / 5 | _ => 2 end.

(** The cache key of a node with first operand [operand0]. *)
Definition cache_key (ShapeToString : Shape -> string)
    (operand0 : HloInstruction) : string :=
  "xla.qr_" +:+ ShapeToString (shape operand0).

(** The call to computation [c] that stands for [instruction]: the declared
    shape and the operands of [instruction], in the same computation. *)
Definition call_of (instruction : HloInstruction) (c : CompPtr)
    : HloInstruction :=
  QrExpander.CreateCall (shape instruction) (operands instruction) (Some c)
    (parent instruction).

(** Every computation the cache holds was built by the block driver with
    block size 128 and the highest precision, from a shape that renders to
    the key, and is carried by the computation the entry points to. *)
Definition cache_built (ShapeToString : Shape -> string)
    (st : QrExpander.State) : Prop :=
  forall k c,
    QrExpander.computation_cache_ st !! k = Some (Some c) ->
    exists s g,
      k = "xla.qr_" +:+ ShapeToString s /\
      QrExpander.BuildQrDecomposition ShapeToString (Parameter0 s) 128 HIGHEST
      = Ok g /\
      emitted <$> (QrExpander.computations st !! c)
      = Some (Some (MakeXlaComputation k s g)).

(** A shape rendering for the sample runs: the rank and the dimension
    sizes, in decimal. *)
Definition render_shape (s : Shape) : string :=
  "f[" +:+ foldr (fun d acc => pretty d +:+ "," +:+ acc) "]" (dimensions s).

(** A custom call on an operand of shape [dims], both held by
    computation 0. *)
Definition qr_operand (dims : list nat) : HloInstruction :=
  MakeInstruction kParameter "" (MakeShape F32 dims) [] O None.

Definition qr_custom_call (dims : list nat) : HloInstruction :=
  MakeInstruction kCustomCall "QrDecomposition" (MakeShape F32 dims)
    [qr_operand dims] O None.

(** A host module with one computation and an empty cache. *)
Definition fresh_state : QrExpander.State :=
  QrExpander.MakeState ∅ [MakeComputation O [] None].

(** ** Further notions *)

(* std::vector<int64> ConcatVectors(absl::Span<const int64> xs,
   absl::Span<const int64> ys) (lines 40-47): the two std::copy calls push
   the elements of xs, then of ys, at the back of the output. *)
Definition copy_back_inserter (source output : list Z) : list Z :=
  fold_left (fun out x => out ++ [x]) source output.

Definition ConcatVectors (xs ys : list Z) : list Z :=
  let output := [] in
  let output := copy_back_inserter xs output in
  let output := copy_back_inserter ys output in
  output.

(** The reflection [H = I - tau v v^T] of the comment above [House], applied
    to a vector of length [m]: [H y = y - tau v (v^T y)]. *)
Definition apply_reflector {B : Type} (m : nat) (v : Vectors B)
    (tau : Scalars B) (y : Vectors B) : Vectors B :=
  fun b r => y b r - tau b * (v b r * Reduce m (fun l => v b l * y b l) 0).

(** A lane with x = (2, 3, 4): at pivot 1, alpha = 3 and sigma = 16. *)
Definition x_2_3_4 : Vectors unit :=
  fun _ i => match i with O => 2 | S O => 3 | S (S O) => 4 | _ => 0 end.

(** The panel of reflectors that the driver reads off a packed panel: the
    strict lower triangle with a unit diagonal
    ([IdentityMatrix + Select(TriangleMask(a, -1), a, ZerosLike(a))]), and
    the upper triangle [R] ([Select(TriangleMask(a, -1), ZerosLike(a), a)]). *)
Definition unit_lower {B : Type} (a : Matrices B) : Matrices B :=
  fun b r c =>
    IdentityMatrix b r c
    + Select (TriangleMask (-1) r c) (a b r c) (ZerosLike a b r c).

Definition upper {B : Type} (a : Matrices B) : Matrices B :=
  fun b r c => Select (TriangleMask (-1) r c) (ZerosLike a b r c) (a b r c).

(** [H_(k-1) ... H_1 H_0 A] for the reflectors [H_j = I - tau_j v_j v_j^T]
    of the panel [(Y, taus)], acting on the columns of [A], of length [m]. *)
Fixpoint reflect_left {B : Type} (m : nat) (Y : Matrices B)
    (taus : Vectors B) (k : nat) (A : Matrices B) : Matrices B :=
  match k with
  | O => A
  | S k' =>
      fun b r c =>
        apply_reflector m (column Y k') (fun b' => taus b' k')
          (column (reflect_left m Y taus k' A) c) b r
  end.

(** The matrix ((3, 1), (0, 2)), already upper triangular. *)
Definition a_3_1_0_2 : Matrices unit :=
  fun _ r c =>
    match r, c with
    | O, O => 3 | O, S O => 1
    | S O, S O => 2
    | _, _ => 0
    end.

(** The part of the work matrix of the block driver that belongs to [R]
    before the block that starts at column [i]: in the columns before [i]
    the entries below the diagonal hold reflector vectors and are left
    out. *)
Definition finished_upper {B : Type} (i : nat) (A : Matrices B) : Matrices B :=
  fun b r c => if Nat.ltb c i then upper A b r c else A b r c.

(** What the loop of the block driver keeps, for an input [A0] with [m]
    rows and [n] columns, before the block that starts at column [i]:
    [q] times the finished part of [a] is [A0], and the rows and the
    columns of [q] are orthonormal. *)
Definition qr_invariant {B : Type} (m n : nat) (A0 : Matrices B) (b : B)
    (i : nat) (A Q : Matrices B) : Prop :=
  (forall r c, (r < m)%nat -> (c < n)%nat ->
     Reduce m (fun l => Q b r l * finished_upper i A b l c) 0 = A0 b r c) /\
  (forall r c, (r < m)%nat -> (c < m)%nat ->
     Reduce m (fun l => Q b r l * Q b c l) 0 = ConvertElementType (Nat.eqb r c)) /\
  (forall r c, (r < m)%nat -> (c < m)%nat ->
     Reduce m (fun l => Q b l r * Q b l c) 0 = ConvertElementType (Nat.eqb r c)).

(** * Properties *)

(** ** Sums *)

Lemma Reduce_ext (m : nat) (f g : nat -> R) (init : R) :
  (forall i, (i < m)%nat -> f i = g i) -> Reduce m f init = Reduce m g init.
Proof.
  induction m as [|m IH]; intros E; simpl; [reflexivity|].
  rewrite IH by (intros; apply E; lia).
  rewrite (E m) by lia. reflexivity.
Qed.

Lemma Reduce_all_zero (m : nat) (f : nat -> R) :
  (forall i, (i < m)%nat -> f i = 0) -> Reduce m f 0 = 0.
Proof.
  induction m as [|m IH]; intros E; simpl; [reflexivity|].
  rewrite IH by (intros; apply E; lia).
  rewrite (E m) by lia. lra.
Qed.

Lemma Reduce_squares_nonneg (m : nat) (f : nat -> R) :
  0 <= Reduce m (fun i => f i * f i) 0.
Proof.
  induction m as [|m IH]; simpl; [lra|].
  pose proof (Rle_0_sqr (f m)) as Hs. unfold Rsqr in Hs. lra.
Qed.

Lemma Reduce_squares_zero (m : nat) (f : nat -> R) :
  Reduce m (fun i => f i * f i) 0 = 0 -> forall i, (i < m)%nat -> f i = 0.
Proof.
  induction m as [|m IH]; simpl; intros E i Hi; [lia|].
  pose proof (Reduce_squares_nonneg m f) as Hn.
  pose proof (Rle_0_sqr (f m)) as Hs. unfold Rsqr in Hs.
  assert (Hm : f m * f m = 0) by lra.
  assert (Hr : Reduce m (fun i => f i * f i) 0 = 0) by lra.
  destruct (Nat.eq_dec i m) as [->|Hne].
  - apply Rmult_integral in Hm. destruct Hm; assumption.
  - apply IH; [assumption | lia].
Qed.

(** ** The reflector builder *)

Lemma clamp_start_in_range (j : Z) (n : nat) :
  (0 <= j < Z.of_nat n)%Z -> clamp_start j n 1 = Z.to_nat j.
Proof. intros H. unfold clamp_start. f_equal. lia. Qed.

Lemma clamp_start_of_nat (j n : nat) :
  (j < n)%nat -> clamp_start (Z.of_nat j) n 1 = j.
Proof.
  intros H. rewrite clamp_start_in_range by lia. apply Nat2Z.id.
Qed.

Lemma EqR_true (x y : R) : EqR x y = true <-> x = y.
Proof. unfold EqR. destruct (Req_dec_T x y); split; congruence. Qed.

Lemma EqR_false (x y : R) : EqR x y = false <-> x <> y.
Proof. unfold EqR. destruct (Req_dec_T x y); split; congruence. Qed.

Lemma LtR_true (x y : R) : LtR x y = true <-> x < y.
Proof. unfold LtR. destruct (Rlt_dec x y); split; congruence. Qed.

Lemma LtR_false (x y : R) : LtR x y = false <-> y <= x.
Proof.
  unfold LtR. destruct (Rlt_dec x y); split; try congruence; intros; lra.
Qed.

Section HouseFacts.

Context {B : Type}.
Variable x : Vectors B.
Variable k : S32.
Variable m : nat.
Variable b : B.

Lemma House_sigma_nonneg : 0 <= House_sigma x k m b.
Proof. apply Reduce_squares_nonneg. Qed.

Lemma House_sigma_zero_iff :
  House_sigma x k m b = 0 <->
  (forall i, (i < m)%nat -> (k < Z.of_nat i)%Z -> x b i = 0).
Proof.
  unfold House_sigma. split.
  - intros E i Hi Hk.
    pose proof (Reduce_squares_zero m _ E i Hi) as Hz.
    unfold House_x_after_k, ConvertElementType, Iota in Hz.
    destruct (Z.ltb_spec k (Z.of_nat i)); [lra | lia].
  - intros E. apply Reduce_all_zero. intros i Hi.
    unfold House_x_after_k, ConvertElementType, Iota.
    destruct (Z.ltb_spec k (Z.of_nat i)); [rewrite E by assumption|]; lra.
Qed.

Lemma House_mu_pos : House_sigma x k m b <> 0 -> 0 < House_mu x k m b.
Proof.
  intros Hs. unfold House_mu. apply sqrt_lt_R0.
  pose proof House_sigma_nonneg.
  pose proof (Rle_0_sqr (House_alpha x k m b)) as Ha. unfold Rsqr in Ha.
  lra.
Qed.

Lemma House_beta_nondegenerate :
  House_sigma x k m b <> 0 ->
  House_beta x k m b = - sign_of (House_alpha x k m b) * House_mu x k m b.
Proof.
  intros Hs. unfold House_beta, House_sigma_is_zero, Select, sign_of.
  apply EqR_false in Hs. rewrite Hs. unfold LtR.
  destruct (Rlt_dec (House_alpha x k m b) 0); lra.
Qed.

Lemma House_divisor_nonzero : House_divisor x k m b <> 0.
Proof.
  unfold House_divisor, House_sigma_is_zero, Select.
  destruct (EqR (House_sigma x k m b) 0) eqn:E; [lra|].
  apply EqR_false in E.
  rewrite (House_beta_nondegenerate E).
  pose proof (House_mu_pos E). unfold sign_of.
  destruct (Rlt_dec (House_alpha x k m b) 0); lra.
Qed.

Lemma House_v_below (i : nat) :
  (Z.of_nat i < k)%Z -> House_v x k m b i = 0.
Proof.
  intros H. unfold House_v, House_e_k, House_x_after_k, ConvertElementType, Iota.
  destruct (Z.eqb_spec (Z.of_nat i) k); [lia|].
  destruct (Z.ltb_spec k (Z.of_nat i)); [lia|].
  unfold Rdiv. lra.
Qed.

Lemma House_v_pivot (i : nat) :
  Z.of_nat i = k -> House_v x k m b i = 1.
Proof.
  intros H. unfold House_v, House_e_k, House_x_after_k, ConvertElementType, Iota.
  destruct (Z.eqb_spec (Z.of_nat i) k); [|lia].
  destruct (Z.ltb_spec k (Z.of_nat i)); [lia|].
  unfold Rdiv. lra.
Qed.

Lemma House_v_above (i : nat) :
  (k < Z.of_nat i)%Z ->
  House_v x k m b i = x b i / House_divisor x k m b.
Proof.
  intros H. unfold House_v, House_e_k, House_x_after_k, ConvertElementType, Iota.
  destruct (Z.eqb_spec (Z.of_nat i) k); [lia|].
  destruct (Z.ltb_spec k (Z.of_nat i)); [|lia].
  unfold Rdiv. lra.
Qed.

End HouseFacts.

(** C1.  For every batch element [b] and every vector [x] of length [m] with
    pivot [k] in range, when the masked tail dot product sigma is nonzero,
    [House] returns beta = - sign(alpha) * mu with mu = sqrt(alpha^2 + sigma)
    and the sign of 0 taken as +1 (the factor of mu is +1 exactly when
    alpha < 0), tau = (beta - alpha) / beta, and [v] with v[i] = 0 below the
    pivot, v[k] = 1 and v[i] = x[i] / (alpha - beta) above it. *)
Theorem House_nondegenerate {B : Type} (x : Vectors B) (k : S32) (m : nat)
    (b : B) :
  (0 <= k < Z.of_nat m)%Z ->
  House_sigma x k m b <> 0 ->
  let alpha := x b (Z.to_nat k) in
  let sigma :=
    Reduce m (fun i => if Z.ltb k (Z.of_nat i) then x b i * x b i else 0) 0 in
  let mu := sqrt (alpha * alpha + sigma) in
  let '(v, tau, beta) := House x k m in
  House_sigma x k m b = sigma /\
  beta b = - sign_of alpha * mu /\
  (beta b = 1 * mu <-> alpha < 0) /\
  (beta b = - 1 * mu <-> 0 <= alpha) /\
  tau b = (beta b - alpha) / beta b /\
  forall i : nat,
    ((i < Z.to_nat k)%nat -> v b i = 0) /\
    (i = Z.to_nat k -> v b i = 1) /\
    ((Z.to_nat k < i)%nat -> (i < m)%nat -> v b i = x b i / (alpha - beta b)).
Proof.
  intros Hk Hs. cbv zeta. unfold House.
  assert (Ea : House_alpha x k m b = x b (Z.to_nat k)).
  { unfold House_alpha. now rewrite clamp_start_in_range. }
  assert (Es : House_sigma x k m b =
    Reduce m (fun i => if Z.ltb k (Z.of_nat i) then x b i * x b i else 0) 0).
  { unfold House_sigma. apply Reduce_ext. intros i _.
    unfold House_x_after_k, ConvertElementType, Iota.
    destruct (Z.ltb k (Z.of_nat i)); lra. }
  pose proof (House_beta_nondegenerate x k m b Hs) as Eb.
  pose proof (House_mu_pos x k m b Hs) as Hmu.
  unfold House_mu in Eb, Hmu. rewrite Ea, Es in Eb, Hmu.
  split; [exact Es|]. split; [exact Eb|].
  split; [|split; [|split]].
  - rewrite Eb. unfold sign_of.
    destruct (Rlt_dec (x b (Z.to_nat k)) 0); split; intros; lra.
  - rewrite Eb. unfold sign_of.
    destruct (Rlt_dec (x b (Z.to_nat k)) 0); split; intros; lra.
  - unfold House_tau, House_sigma_is_zero, Select.
    apply EqR_false in Hs. rewrite Hs. now rewrite Ea.
  - intros i. split; [|split].
    + intros Hi. apply House_v_below. lia.
    + intros Hi. apply House_v_pivot. lia.
    + intros Hi _. rewrite House_v_above by lia.
      unfold House_divisor, House_sigma_is_zero, Select.
      apply EqR_false in Hs. rewrite Hs. now rewrite Ea.
Qed.

Lemma House_nondegenerate_witness :
  House_sigma x_3_4 0%Z 2 tt <> 0 /\
  House_beta x_3_4 0%Z 2 tt = - sign_of 3 * sqrt (3 * 3 + House_sigma x_3_4 0%Z 2 tt).
Proof.
  assert (Hs : House_sigma x_3_4 0%Z 2 tt <> 0).
  { unfold House_sigma, House_x_after_k, ConvertElementType, Iota, x_3_4.
    simpl. lra. }
  split; [exact Hs|].
  pose proof (House_nondegenerate x_3_4 0%Z 2 tt ltac:(lia) Hs) as H.
  cbv zeta in H. unfold House in H.
  destruct H as (Es & Eb & _). rewrite Es. exact Eb.
Defined.

(** C5.  For every batch element whose masked tail is all zero, sigma is
    zero and [House] returns beta = alpha = x[k], tau = 0 and v = e_k, the
    vector that is 1 at [k] and 0 elsewhere; the division that forms [v],
    v[i] = e_k[i] + (x[i] if i > k, else 0) / divisor, is guarded: its
    divisor is 1 when sigma = 0 and is alpha - beta = alpha + sign(alpha) *
    sqrt(alpha^2 + sigma), which is not zero, when sigma is not zero, so the
    divisor is nonzero in every lane. *)
Theorem House_degenerate_guarded {B : Type} (x : Vectors B) (k : S32)
    (m : nat) (b : B) :
  let '(v, tau, beta) := House x k m in
  (House_divisor x k m b <> 0 /\
   forall i,
     v b i
     = (if Z.eqb (Z.of_nat i) k then 1 else 0)
       + (if Z.ltb k (Z.of_nat i) then x b i else 0) / House_divisor x k m b) /\
  ((0 <= k < Z.of_nat m)%Z ->
   let alpha := x b (Z.to_nat k) in
   let sigma :=
     Reduce m (fun i => if Z.ltb k (Z.of_nat i) then x b i * x b i else 0) 0 in
   let mu := sqrt (alpha * alpha + sigma) in
   let divisor :=
     if Req_dec_T sigma 0 then 1 else alpha + sign_of alpha * mu in
   House_sigma x k m b = sigma /\
   ((forall i, (i < m)%nat -> (k < Z.of_nat i)%Z -> x b i = 0) -> sigma = 0) /\
   (sigma = 0 ->
    beta b = alpha /\ tau b = 0 /\
    forall i, (i < m)%nat -> v b i = if Nat.eqb i (Z.to_nat k) then 1 else 0) /\
   House_divisor x k m b = divisor /\
   (sigma <> 0 -> divisor = alpha - beta b) /\
   divisor <> 0 /\
   forall i, (i < m)%nat ->
     v b i
     = (if Nat.eqb i (Z.to_nat k) then 1 else 0)
       + (if Nat.ltb (Z.to_nat k) i then x b i else 0) / divisor).
Proof.
  unfold House.
  assert (Hv : forall i,
            House_v x k m b i
            = (if Z.eqb (Z.of_nat i) k then 1 else 0)
              + (if Z.ltb k (Z.of_nat i) then x b i else 0)
                / House_divisor x k m b).
  { intros i.
    unfold House_v, House_e_k, House_x_after_k, ConvertElementType, Iota.
    destruct (Z.eqb (Z.of_nat i) k); destruct (Z.ltb k (Z.of_nat i));
      unfold Rdiv; lra. }
  split; [split; [apply House_divisor_nonzero | exact Hv]|].
  intros Hk. cbv zeta.
  assert (Ea : House_alpha x k m b = x b (Z.to_nat k)).
  { unfold House_alpha. now rewrite clamp_start_in_range. }
  assert (Es : House_sigma x k m b =
    Reduce m (fun i => if Z.ltb k (Z.of_nat i) then x b i * x b i else 0) 0).
  { unfold House_sigma. apply Reduce_ext. intros i _.
    unfold House_x_after_k, ConvertElementType, Iota.
    destruct (Z.ltb k (Z.of_nat i)); lra. }
  rewrite <- Es.
  assert (Ed : House_divisor x k m b
               = if Req_dec_T (House_sigma x k m b) 0 then 1
                 else x b (Z.to_nat k)
                      + sign_of (x b (Z.to_nat k))
                        * sqrt (x b (Z.to_nat k) * x b (Z.to_nat k)
                                + House_sigma x k m b)).
  { destruct (Req_dec_T (House_sigma x k m b) 0) as [Hs|Hs].
    - unfold House_divisor, House_sigma_is_zero, Select.
      apply EqR_true in Hs. now rewrite Hs.
    - pose proof (House_beta_nondegenerate x k m b Hs) as Eb.
      unfold House_mu in Eb. rewrite Ea in Eb.
      unfold House_divisor, House_sigma_is_zero, Select.
      apply EqR_false in Hs. rewrite Hs, Eb, Ea. ring. }
  split; [reflexivity|]. split; [|split; [|split; [|split; [|split]]]].
  - intros Htail. now apply House_sigma_zero_iff.
  - intros Hs.
    assert (Hz : House_sigma_is_zero x k m b = true).
    { unfold House_sigma_is_zero. now apply EqR_true. }
    unfold House_beta, House_tau, Select. rewrite Hz.
    split; [exact Ea|]. split; [reflexivity|].
    intros i Hi. rewrite Hv.
    unfold House_divisor, Select. rewrite Hz.
    destruct (Z.eqb_spec (Z.of_nat i) k); destruct (Nat.eqb_spec i (Z.to_nat k));
      try lia;
      (destruct (Z.ltb_spec k (Z.of_nat i)) as [Hlt|Hge];
       [rewrite (proj1 (House_sigma_zero_iff x k m b) Hs i Hi Hlt)|];
       unfold Rdiv; lra).
  - exact Ed.
  - intros Hs. destruct (Req_dec_T (House_sigma x k m b) 0) as [|_]; [tauto|].
    pose proof (House_beta_nondegenerate x k m b Hs) as Eb.
    unfold House_mu in Eb. rewrite Ea in Eb. rewrite Eb. ring.
  - rewrite <- Ed. apply House_divisor_nonzero.
  - intros i Hi. rewrite Hv, <- Ed.
    destruct (Z.eqb_spec (Z.of_nat i) k); destruct (Nat.eqb_spec i (Z.to_nat k));
      try lia;
      destruct (Z.ltb_spec k (Z.of_nat i));
      destruct (Nat.ltb_spec (Z.to_nat k) i); try lia; reflexivity.
Qed.

Lemma House_degenerate_guarded_witness :
  (0 <= 0 < Z.of_nat 2)%Z /\
  (forall i, (i < 2)%nat -> (0 < Z.of_nat i)%Z -> x_5_0 tt i = 0) /\
  House_beta x_5_0 0%Z 2 tt = 5 /\ House_tau x_5_0 0%Z 2 tt = 0 /\
  House_v x_5_0 0%Z 2 tt 0%nat = 1 /\ House_v x_5_0 0%Z 2 tt 1%nat = 0.
Proof.
  assert (Ht : forall i, (i < 2)%nat -> (0 < Z.of_nat i)%Z -> x_5_0 tt i = 0).
  { intros [|i] _ Hi; [lia | reflexivity]. }
  split; [lia|]. split; [exact Ht|].
  pose proof (House_degenerate_guarded x_5_0 0%Z 2 tt) as H.
  unfold House in H. destruct H as (_ & H).
  specialize (H ltac:(lia)). cbv zeta in H.
  destruct H as (_ & Hs & Hd & _).
  destruct (Hd (Hs Ht)) as (Eb & Et & Ev).
  split; [exact Eb|]. split; [exact Et|].
  split; [exact (Ev 0%nat ltac:(lia)) | exact (Ev 1%nat ltac:(lia))].
Defined.

(** ** The panel loop *)

Lemma Reduce_one (f : nat -> R) : Reduce 1 f 0 = f O.
Proof. simpl. lra. Qed.

Section QrBody.

Context {B : Type}.
Variables m n : nat.
Variable precision : Precision.

Lemma qr_body_fn_a (j : nat) (a : Matrices B) (taus : Vectors B) b r c :
  (j < n)%nat ->
  fst (qr_body_fn m n precision (Z.of_nat j) (a, taus)) b r c =
  let x := column a j in
  let v := House_v x (Z.of_nat j) m in
  let tau := House_tau x (Z.of_nat j) m in
  let beta := House_beta x (Z.of_nat j) m in
  if Nat.eqb c j then
    if Nat.ltb r j then a b r j
    else if Nat.eqb r j then beta b else v b r
  else
    a b r c
    - tau b * (v b r * Reduce m (fun l => v b l * if Nat.ltb j c then a b l c else 0) 0).
Proof.
  intros Hj. cbv zeta.
  unfold qr_body_fn, House, BatchDot, BatchDot4, Transposed, Select, ZerosLike,
    Collapse, DynamicSliceInMinorDims, ConvertElementType, Iota. cbn [fst snd].
  rewrite clamp_start_of_nat by assumption.
  rewrite Reduce_one. rewrite Nat.add_0_r.
  change (fun b0 r0 => a b0 r0 j) with (column a j).
  destruct (Z.eqb_spec (Z.of_nat c) (Z.of_nat j)) as [E|E];
    destruct (Nat.eqb_spec c j) as [E'|E']; try lia.
  - subst c.
    destruct (Z.ltb_spec (Z.of_nat r) (Z.of_nat j));
      destruct (Nat.ltb_spec r j); try lia;
      destruct (Z.eqb_spec (Z.of_nat r) (Z.of_nat j));
      destruct (Nat.eqb_spec r j); try lia;
      destruct (Z.ltb_spec (Z.of_nat j) (Z.of_nat r)); try lia;
      unfold column; lra.
  - f_equal. f_equal. f_equal. apply Reduce_ext. intros l _.
    destruct (Z.ltb_spec (Z.of_nat j) (Z.of_nat c));
      destruct (Nat.ltb_spec j c); try lia; reflexivity.
Qed.

Lemma qr_body_fn_taus (j : nat) (a : Matrices B) (taus : Vectors B) b c :
  (j < n)%nat ->
  snd (qr_body_fn m n precision (Z.of_nat j) (a, taus)) b c =
  taus b c + if Nat.eqb c j then House_tau (column a j) (Z.of_nat j) m b else 0.
Proof.
  intros Hj.
  unfold qr_body_fn, House, Select, Collapse, DynamicSliceInMinorDims, Iota.
  cbn [fst snd].
  rewrite clamp_start_of_nat by assumption.
  change (fun b0 r0 => a b0 r0 (j + 0)%nat) with (fun b0 r0 => a b0 r0 (j + 0)%nat).
  destruct (Z.eqb_spec (Z.of_nat c) (Z.of_nat j));
    destruct (Nat.eqb_spec c j); try lia; [|reflexivity].
  f_equal. rewrite Rplus_0_l. f_equal.
  unfold column. rewrite Nat.add_0_r. reflexivity.
Qed.

End QrBody.

Section QrLoop.

Context {B : Type}.
Variables m n : nat.
Variable precision : Precision.
Variable a : Matrices B.

Local Abbreviation state := (qr_state m n precision a).
Local Abbreviation body := (qr_body_fn m n precision).

Lemma qr_state_succ (j : nat) : state (S j) = body (Z.of_nat j) (state j).
Proof. reflexivity. Qed.

Lemma qr_loop_state : qr_loop m n precision a = state (Nat.min m n).
Proof. reflexivity. Qed.

Lemma qr_step_a (j : nat) (st : Matrices B * Vectors B) b r c :
  (j < n)%nat ->
  fst (body (Z.of_nat j) st) b r c =
  let x := column (fst st) j in
  let v := House_v x (Z.of_nat j) m in
  let tau := House_tau x (Z.of_nat j) m in
  let beta := House_beta x (Z.of_nat j) m in
  if Nat.eqb c j then
    if Nat.ltb r j then fst st b r j
    else if Nat.eqb r j then beta b else v b r
  else
    fst st b r c
    - tau b * (v b r
               * Reduce m (fun l => v b l * if Nat.ltb j c then fst st b l c else 0) 0).
Proof. destruct st as [a0 t0]. apply qr_body_fn_a. Qed.

Lemma qr_step_taus (j : nat) (st : Matrices B * Vectors B) b c :
  (j < n)%nat ->
  snd (body (Z.of_nat j) st) b c =
  snd st b c
  + if Nat.eqb c j then House_tau (column (fst st) j) (Z.of_nat j) m b else 0.
Proof. destruct st as [a0 t0]. apply qr_body_fn_taus. Qed.

(** Positions of the packed tau vector that are not yet filled are zero. *)
Lemma qr_state_taus_unfilled (j : nat) b c :
  (j <= n)%nat -> (j <= c)%nat -> snd (state j) b c = 0.
Proof.
  induction j as [|j IH]; intros Hn Hc; [reflexivity|].
  rewrite qr_state_succ, qr_step_taus by lia.
  rewrite IH by lia.
  destruct (Nat.eqb_spec c j); [lia | lra].
Qed.

(** Step [i] leaves the rows above its pivot alone. *)
Lemma qr_step_rows_above (i : nat) (st : Matrices B * Vectors B) b r c :
  (i < n)%nat -> (r < i)%nat ->
  fst (body (Z.of_nat i) st) b r c = fst st b r c.
Proof.
  intros Hi Hr. rewrite qr_step_a by assumption. cbv zeta.
  destruct (Nat.eqb_spec c i) as [->|Hc].
  - destruct (Nat.ltb_spec r i); [reflexivity | lia].
  - rewrite House_v_below by lia. lra.
Qed.

(** Once written at step [j], the diagonal entry [(j, j)] is final. *)
Lemma qr_state_diagonal (i j : nat) b :
  (j < i)%nat -> (i <= n)%nat ->
  fst (state i) b j j
  = House_beta (column (fst (state j)) j) (Z.of_nat j) m b.
Proof.
  induction i as [|i IH]; intros Hj Hi; [lia|].
  rewrite qr_state_succ.
  destruct (Nat.eq_dec j i) as [->|Hne].
  - rewrite qr_step_a by lia. cbv zeta.
    rewrite Nat.eqb_refl, Nat.ltb_irrefl. reflexivity.
  - rewrite qr_step_rows_above by lia. apply IH; lia.
Qed.

Lemma House_beta_sign (x : Vectors B) (k : S32) b :
  House_sigma x k m b <> 0 ->
  (0 <= House_alpha x k m b -> House_beta x k m b < 0) /\
  (House_alpha x k m b < 0 -> 0 < House_beta x k m b).
Proof.
  intros Hs. rewrite (House_beta_nondegenerate x k m b Hs).
  pose proof (House_mu_pos x k m b Hs). unfold sign_of.
  destruct (Rlt_dec (House_alpha x k m b) 0); split; intros; lra.
Qed.

Lemma House_beta_degenerate (x : Vectors B) (k : S32) b :
  House_sigma x k m b = 0 -> House_beta x k m b = House_alpha x k m b.
Proof.
  intros Hs. unfold House_beta, House_sigma_is_zero, Select.
  apply EqR_true in Hs. now rewrite Hs.
Qed.

Lemma qr_alpha_at (j : nat) b :
  (j < m)%nat ->
  House_alpha (column (fst (state j)) j) (Z.of_nat j) m b = fst (state j) b j j.
Proof.
  intros Hj. unfold House_alpha, column. now rewrite clamp_start_of_nat.
Qed.

Lemma qr_tail_zero_iff (j : nat) b :
  House_sigma (column (fst (state j)) j) (Z.of_nat j) m b = 0 <->
  (forall r, (j < r)%nat -> (r < m)%nat -> fst (state j) b r j = 0).
Proof.
  rewrite House_sigma_zero_iff. unfold column.
  split; intros H r; intros; apply H; lia.
Qed.

End QrLoop.

(** C6.  Iteration [j] of the panel loop is the reference step of the spec:
    the reflector update is applied through the mask on the columns up to
    [j], column [j] is then overwritten (rows above [j] keep their values,
    row [j] becomes beta, rows below become the tail of [v]), and tau is
    scattered into position [j] of the packed vector, whose other entries
    are unchanged and whose entries from [j] on are still zero. *)
Theorem qr_step_refines_reference {B : Type} (m n : nat)
    (precision : Precision) (a : Matrices B) (j : nat) (b : B) :
  (j < Nat.min m n)%nat ->
  let st := qr_state m n precision a j in
  let st' := qr_body_fn m n precision (Z.of_nat j) st in
  let ref := reference_step m n j st in
  let '(v, tau, beta) := House (column (fst st) j) (Z.of_nat j) m in
  (forall r c, fst st' b r c = fst ref b r c) /\
  (forall c, snd st' b c = snd ref b c) /\
  (forall r, (r < j)%nat -> fst st' b r j = fst st b r j) /\
  fst st' b j j = beta b /\
  (forall r, (j < r)%nat -> fst st' b r j = v b r) /\
  snd st' b j = tau b /\
  (forall c, c <> j -> snd st' b c = snd st b c) /\
  (forall c, (j <= c)%nat -> snd st b c = 0).
Proof.
  intros Hj. cbv zeta. unfold House.
  set (st := qr_state m n precision a j).
  assert (Hz : forall c, (j <= c)%nat -> snd st b c = 0).
  { intros c Hc. apply qr_state_taus_unfilled; lia. }
  assert (Hm : Reduce m (fun l =>
             House_v (column (fst st) j) (Z.of_nat j) m b l
             * (if Nat.leb j j then 0 else fst st b l j)) 0 = 0).
  { apply Reduce_all_zero. intros l _.
    rewrite Nat.leb_refl. lra. }
  repeat split.
  - intros r c. rewrite qr_step_a by lia. cbv zeta.
    unfold reference_step, House. cbn [fst snd].
    destruct (Nat.eqb_spec c j) as [->|Hc].
    + destruct (Nat.ltb_spec r j); [|reflexivity].
      rewrite Hm. lra.
    + f_equal. f_equal. f_equal. apply Reduce_ext. intros l _.
      destruct (Nat.ltb_spec j c); destruct (Nat.leb_spec c j);
        try lia; reflexivity.
  - intros c. rewrite qr_step_taus by lia.
    unfold reference_step, House. cbn [fst snd].
    destruct (Nat.eqb_spec c j) as [->|Hc]; [|lra].
    rewrite Hz by lia. lra.
  - intros r Hr. rewrite qr_step_a by lia. cbv zeta.
    rewrite Nat.eqb_refl. destruct (Nat.ltb_spec r j); [reflexivity | lia].
  - rewrite qr_step_a by lia. cbv zeta.
    now rewrite Nat.eqb_refl, Nat.ltb_irrefl.
  - intros r Hr. rewrite qr_step_a by lia. cbv zeta.
    rewrite Nat.eqb_refl.
    destruct (Nat.ltb_spec r j); [lia|].
    destruct (Nat.eqb_spec r j); [lia | reflexivity].
  - rewrite qr_step_taus by lia. rewrite Nat.eqb_refl, Hz by lia. lra.
  - intros c Hc. rewrite qr_step_taus by lia.
    destruct (Nat.eqb_spec c j); [contradiction | lra].
  - exact Hz.
Qed.

Lemma qr_step_refines_reference_witness :
  (0 < Nat.min 2 2)%nat /\
  fst (qr_body_fn 2 2 HIGHEST 0%Z (qr_state 2 2 HIGHEST a_3_1_4_2 0)) tt O O
  = House_beta (column a_3_1_4_2 0) 0%Z 2 tt.
Proof.
  split; [simpl; lia|].
  pose proof (qr_step_refines_reference 2 2 HIGHEST a_3_1_4_2 0 tt
                ltac:(simpl; lia)) as H.
  cbv zeta in H. unfold House in H.
  destruct H as (_ & _ & _ & H & _). exact H.
Defined.

(** On a panel: the packed diagonal entry at pivot [j] equals the
    pre-reflection alpha when the tail below [j] is zero, and otherwise has
    the sign opposite to alpha. *)
Lemma qr_panel_diagonal_sign {B : Type} (m n : nat) (precision : Precision)
    (a : Matrices B) (j : nat) (b : B) :
  (j < Nat.min m n)%nat ->
  let st := qr_state m n precision a j in
  let alpha := fst st b j j in
  let R_jj := fst (qr_loop m n precision a) b j j in
  let tail_zero :=
    forall r, (j < r)%nat -> (r < m)%nat -> fst st b r j = 0 in
  (tail_zero -> R_jj = alpha) /\
  (~ tail_zero -> (0 <= alpha -> R_jj < 0) /\ (alpha < 0 -> 0 < R_jj)).
Proof.
  intros Hj. cbv zeta.
  rewrite qr_loop_state, (qr_state_diagonal m n precision a _ j) by lia.
  rewrite <- (qr_alpha_at m n precision a j b) by lia.
  split.
  - intros Ht. apply House_beta_degenerate. now apply qr_tail_zero_iff.
  - intros Ht. apply House_beta_sign.
    intros Hs. apply Ht. now apply qr_tail_zero_iff.
Qed.

(** The same on the sum of squares that [House] computes at pivot [j]:
    the diagonal entry is alpha when that sum is zero and has the sign
    opposite to alpha when it is not. *)
Lemma qr_panel_diagonal_sigma {B : Type} (m n : nat) (precision : Precision)
    (a : Matrices B) (j : nat) (b : B) :
  (j < Nat.min m n)%nat ->
  let st := qr_state m n precision a j in
  let alpha := fst st b j j in
  let sigma := House_sigma (column (fst st) j) (Z.of_nat j) m b in
  let R_jj := fst (qr_loop m n precision a) b j j in
  sigma
  = Reduce m (fun r =>
      if Nat.ltb j r then fst st b r j * fst st b r j else 0) 0 /\
  ((forall r, (j < r)%nat -> (r < m)%nat -> fst st b r j = 0) -> sigma = 0) /\
  (sigma = 0 -> R_jj = alpha) /\
  (sigma <> 0 -> (0 <= alpha -> R_jj < 0) /\ (alpha < 0 -> 0 < R_jj)).
Proof.
  intros Hj. cbv zeta.
  rewrite qr_loop_state, (qr_state_diagonal m n precision a _ j) by lia.
  rewrite <- (qr_alpha_at m n precision a j b) by lia.
  split; [|split; [|split]].
  - unfold House_sigma. apply Reduce_ext. intros r _.
    unfold House_x_after_k, ConvertElementType, Iota, column.
    destruct (Z.ltb_spec (Z.of_nat j) (Z.of_nat r));
      destruct (Nat.ltb_spec j r); try lia; lra.
  - intros Ht. now apply qr_tail_zero_iff.
  - apply House_beta_degenerate.
  - apply House_beta_sign.
Qed.

(** ** More on sums *)

Lemma Reduce_plus (n : nat) (f g : nat -> R) :
  Reduce n (fun i => f i + g i) 0 = Reduce n f 0 + Reduce n g 0.
Proof. induction n as [|n IH]; simpl; [|rewrite IH]; lra. Qed.

Lemma Reduce_scal (n : nat) (k : R) (f : nat -> R) :
  Reduce n (fun i => k * f i) 0 = k * Reduce n f 0.
Proof. induction n as [|n IH]; simpl; [|rewrite IH]; lra. Qed.

Lemma Reduce_scal_r (n : nat) (k : R) (f : nat -> R) :
  Reduce n (fun i => f i * k) 0 = Reduce n f 0 * k.
Proof. induction n as [|n IH]; simpl; [|rewrite IH]; lra. Qed.

Lemma Reduce_swap (n k : nat) (f : nat -> nat -> R) :
  Reduce n (fun i => Reduce k (fun l => f i l) 0) 0
  = Reduce k (fun l => Reduce n (fun i => f i l) 0) 0.
Proof.
  induction n as [|n IH]; simpl.
  - symmetry. now apply Reduce_all_zero.
  - rewrite IH, <- Reduce_plus. reflexivity.
Qed.

Lemma Reduce_split_at (n i : nat) (f : nat -> R) :
  (i < n)%nat -> (forall l, (i < l)%nat -> (l < n)%nat -> f l = 0) ->
  Reduce n f 0 = Reduce i f 0 + f i.
Proof.
  induction n as [|n IH]; intros Hi Hz; [lia|]. simpl.
  destruct (Nat.eq_dec i n) as [->|Hne]; [reflexivity|].
  rewrite IH by (try lia; intros; apply Hz; lia).
  rewrite (Hz n) by lia. lra.
Qed.

Lemma Reduce_delta (n j : nat) (f : nat -> R) :
  (j < n)%nat ->
  Reduce n (fun i => f i * ConvertElementType (Nat.eqb i j)) 0 = f j.
Proof.
  intros Hj. rewrite (Reduce_split_at n j).
  - rewrite Reduce_all_zero.
    + rewrite Nat.eqb_refl. simpl. lra.
    + intros i Hi. destruct (Nat.eqb_spec i j); [lia | simpl; lra].
  - assumption.
  - intros l H1 H2. destruct (Nat.eqb_spec l j); [lia | simpl; lra].
Qed.

Lemma Reduce_delta_l (n j : nat) (f : nat -> R) :
  (j < n)%nat ->
  Reduce n (fun i => ConvertElementType (Nat.eqb j i) * f i) 0 = f j.
Proof.
  intros Hj. rewrite <- (Reduce_delta n j f Hj). apply Reduce_ext. intros i _.
  rewrite (Nat.eqb_sym j i). lra.
Qed.

(** ** The Compact-WY loop *)

Section WyLoop.

Context {B : Type}.
Variables m n : nat.
Variable precision : Precision.
Variable vs : Matrices B.
Variable taus : Vectors B.
Variable b : B.

Local Abbreviation T i := (fst (wy_loop m n precision i vs taus) b).
Local Abbreviation U := (wy_vtv m precision vs taus b).
Local Abbreviation V i j := (Reduce m (fun l => vs b l i * vs b l j) 0).
Local Abbreviation eye r c := (ConvertElementType (Nat.eqb r c)).

Lemma wy_loop_succ (i : nat) :
  wy_loop m n precision (S i) vs taus
  = wy_body_fn n precision (Z.of_nat i) (wy_loop m n precision i vs taus).
Proof. reflexivity. Qed.

Lemma wy_loop_vtv (i : nat) :
  snd (wy_loop m n precision i vs taus) = wy_vtv m precision vs taus.
Proof.
  induction i as [|i IH]; [reflexivity|].
  rewrite wy_loop_succ. unfold wy_body_fn. cbn [snd]. exact IH.
Qed.

(** One iteration: column [i] becomes [T U[:, i]], the others stay. *)
Lemma wy_step (i : nat) r c :
  (i < n)%nat ->
  T (S i) r c
  = if Nat.eqb c i then Reduce n (fun l => T i r l * U l i) 0 else T i r c.
Proof.
  intros Hi. rewrite wy_loop_succ. unfold wy_body_fn. cbn [fst].
  unfold DynamicUpdateSliceInMinorDims, BatchDot, BatchDot4, Transposed,
    DynamicSliceInMinorDims.
  rewrite clamp_start_of_nat by assumption.
  rewrite wy_loop_vtv, Nat.add_0_r. reflexivity.
Qed.

Lemma wy_vtv_entry r c :
  U r c = - taus b c * ((if Nat.ltb r c then V r c else 0) + eye r c).
Proof.
  unfold wy_vtv, wy_tau_scale, Select, ZerosLike, TriangleMask, IdentityMatrix,
    BatchDot4, Transposed, Iota.
  destruct (Z.leb_spec (Z.of_nat c) (Z.of_nat r + 0));
    destruct (Nat.ltb_spec r c); try lia; lra.
Qed.

Lemma wy_initial r c : T 0 r c = eye r c.
Proof. reflexivity. Qed.

(** Columns not yet reached still hold the identity. *)
Lemma wy_unfilled (i : nat) r c :
  (i <= n)%nat -> (i <= c)%nat -> T i r c = eye r c.
Proof.
  induction i as [|i IH]; intros Hn Hc; [reflexivity|].
  rewrite wy_step by lia.
  destruct (Nat.eqb_spec c i); [lia|]. apply IH; lia.
Qed.

(** Columns already written are final. *)
Lemma wy_stable (i j : nat) r c :
  (c < i)%nat -> (i <= j)%nat -> (j <= n)%nat -> T j r c = T i r c.
Proof.
  intros Hc Hij. induction j as [|j IH]; intros Hn.
  - lia.
  - destruct (Nat.eq_dec i (S j)) as [->|Hne]; [reflexivity|].
    rewrite wy_step by lia.
    destruct (Nat.eqb_spec c j); [lia|]. apply IH; lia.
Qed.

(** The invariant of C7 on a loop prefix. *)
Lemma wy_upper_triangular (i : nat) r c :
  (i <= n)%nat -> (c < r)%nat -> T i r c = 0.
Proof.
  revert r c. induction i as [|i IH]; intros r c Hn Hrc.
  - rewrite wy_initial. destruct (Nat.eqb_spec r c); [lia | reflexivity].
  - rewrite wy_step by lia.
    destruct (Nat.eqb_spec c i) as [->|Hc]; [|apply IH; lia].
    apply Reduce_all_zero. intros l Hl. rewrite wy_vtv_entry.
    destruct (Nat.lt_ge_cases l r) as [Hlr|Hlr].
    + rewrite IH by lia. lra.
    + destruct (Nat.ltb_spec l i); [lia|].
      destruct (Nat.eqb_spec l i); [lia|]. simpl. lra.
Qed.

(** Column [i] as written by iteration [i]. *)
Lemma wy_column (i : nat) r :
  (i < n)%nat ->
  T (S i) r i
  = - taus b i * (eye r i + Reduce i (fun l => T i r l * V l i) 0).
Proof.
  intros Hi. rewrite wy_step by assumption. rewrite Nat.eqb_refl.
  assert (Hz : forall l, (i < l)%nat -> (l < n)%nat -> T i r l * U l i = 0).
  { intros l H1 H2. rewrite wy_vtv_entry.
    destruct (Nat.ltb_spec l i); [lia|].
    destruct (Nat.eqb_spec l i); [lia|]. simpl. lra. }
  rewrite (Reduce_split_at n i _ Hi Hz).
  rewrite (Reduce_ext i _ (fun l => - taus b i * (T i r l * V l i))).
  - rewrite Reduce_scal, wy_vtv_entry, Nat.ltb_irrefl, Nat.eqb_refl.
    rewrite wy_unfilled by lia. simpl. lra.
  - intros l Hl. rewrite wy_vtv_entry.
    destruct (Nat.ltb_spec l i); [|lia].
    destruct (Nat.eqb_spec l i); [lia|]. simpl. lra.
Qed.

(** [w l] is the product of the panel with the final column [l] of [T]. *)
Local Abbreviation w l r := (Reduce n (fun i => vs b r i * T (S l) i l%nat) 0).

Lemma wy_w_rec (j : nat) r :
  (j < n)%nat ->
  w j r = - taus b j * (vs b r j + Reduce j (fun l => w l r * V l j) 0).
Proof.
  intros Hj.
  rewrite (Reduce_ext n _ (fun i =>
     - taus b j * (vs b r i * eye i j
                   + Reduce j (fun l => vs b r i * T (S l) i l * V l j) 0))).
  - rewrite Reduce_scal, Reduce_plus. f_equal. f_equal.
    + now apply Reduce_delta.
    + rewrite Reduce_swap. apply Reduce_ext. intros l Hl.
      rewrite <- Reduce_scal_r. reflexivity.
  - intros i Hi. rewrite wy_column by assumption.
    assert (E : Reduce j (fun l => vs b r i * T (S l) i l * V l j) 0
                = vs b r i * Reduce j (fun l => T j i l * V l j) 0).
    { rewrite <- Reduce_scal. apply Reduce_ext. intros l Hl.
      rewrite (wy_stable (S l) j) by lia. ring. }
    rewrite E. ring.
Qed.

Local Abbreviation G j r c := (Reduce j (fun l => w l r * vs b c l) 0).
Local Abbreviation P j := (reflector_product m vs taus j b).

Lemma wy_product_invariant (j : nat) r c :
  (j <= n)%nat -> (r < m)%nat -> (c < m)%nat ->
  P j r c = eye r c + G j r c.
Proof.
  revert r c. induction j as [|j IH]; intros r c Hj Hr Hc.
  - simpl. unfold IdentityMatrix. lra.
  - cbn [reflector_product]. unfold BatchDot, BatchDot4, Transposed.
    rewrite (Reduce_ext m _ (fun l =>
        (eye r l * eye l c + G j r l * eye l c)
        + (- taus b j * vs b c j)
          * (eye r l * vs b l j
             + Reduce j (fun i => w i r * (vs b l i * vs b l j)) 0))).
    + rewrite Reduce_plus, Reduce_plus.
      rewrite (Reduce_scal m (- taus b j * vs b c j)), Reduce_plus.
      rewrite (Reduce_delta_l m r (fun l => eye l c)) by assumption.
      rewrite (Reduce_delta m c (fun l => G j r l)) by assumption.
      rewrite (Reduce_delta_l m r (fun l => vs b l j)) by assumption.
      assert (E : Reduce m (fun l =>
                    Reduce j (fun i => w i r * (vs b l i * vs b l j)) 0) 0
                  = Reduce j (fun i => w i r * V i j) 0).
      { rewrite Reduce_swap. apply Reduce_ext. intros i Hi.
        now rewrite Reduce_scal. }
      rewrite E. cbn [Reduce]. rewrite (wy_w_rec j r) by lia. lra.
    + intros l Hl. rewrite IH by (try assumption; lia).
      unfold reflector, IdentityMatrix.
      assert (E : Reduce j (fun i => w i r * (vs b l i * vs b l j)) 0
                  = G j r l * vs b l j).
      { rewrite <- Reduce_scal_r. apply Reduce_ext. intros. ring. }
      rewrite E. ring.
Qed.

Lemma wy_YTYt r c :
  Y_T_Yt n vs (CompactWY_T m n precision vs taus) b r c = G n r c.
Proof.
  unfold Y_T_Yt, CompactWY_T, BatchDot, BatchDot4, Transposed.
  apply Reduce_ext. intros l Hl. f_equal.
  apply Reduce_ext. intros i Hi.
  rewrite (wy_stable (S l) n) by lia. reflexivity.
Qed.

End WyLoop.

(** Evaluation of an emitted formula at a concrete input, down to an
    expression over the reals. *)
Ltac eval_graph :=
  cbv - [Rplus Rminus Rmult Ropp Rdiv Rinv IZR sqrt Req_dec_T Rlt_dec].

(** C7.  Upper-triangularity is an invariant of the Compact-WY loop: the
    initial [T] and the [T] after every column update have zeros strictly
    below the diagonal, and so has the returned [T]. *)
Theorem wy_upper_triangular_invariant {B : Type} (m n : nat)
    (precision : Precision) (vs : Matrices B) (taus : Vectors B)
    (i : nat) (b : B) (r c : nat) :
  (i <= n)%nat -> (c < r)%nat ->
  fst (wy_loop m n precision i vs taus) b r c = 0 /\
  CompactWY_T m n precision vs taus b r c = 0.
Proof.
  intros Hi Hrc. split.
  - now apply wy_upper_triangular.
  - unfold CompactWY_T. apply wy_upper_triangular; [lia | assumption].
Qed.

Lemma wy_upper_triangular_invariant_witness :
  (1 <= 2)%nat /\ (0 < 1)%nat /\
  fst (wy_loop 2 2 HIGHEST 1 y_2x2 tau_2x2) tt 1%nat 0%nat = 0.
Proof.
  split; [lia|]. split; [lia|].
  apply (wy_upper_triangular_invariant 2 2 HIGHEST y_2x2 tau_2x2 1 tt 1 0); lia.
Defined.

(** C2, as the code has it.  For every panel [(Y, tau)] of [n] reflectors
    the returned [T] satisfies [I + Y T Y^T = H_0 H_1 ... H_(n-1)], with
    [H_j = I - tau_j v_j v_j^T] the reflector of column [j]: the sign in
    front of [Y T Y^T] is plus, the diagonal of [T] being [-tau]. *)
Theorem CompactWY_product {B : Type} (m n : nat) (precision : Precision)
    (vs : Matrices B) (taus : Vectors B) (b : B) (r c : nat) :
  (r < m)%nat -> (c < m)%nat ->
  IdentityMatrix b r c
  + Y_T_Yt n vs (CompactWY_T m n precision vs taus) b r c
  = reflector_product m vs taus n b r c.
Proof.
  intros Hr Hc. rewrite wy_YTYt.
  rewrite (wy_product_invariant m n precision vs taus b n r c)
    by (try assumption; lia).
  reflexivity.
Qed.

Lemma CompactWY_product_witness :
  (0 < 2)%nat /\ (1 < 2)%nat /\
  IdentityMatrix tt 0%nat 1%nat
  + Y_T_Yt 2 y_2x2 (CompactWY_T 2 2 HIGHEST y_2x2 tau_2x2) tt
      0%nat 1%nat
  = reflector_product 2 y_2x2 tau_2x2 2 tt 0%nat 1%nat.
Proof.
  split; [lia|]. split; [lia|].
  apply (CompactWY_product 2 2 HIGHEST y_2x2 tau_2x2 tt 0 1); lia.
Defined.

(** C2 as stated fails already for one reflector with v = (1), tau = 2:
    [I - Y T Y^T] is 3 while [H_0] is -1. *)
Lemma CompactWY_minus_counterexample :
  IdentityMatrix tt 0%nat 0%nat
  - Y_T_Yt 1 y_1 (CompactWY_T 1 1 HIGHEST y_1 tau_2) tt 0%nat 0%nat
  <> reflector_product 1 y_1 tau_2 1 tt 0%nat 0%nat.
Proof. eval_graph. lra. Qed.

Section WyRecipes.

Context {B : Type}.
Variables m n : nat.
Variable precision : Precision.
Variable vs : Matrices B.
Variable taus : Vectors B.
Variable b : B.

Local Abbreviation T i := (fst (wy_loop m n precision i vs taus) b).

Lemma wy_vtv_as_stated r c :
  wy_vtv m precision vs taus b r c = spec_wy_U m vs taus b r c.
Proof. rewrite wy_vtv_entry. reflexivity. Qed.

Lemma wy_column_0 r :
  (0 < n)%nat ->
  CompactWY_T m n precision vs taus b r O
  = if Nat.eqb r 0 then - taus b O else 0.
Proof.
  intros Hn. unfold CompactWY_T.
  rewrite (wy_stable m n precision vs taus b 1 n) by lia.
  rewrite wy_column by assumption. simpl.
  destruct (Nat.eqb r 0); simpl; lra.
Qed.

(** The recipe of the source comment reaches the same columns one step
    later: after its steps [1 .. i] the columns up to [i] are final and the
    others still hold [- tau] on the diagonal. *)
Lemma compact_wy_loop_columns (i : nat) r c :
  (i < n)%nat ->
  compact_wy_loop m n vs taus i b r c
  = if Nat.leb c i then T (S c) r c
    else ConvertElementType (Nat.eqb r c) * - taus b c.
Proof.
  revert r c. induction i as [|i IH]; intros r c Hi.
  - cbn [compact_wy_loop].
    destruct (Nat.leb_spec c 0) as [Hc|Hc]; [|reflexivity].
    assert (c = O) by lia. subst c.
    rewrite wy_column by assumption. simpl.
    destruct (Nat.eqb r 0); simpl; lra.
  - cbn [compact_wy_loop]. cbv zeta.
    destruct (Nat.eqb_spec c (S i)) as [->|Hc].
    + rewrite Nat.leb_refl.
      rewrite (Reduce_split_at n (S i)).
      * rewrite wy_column by assumption.
        rewrite (Reduce_ext (S i) _
                   (fun l => - taus b (S i)
                             * (T (S i) r l
                                * Reduce m (fun l0 => vs b l0 l * vs b l0 (S i)) 0))).
        -- rewrite Reduce_scal. rewrite IH by lia.
           destruct (Nat.leb_spec (S i) i); [lia|].
           unfold compact_wy_vtv.
           rewrite Nat.ltb_irrefl, Nat.eqb_refl. unfold ConvertElementType.
           destruct (Nat.eqb r (S i)); lra.
        -- intros l Hl. rewrite IH by lia.
           destruct (Nat.leb_spec l i); [|lia].
           rewrite (wy_stable m n precision vs taus b (S l) (S i)) by lia.
           unfold compact_wy_vtv.
           destruct (Nat.ltb_spec l (S i)); [|lia].
           destruct (Nat.eqb_spec l (S i)); [lia|]. lra.
      * assumption.
      * intros l H1 H2. unfold compact_wy_vtv.
        destruct (Nat.ltb_spec l (S i)); [lia|].
        destruct (Nat.eqb_spec l (S i)); [lia|]. lra.
    + rewrite IH by lia.
      destruct (Nat.leb_spec c i); destruct (Nat.leb_spec c (S i));
        try lia; reflexivity.
Qed.

Lemma compact_wy_agrees r c :
  (c < n)%nat ->
  CompactWY_T m n precision vs taus b r c
  = compact_wy m n vs taus b r c.
Proof.
  intros Hc. unfold compact_wy, CompactWY_T.
  rewrite compact_wy_loop_columns by lia.
  destruct (Nat.leb_spec c (n - 1)); [|lia].
  apply wy_stable; lia.
Qed.

End WyRecipes.

(** C3, as the code has it.  With [U = -tau[None,:] (strict_upper_triangle
    (Y^T Y) + I)], [T] is initialized to the identity and, for each [j] in
    [0, n), column [j] of [T] is replaced by [T U[:, j]], the other columns
    being kept; the loop starts at [j = 0], whose iteration sets column 0 to
    [-tau_0 e_0], so that [T[0, 0] = -tau_0]; and the returned [T] is the
    one of the recipe in the source comment. *)
Theorem CompactWY_recipe {B : Type} (m n : nat) (precision : Precision)
    (vs : Matrices B) (taus : Vectors B) (b : B) :
  let T := fun i => fst (wy_loop m n precision i vs taus) b in
  let U := fun i => snd (wy_loop m n precision i vs taus) b in
  (forall i r c, U i r c = spec_wy_U m vs taus b r c) /\
  (forall r c, T O r c = if Nat.eqb r c then 1 else 0) /\
  (forall j r c, (j < n)%nat ->
     T (S j) r c
     = if Nat.eqb c j then Reduce n (fun l => T j r l * U j l j) 0
       else T j r c) /\
  (forall r, (0 < n)%nat ->
     T 1%nat r O = (if Nat.eqb r 0 then - taus b O else 0) /\
     CompactWY_T m n precision vs taus b r O = T 1%nat r O) /\
  (forall r c, (c < n)%nat ->
     CompactWY_T m n precision vs taus b r c
     = compact_wy m n vs taus b r c).
Proof.
  cbv zeta. split; [|split; [|split; [|split]]].
  - intros i r c. rewrite wy_loop_vtv. apply wy_vtv_as_stated.
  - intros r c. reflexivity.
  - intros j r c Hj. rewrite wy_step by assumption.
    rewrite wy_loop_vtv. reflexivity.
  - intros r Hn. split.
    + rewrite wy_column by assumption. simpl.
      destruct (Nat.eqb r 0); simpl; lra.
    + unfold CompactWY_T. apply wy_stable; lia.
  - intros r c Hc. now apply compact_wy_agrees.
Qed.

Lemma CompactWY_recipe_witness :
  (0 < 2)%nat /\
  CompactWY_T 2 2 HIGHEST y_2x2 tau_2x2 tt 0%nat 0%nat
  = fst (wy_loop 2 2 HIGHEST 1 y_2x2 tau_2x2) tt 0%nat 0%nat.
Proof.
  split; [lia|].
  pose proof (CompactWY_recipe 2 2 HIGHEST y_2x2 tau_2x2 tt) as H.
  cbv zeta in H. destruct H as (_ & _ & _ & H & _).
  destruct (H O ltac:(lia)) as [_ E]. exact E.
Defined.

(** C3 as stated fails: on the panel ((1, 0), (1/2, 1)) with
    tau = (8/5, 2) the stated recipe yields [T[1, 1] = 4], the builder
    [T[1, 1] = -2]; and the builder starts from the identity, not from
    [diag(-tau)]. *)
Lemma CompactWY_stated_recipe_counterexample :
  CompactWY_T 2 2 HIGHEST y_2x2 tau_2x2 tt 1%nat 1%nat
  <> spec_wy_recipe 2 2 y_2x2 tau_2x2 tt 1%nat 1%nat /\
  fst (wy_loop 2 2 HIGHEST 0 y_2x2 tau_2x2) tt 0%nat 0%nat
  <> spec_wy_loop 2 2 y_2x2 tau_2x2 0 tt 0%nat 0%nat.
Proof. split; eval_graph; lra. Qed.

(** ** The block driver and the expansion *)

(** The sample nodes are nodes the expander matches. *)
Lemma qr_custom_call_matches (dims : list nat) :
  QrExpander.InstructionMatchesPattern (qr_custom_call dims) = true.
Proof. reflexivity. Qed.

Lemma GetDimension_rows t bd r c :
  GetDimension (MakeShape t (bd ++ [r; c])) (-2) = r.
Proof.
  unfold GetDimension, rank. cbn [dimensions].
  change (-2 <? 0)%Z with true. cbv iota.
  rewrite length_app. cbn [length].
  replace (Z.to_nat (Z.of_nat (length bd + 2) + -2)) with (length bd + 0)%nat
    by lia.
  rewrite app_nth2_plus. reflexivity.
Qed.

Lemma GetDimension_cols t bd r c :
  GetDimension (MakeShape t (bd ++ [r; c])) (-1) = c.
Proof.
  unfold GetDimension, rank. cbn [dimensions].
  change (-1 <? 0)%Z with true. cbv iota.
  rewrite length_app. cbn [length].
  replace (Z.to_nat (Z.of_nat (length bd + 2) + -1)) with (length bd + 1)%nat
    by lia.
  rewrite app_nth2_plus. reflexivity.
Qed.

Section Driver.

Variable ShapeToString : Shape -> string.

Local Abbreviation QrBlock := (QrExpander.QrBlock ShapeToString).
Local Abbreviation block_loop := (QrExpander.block_loop ShapeToString).
Local Abbreviation BuildQrDecomposition :=
  (QrExpander.BuildQrDecomposition ShapeToString).
Local Abbreviation ExpandInstruction :=
  (QrExpander.ExpandInstruction ShapeToString).

Lemma rank_SliceInMinorDims (x : XlaOp) r0 c0 r1 c1 :
  (2 <= rank (op_shape x))%nat ->
  rank (op_shape (Op.SliceInMinorDims x r0 c0 r1 c1)) = rank (op_shape x).
Proof.
  intros H. unfold Op.SliceInMinorDims, Op.with_minor_dims, Op.batch_dims_of,
    rank in *. cbn [op_shape dimensions].
  rewrite length_app, length_firstn. cbn [length]. lia.
Qed.

(** The predicate over [iota_n] and the tau vector have the same
    dimensions exactly when the panel is not wider than high. *)
Lemma select_dims_agree (batch_dims : list nat) (m n : nat) :
  batch_dims ++ [n] = batch_dims ++ [Nat.min m n] <-> (n <= m)%nat.
Proof.
  split.
  - intros E. apply app_inv_head in E. injection E as E. lia.
  - intros H. f_equal. f_equal. lia.
Qed.

Lemma QrBlock_ok (x : XlaOp) (precision : Precision) :
  (2 <= rank (op_shape x))%nat ->
  (GetDimension (op_shape x) (-1) <= GetDimension (op_shape x) (-2))%nat ->
  exists taus_shape,
    QrBlock x precision
    = Ok (QrExpander.MakeQrResult
            (MakeOp (op_shape x)
               (fun env =>
                  fst (qr_loop (GetDimension (op_shape x) (-2))
                         (GetDimension (op_shape x) (-1)) precision
                         (op_value x env)))
               (op_dots x ++ [precision; precision]))
            (MakeVec taus_shape
               (fun env =>
                  snd (qr_loop (GetDimension (op_shape x) (-2))
                         (GetDimension (op_shape x) (-1)) precision
                         (op_value x env)))
               (op_dots x ++ [precision; precision]))).
Proof.
  intros H Htall. unfold QrExpander.QrBlock, QrExpander.SelectShapes.
  destruct (Nat.ltb_spec (rank (op_shape x)) 2); [lia|].
  destruct (decide _) as [_|Hne].
  - eexists. reflexivity.
  - exfalso. apply Hne. now apply select_dims_agree.
Qed.


Lemma QrBlock_success (x : XlaOp) (precision : Precision) result :
  QrBlock x precision = Ok result ->
  exists taus_shape,
    result
    = QrExpander.MakeQrResult
        (MakeOp (op_shape x)
           (fun env =>
              fst (qr_loop (GetDimension (op_shape x) (-2))
                     (GetDimension (op_shape x) (-1)) precision
                     (op_value x env)))
           (op_dots x ++ [precision; precision]))
        (MakeVec taus_shape
           (fun env =>
              snd (qr_loop (GetDimension (op_shape x) (-2))
                     (GetDimension (op_shape x) (-1)) precision
                     (op_value x env)))
           (op_dots x ++ [precision; precision])).
Proof.
  unfold QrExpander.QrBlock, QrExpander.SelectShapes.
  destruct (Nat.ltb_spec (rank (op_shape x)) 2); [discriminate|].
  destruct (decide _); [|discriminate].
  intros [= <-]. eexists. reflexivity.
Qed.

Lemma SliceInMinorDims_tall (x : XlaOp) (r0 c0 r1 c1 : nat) :
  (c1 - c0 <= r1 - r0)%nat ->
  (GetDimension (op_shape (Op.SliceInMinorDims x r0 c0 r1 c1)) (-1)
   <= GetDimension (op_shape (Op.SliceInMinorDims x r0 c0 r1 c1)) (-2))%nat.
Proof.
  intros H. cbn [Op.SliceInMinorDims op_shape]. unfold Op.with_minor_dims.
  now rewrite GetDimension_rows, GetDimension_cols.
Qed.

(** With a block size of at least 1 the fuel [p] suffices, and no step of
    the unrolled loop fails. *)
Lemma block_loop_ok type batch_dims m n p block_size precision :
  (1 <= block_size)%nat -> (p <= m)%nat ->
  forall fuel i a q,
    (2 <= rank (op_shape a))%nat -> (p <= fuel + i)%nat ->
    exists aq, block_loop type batch_dims m n p block_size precision fuel i a q
               = Ok aq.
Proof.
  intros Hbs Hpm. induction fuel as [|fuel IH]; intros i a q Ha Hf.
  - cbn [QrExpander.block_loop].
    destruct (Nat.ltb_spec i p); [lia|]. eexists. reflexivity.
  - cbn [QrExpander.block_loop].
    destruct (Nat.ltb_spec i p) as [Hi|Hi]; [|eexists; reflexivity].
    unfold QrExpander.block_step.
    destruct (QrBlock_ok
                (Op.SliceInMinorDims a i i m (i + Nat.min block_size (p - i)))
                precision) as [ts E].
    { rewrite rank_SliceInMinorDims; assumption. }
    { apply SliceInMinorDims_tall. lia. }
    rewrite E. cbn [assign_or_return QrExpander.CompactWYRepresentation].
    apply IH; [exact Ha | lia].
Qed.

Lemma driver_ok (a : XlaOp) (block_size : Z)
    (precision : Precision) :
  (2 <= rank (op_shape a))%nat -> (1 <= block_size)%Z ->
  exists qr, BuildQrDecomposition a block_size precision = Ok qr.
Proof.
  intros Ha Hb. unfold QrExpander.BuildQrDecomposition.
  destruct (Nat.ltb_spec (rank (op_shape a)) 2); [lia|].
  destruct (Z.ltb_spec block_size 1); [lia|].
  match goal with
  | |- context [QrExpander.block_loop _ ?t ?bd ?m ?n ?p ?bs ?pr ?f ?i ?x ?q] =>
      destruct (block_loop_ok t bd m n p bs pr ltac:(lia) ltac:(lia) f i x q
                  Ha ltac:(lia))
        as [aq E]
  end.
  rewrite E. eexists. reflexivity.
Qed.

Lemma driver_failure_inv (a : XlaOp) (block_size : Z)
    (precision : Precision) status :
  BuildQrDecomposition a block_size precision = Failure status ->
  ((rank (op_shape a) < 2)%nat \/ (block_size < 1)%Z) /\
  code status = INVALID_ARGUMENT.
Proof.
  intros E.
  destruct (Nat.lt_ge_cases (rank (op_shape a)) 2) as [Hr|Hr].
  - split; [now left|].
    unfold QrExpander.BuildQrDecomposition in E.
    destruct (Nat.ltb_spec (rank (op_shape a)) 2); [|lia].
    unfold InvalidArgument in E. now injection E as <-.
  - destruct (Z.lt_ge_cases block_size 1) as [Hb|Hb].
    + split; [now right|].
      unfold QrExpander.BuildQrDecomposition in E.
      destruct (Nat.ltb_spec (rank (op_shape a)) 2); [lia|].
      destruct (Z.ltb_spec block_size 1); [|lia].
      unfold InvalidArgument in E. now injection E as <-.
    + destruct (driver_ok a block_size precision Hr Hb) as [qr E'].
      congruence.
Qed.

Lemma driver_failure_intro (a : XlaOp) (block_size : Z)
    (precision : Precision) :
  (rank (op_shape a) < 2)%nat \/ (block_size < 1)%Z ->
  exists message,
    BuildQrDecomposition a block_size precision
    = Failure (MakeStatus INVALID_ARGUMENT message).
Proof.
  intros H. unfold QrExpander.BuildQrDecomposition.
  destruct (Nat.ltb_spec (rank (op_shape a)) 2); [eexists; reflexivity|].
  destruct (Z.ltb_spec block_size 1); [eexists; reflexivity | lia].
Qed.

End Driver.

Section Expansion.

Variable ShapeToString : Shape -> string.

Local Abbreviation BuildQrDecomposition :=
  (QrExpander.BuildQrDecomposition ShapeToString).
Local Abbreviation ExpandInstruction :=
  (QrExpander.ExpandInstruction ShapeToString).
Local Abbreviation cache := QrExpander.computation_cache_.
Local Abbreviation computations := QrExpander.computations.

Local Abbreviation key_of := (cache_key ShapeToString).

(** The three ways through [ExpandInstruction]: the key holds a
    computation; it holds none and the build succeeds; it holds none and
    the build fails. *)
Lemma ExpandInstruction_cached st instruction operand0 rest c :
  operands instruction = operand0 :: rest ->
  cache st !! key_of operand0 = Some (Some c) ->
  ExpandInstruction st instruction
  = (QrExpander.AddInstruction st (parent instruction) (call_of instruction c),
     Ok (call_of instruction c)).
Proof.
  intros Ho Hc. unfold QrExpander.ExpandInstruction, call_of. rewrite Ho.
  fold (key_of operand0). rewrite Hc. cbn [default from_option id].
  rewrite Hc. reflexivity.
Qed.

Lemma ExpandInstruction_built st instruction operand0 rest l :
  operands instruction = operand0 :: rest ->
  cache st !! key_of operand0 = None \/ cache st !! key_of operand0 = Some None ->
  BuildQrDecomposition (Parameter0 (shape operand0)) 128 HIGHEST = Ok l ->
  let c := length (computations st) in
  let clone :=
    MakeComputation (QrExpander.module_of st (parent instruction)) []
      (Some (MakeXlaComputation (key_of operand0) (shape operand0) l)) in
  ExpandInstruction st instruction
  = (QrExpander.AddInstruction
       (QrExpander.MakeState (<[key_of operand0 := Some c]> (cache st))
          (computations st ++ [clone]))
       (parent instruction) (call_of instruction c),
     Ok (call_of instruction c)).
Proof.
  intros Ho Hc Hb. cbv zeta.
  unfold QrExpander.ExpandInstruction, call_of. rewrite Ho.
  fold (key_of operand0).
  destruct Hc as [Hc|Hc]; rewrite Hc; cbn [QrExpander.computation_cache_].
  - rewrite lookup_insert_eq. cbn [default from_option id]. rewrite Hb.
    cbn [assign_or_return QrExpander.DeepCloneComputation
           QrExpander.computation_cache_ QrExpander.computations].
    rewrite insert_insert_eq. reflexivity.
  - rewrite Hc. cbn [default from_option id]. rewrite Hb.
    cbn [assign_or_return QrExpander.DeepCloneComputation
           QrExpander.computation_cache_ QrExpander.computations].
    reflexivity.
Qed.

Lemma ExpandInstruction_failed st instruction operand0 rest status :
  operands instruction = operand0 :: rest ->
  cache st !! key_of operand0 = None \/ cache st !! key_of operand0 = Some None ->
  BuildQrDecomposition (Parameter0 (shape operand0)) 128 HIGHEST
  = Failure status ->
  ExpandInstruction st instruction
  = (QrExpander.MakeState (<[key_of operand0 := None]> (cache st))
       (computations st),
     Failure status).
Proof.
  intros Ho Hc Hb. unfold QrExpander.ExpandInstruction. rewrite Ho.
  fold (key_of operand0).
  destruct Hc as [Hc|Hc]; rewrite Hc; cbn [QrExpander.computation_cache_].
  - rewrite lookup_insert_eq. cbn [default from_option id]. rewrite Hb.
    reflexivity.
  - rewrite Hc. cbn [default from_option id]. rewrite Hb.
    cbn [assign_or_return].
    rewrite (insert_id (cache st) _ _ Hc). destruct st. reflexivity.
Qed.

Lemma cache_entry_cases st k :
  (exists c, cache st !! k = Some (Some c)) \/
  (cache st !! k = None \/ cache st !! k = Some None).
Proof.
  destruct (cache st !! k) as [[c|]|]; [left; eauto | right; auto ..].
Qed.

Lemma length_AddInstruction st p i :
  length (computations (QrExpander.AddInstruction st p i))
  = length (computations st).
Proof.
  unfold QrExpander.AddInstruction. cbn [QrExpander.computations].
  apply length_alter.
Qed.

Lemma cache_AddInstruction st p i :
  cache (QrExpander.AddInstruction st p i) = cache st.
Proof. reflexivity. Qed.

(** A failed expansion changes no computation; a successful one calls a
    computation that exists and that the cache holds for the key. *)
Lemma ExpandInstruction_failure_inv st instruction st' status :
  ExpandInstruction st instruction = (st', Failure status) ->
  computations st' = computations st /\
  forall operand0 rest, operands instruction = operand0 :: rest ->
    BuildQrDecomposition (Parameter0 (shape operand0)) 128 HIGHEST
    = Failure status /\
    cache st' = <[key_of operand0 := None]> (cache st) /\
    (cache st !! key_of operand0 = None \/
     cache st !! key_of operand0 = Some None).
Proof.
  intros E.
  destruct (operands instruction) as [|operand0 rest] eqn:Ho.
  - unfold QrExpander.ExpandInstruction in E. rewrite Ho in E.
    injection E as <- _. split; [reflexivity|]. intros ? ? [=].
  - destruct (cache_entry_cases st (key_of operand0)) as [[c Hc]|Hc].
    + rewrite (ExpandInstruction_cached _ _ _ _ _ Ho Hc) in E. discriminate.
    + destruct (BuildQrDecomposition (Parameter0 (shape operand0)) 128 HIGHEST)
        as [l|status'] eqn:Hb.
      * pose proof (ExpandInstruction_built _ _ _ _ _ Ho Hc Hb) as E'.
        cbv zeta in E'. rewrite E' in E. discriminate.
      * rewrite (ExpandInstruction_failed _ _ _ _ _ Ho Hc Hb) in E.
        injection E as <- <-. split; [reflexivity|].
        intros o r [= <- <-]. auto.
Qed.

Lemma ExpandInstruction_success_inv st instruction st' call :
  ExpandInstruction st instruction = (st', Ok call) ->
  exists operand0 rest c,
    operands instruction = operand0 :: rest /\
    call = call_of instruction c /\
    cache st' !! key_of operand0 = Some (Some c) /\
    (cache st !! key_of operand0 = Some (Some c) /\
       st' = QrExpander.AddInstruction st (parent instruction) call
     \/
     (cache st !! key_of operand0 = None \/
      cache st !! key_of operand0 = Some None) /\
     c = length (computations st) /\
     exists l,
       BuildQrDecomposition (Parameter0 (shape operand0)) 128 HIGHEST = Ok l /\
       st' = QrExpander.AddInstruction
               (QrExpander.MakeState
                  (<[key_of operand0 := Some c]> (cache st))
                  (computations st
                   ++ [MakeComputation
                         (QrExpander.module_of st (parent instruction)) []
                         (Some (MakeXlaComputation (key_of operand0)
                                  (shape operand0) l))]))
               (parent instruction) call).
Proof.
  intros E.
  destruct (operands instruction) as [|operand0 rest] eqn:Ho.
  - unfold QrExpander.ExpandInstruction in E. rewrite Ho in E. discriminate.
  - exists operand0, rest.
    destruct (cache_entry_cases st (key_of operand0)) as [[c Hc]|Hc].
    + rewrite (ExpandInstruction_cached _ _ _ _ _ Ho Hc) in E.
      injection E as <- <-. exists c.
      split; [reflexivity|]. split; [reflexivity|].
      split; [exact Hc|]. left. auto.
    + destruct (BuildQrDecomposition (Parameter0 (shape operand0)) 128 HIGHEST)
        as [l|status'] eqn:Hb.
      * pose proof (ExpandInstruction_built _ _ _ _ _ Ho Hc Hb) as E'.
        cbv zeta in E'. rewrite E' in E. injection E as <- <-.
        exists (length (computations st)).
        split; [reflexivity|]. split; [reflexivity|].
        split; [apply lookup_insert_eq|].
        right. split; [exact Hc|]. split; [reflexivity|].
        exists l. auto.
      * rewrite (ExpandInstruction_failed _ _ _ _ _ Ho Hc Hb) in E.
        discriminate.
Qed.

(** A computation recorded for a key stays recorded through any later
    expansion. *)
Lemma cache_entry_persists st instruction st' result k c :
  ExpandInstruction st instruction = (st', result) ->
  cache st !! k = Some (Some c) -> cache st' !! k = Some (Some c).
Proof.
  intros E Hk. destruct result as [call|status].
  - destruct (ExpandInstruction_success_inv _ _ _ _ E)
      as (o & r & c' & Ho & _ & _ & [[_ ->]|(Hc & _ & l & _ & ->)]).
    + exact Hk.
    + rewrite cache_AddInstruction. cbn [QrExpander.computation_cache_].
      rewrite lookup_insert_ne; [exact Hk|].
      intros <-. destruct Hc; congruence.
  - destruct (ExpandInstruction_failure_inv _ _ _ _ E) as [_ H].
    destruct (operands instruction) as [|o r] eqn:Ho.
    + unfold QrExpander.ExpandInstruction in E. rewrite Ho in E.
      injection E as <- _. exact Hk.
    + destruct (H o r eq_refl) as (_ & -> & Hc).
      rewrite lookup_insert_ne; [exact Hk|].
      intros <-. destruct Hc; congruence.
Qed.

End Expansion.

Section Runs.

Variable ShapeToString : Shape -> string.

Local Abbreviation BuildQrDecomposition :=
  (QrExpander.BuildQrDecomposition ShapeToString).
Local Abbreviation ExpandInstruction :=
  (QrExpander.ExpandInstruction ShapeToString).
Local Abbreviation expand_all := (QrExpander.expand_all ShapeToString).
Local Abbreviation cache := QrExpander.computation_cache_.
Local Abbreviation computations := QrExpander.computations.
Local Abbreviation key_of := (cache_key ShapeToString).

Lemma emitted_AddInstruction st p i c :
  emitted <$> (computations (QrExpander.AddInstruction st p i) !! c)
  = emitted <$> (computations st !! c).
Proof.
  unfold QrExpander.AddInstruction. cbn [QrExpander.computations].
  destruct (decide (c = p)) as [->|Hne].
  - rewrite list_lookup_alter_eq.
    destruct (computations st !! p); reflexivity.
  - rewrite list_lookup_alter_ne by congruence. reflexivity.
Qed.

Lemma cache_built_step st instruction st' result :
  cache_built ShapeToString st ->
  ExpandInstruction st instruction = (st', result) ->
  cache_built ShapeToString st'.
Proof.
  intros Inv E k c Hk. destruct result as [call|status].
  - destruct (ExpandInstruction_success_inv _ _ _ _ _ E)
      as (o & r & c' & Ho & _ & _ & [[_ ->]|(Hc & -> & l & Hb & ->)]).
    + rewrite cache_AddInstruction in Hk.
      destruct (Inv k c Hk) as (s & g & Ek & Eg & Ee).
      exists s, g. rewrite emitted_AddInstruction. auto.
    + rewrite cache_AddInstruction in Hk. cbn [QrExpander.computation_cache_] in Hk.
      rewrite emitted_AddInstruction. cbn [QrExpander.computations].
      destruct (decide (k = key_of o)) as [->|Hne].
      * rewrite lookup_insert_eq in Hk. injection Hk as <-.
        exists (shape o), l. split; [reflexivity|]. split; [exact Hb|].
        rewrite lookup_app_r by lia. rewrite Nat.sub_diag. reflexivity.
      * rewrite lookup_insert_ne in Hk by congruence.
        destruct (Inv k c Hk) as (s & g & Ek & Eg & Ee).
        exists s, g. split; [exact Ek|]. split; [exact Eg|].
        destruct (computations st !! c) as [comp|] eqn:Hl; [|discriminate].
        rewrite (lookup_app_l_Some _ _ _ _ Hl). exact Ee.
  - destruct (ExpandInstruction_failure_inv _ _ _ _ _ E) as [Hcomp H].
    destruct (operands instruction) as [|o r] eqn:Ho.
    + unfold QrExpander.ExpandInstruction in E. rewrite Ho in E.
      injection E as <- _. now apply Inv.
    + destruct (H o r eq_refl) as (_ & Hcache & _).
      rewrite Hcache in Hk. rewrite Hcomp.
      destruct (decide (k = key_of o)) as [->|Hne].
      * rewrite lookup_insert_eq in Hk. discriminate.
      * rewrite lookup_insert_ne in Hk by congruence. now apply Inv.
Qed.

Lemma expand_all_cons st instruction rest :
  expand_all st (instruction :: rest)
  = (fst (expand_all (fst (ExpandInstruction st instruction)) rest),
     snd (ExpandInstruction st instruction)
     :: snd (expand_all (fst (ExpandInstruction st instruction)) rest)).
Proof.
  cbn [QrExpander.expand_all].
  destruct (ExpandInstruction st instruction) as [st0 r0].
  cbn [fst snd].
  destruct (QrExpander.expand_all ShapeToString st0 rest). reflexivity.
Qed.

Lemma expand_all_persists l : forall st k c,
  cache st !! k = Some (Some c) ->
  cache (fst (expand_all st l)) !! k = Some (Some c).
Proof.
  induction l as [|i l IH]; intros st k c Hk; [exact Hk|].
  rewrite expand_all_cons. cbn [fst]. apply IH.
  eapply cache_entry_persists; [|exact Hk].
  apply surjective_pairing.
Qed.

Lemma expand_all_cache_built l : forall st,
  cache_built ShapeToString st ->
  cache_built ShapeToString (fst (expand_all st l)).
Proof.
  induction l as [|i l IH]; intros st Inv; [exact Inv|].
  rewrite expand_all_cons. cbn [fst]. apply IH.
  eapply cache_built_step; [exact Inv|]. apply surjective_pairing.
Qed.

(** A node expanded with success anywhere in a run leaves its computation
    in the cache at the end of the run. *)
Lemma expand_all_success l : forall st x ix ox rx cx,
  l !! x = Some ix ->
  snd (expand_all st l) !! x = Some (Ok cx) ->
  operands ix = ox :: rx ->
  exists c, cx = call_of ix c /\
            cache (fst (expand_all st l)) !! key_of ox = Some (Some c).
Proof.
  induction l as [|i l IH]; intros st x ix ox rx cx Hx Hr Ho; [discriminate|].
  rewrite expand_all_cons in *. cbn [fst snd] in *.
  destruct x as [|x].
  - cbn in Hx, Hr. injection Hx as ->.
    destruct (ExpandInstruction st ix) as [st0 r0] eqn:E.
    cbn [fst snd] in *. injection Hr as ->.
    destruct (ExpandInstruction_success_inv _ _ _ _ _ E)
      as (o & r & c & Ho' & -> & Hc & _).
    rewrite Ho in Ho'. injection Ho' as <- <-.
    exists c. split; [reflexivity|]. now apply expand_all_persists.
  - cbn in Hx, Hr. eapply IH; eassumption.
Qed.

End Runs.

(** ** The precision of the emitted dots *)

Section Dots.

Variable ShapeToString : Shape -> string.
Variable type : PrimitiveType.
Variable batch_dims : list nat.
Variables m n p block_size : nat.
Variable precision : Precision.

Local Abbreviation block_step :=
  (QrExpander.block_step ShapeToString type batch_dims m n p block_size
     precision).
Local Abbreviation block_loop :=
  (QrExpander.block_loop ShapeToString type batch_dims m n p block_size
     precision).
Local Abbreviation all_dots x := (Forall (eq precision) (op_dots x)).

(** Every dot that a block emits carries the precision of the driver, and
    the new [q] is computed with one such dot at least. *)
Lemma block_step_dots i a q a' q' :
  block_step i a q = Ok (a', q') ->
  all_dots a -> all_dots q ->
  all_dots a' /\ all_dots q' /\ In precision (op_dots q').
Proof.
  intros E Ha Hq. unfold QrExpander.block_step in E.
  destruct (QrExpander.QrBlock ShapeToString
              (Op.SliceInMinorDims a i i m (i + Nat.min block_size (p - i)))
              precision) as [qr_block|] eqn:Eq; [|discriminate].
  destruct (QrBlock_success ShapeToString _ _ _ Eq) as [ts ->].
  cbn [assign_or_return QrExpander.CompactWYRepresentation QrExpander.a
         QrExpander.taus] in E.
  injection E as <- <-.
  cbn [op_dots vec_dots Op.UpdateSliceInMinorDims Op.SliceInMinorDims Op.Add
         Op.BatchDot Op.StrictLowerTriangle Op.IdentityMatrix].
  split; [|split].
  - repeat first [assumption | apply Forall_nil_2
                 | apply Forall_cons_2; [reflexivity|] | apply Forall_app_2].
  - repeat first [assumption | apply Forall_nil_2
                 | apply Forall_cons_2; [reflexivity|] | apply Forall_app_2].
  - rewrite ?in_app_iff. cbn [In]. auto 20.
Qed.

Lemma block_loop_dots fuel : forall i a q a' q',
  block_loop fuel i a q = Ok (a', q') ->
  all_dots a -> all_dots q ->
  all_dots a' /\ all_dots q' /\
  (In precision (op_dots q) \/ (i < p)%nat -> In precision (op_dots q')).
Proof.
  induction fuel as [|fuel IH]; intros i a q a' q' E Ha Hq;
    cbn [QrExpander.block_loop] in E;
    destruct (Nat.ltb_spec i p) as [Hi|Hi];
    try discriminate;
    try (injection E as <- <-; repeat split; try assumption;
         intros [H|H]; [exact H | lia]).
  destruct (block_step i a q) as [[a1 q1]|status] eqn:Es; [|discriminate].
  cbn [assign_or_return fst snd] in E.
  destruct (block_step_dots i a q a1 q1 Es Ha Hq) as (Ha1 & Hq1 & Hin1).
  destruct (IH _ _ _ _ _ E Ha1 Hq1) as (Ha' & Hq' & Hin').
  split; [exact Ha'|]. split; [exact Hq'|]. intros _. apply Hin'. now left.
Qed.

End Dots.

Section DriverDots.

Variable ShapeToString : Shape -> string.

(** The dots of the two results of the block driver carry the precision
    the driver was called with, and [Q] is computed with one such dot at
    least when the matrix has a row and a column. *)
Lemma driver_dots (a : XlaOp) (block_size : Z) (precision : Precision)
    (q r : XlaOp) :
  QrExpander.BuildQrDecomposition ShapeToString a block_size precision
  = Ok (q, r) ->
  Forall (eq precision) (op_dots a) ->
  Forall (eq precision) (op_dots q) /\
  Forall (eq precision) (op_dots r) /\
  ((0 < Nat.min (GetDimension (op_shape a) (-2))
           (GetDimension (op_shape a) (-1)))%nat ->
   In precision (op_dots q)).
Proof.
  intros E Ha. unfold QrExpander.BuildQrDecomposition in E.
  destruct (Nat.ltb_spec (rank (op_shape a)) 2) as [|Hr]; [discriminate|].
  destruct (Z.ltb_spec block_size 1) as [|Hb]; [discriminate|].
  match type of E with
  | assign_or_return ?loop _ = _ => destruct loop as [[a_f q_f]|] eqn:El
  end; [|discriminate].
  cbn [assign_or_return fst snd] in E. injection E as <- <-.
  destruct (block_loop_dots ShapeToString _ _ _ _ _ _ _ _ _ _ _ _ _ El Ha)
    as (Ha' & Hq' & Hin).
  { apply Forall_nil_2. }
  split; [exact Hq'|]. split; [exact Ha'|].
  intros Hp. apply Hin. now right.
Qed.

End DriverDots.

(** C8.  The block driver fails exactly when the input shape has rank less
    than 2 or the block size is less than 1, and then with an
    invalid-argument status; a failure of the driver is the result of the
    expansion, which then leaves every computation of the host module as it
    was: no call instruction is added. *)
Theorem BuildQrDecomposition_failure (ShapeToString : Shape -> string)
    (a : XlaOp) (block_size : Z) (precision : Precision) :
  let driver := QrExpander.BuildQrDecomposition ShapeToString in
  ((exists status, driver a block_size precision = Failure status) <->
   (rank (op_shape a) < 2)%nat \/ (block_size < 1)%Z) /\
  (forall status, driver a block_size precision = Failure status ->
     code status = INVALID_ARGUMENT) /\
  (forall st instruction operand0 rest st' status,
     operands instruction = operand0 :: rest ->
     QrExpander.ExpandInstruction ShapeToString st instruction
     = (st', Failure status) ->
     driver (Parameter0 (shape operand0)) 128%Z HIGHEST = Failure status /\
     (rank (shape operand0) < 2)%nat /\
     code status = INVALID_ARGUMENT /\
     QrExpander.computations st' = QrExpander.computations st) /\
  (forall st instruction operand0 rest,
     operands instruction = operand0 :: rest ->
     (rank (shape operand0) < 2)%nat ->
     QrExpander.computation_cache_ st !! cache_key ShapeToString operand0
       = None ->
     exists st' status,
       QrExpander.ExpandInstruction ShapeToString st instruction
       = (st', Failure status) /\ code status = INVALID_ARGUMENT).
Proof.
  cbv zeta. split; [|split; [|split]].
  - split.
    + intros [status E].
      now destruct (driver_failure_inv _ _ _ _ _ E).
    + intros H.
      destruct (driver_failure_intro ShapeToString a block_size
                  precision H) as [message E].
      eauto.
  - intros status E.
    now destruct (driver_failure_inv _ _ _ _ _ E).
  - intros st instruction operand0 rest st' status Ho E.
    destruct (ExpandInstruction_failure_inv _ _ _ _ _ E) as [Hcomp H].
    destruct (H operand0 rest Ho) as (Hb & _ & _).
    destruct (driver_failure_inv _ _ _ _ _ Hb) as [[Hr|Hz] Hcode];
      [|lia].
    auto.
  - intros st instruction operand0 rest Ho Hr Hc.
    destruct (driver_failure_intro ShapeToString
                (Parameter0 (shape operand0)) 128 HIGHEST (or_introl Hr))
      as [message Hb].
    eexists _, _. split.
    + eapply ExpandInstruction_failed; eauto.
    + reflexivity.
Qed.

Lemma BuildQrDecomposition_failure_witness :
  (rank (MakeShape F32 [3%nat]) < 2)%nat /\
  exists st' status,
    QrExpander.ExpandInstruction render_shape fresh_state
      (qr_custom_call [3%nat])
    = (st', Failure status) /\ code status = INVALID_ARGUMENT.
Proof.
  split; [cbn; lia|].
  destruct (BuildQrDecomposition_failure render_shape
              (Parameter0 (MakeShape F32 [3%nat])) 128 HIGHEST)
    as (_ & _ & _ & H).
  apply (H fresh_state (qr_custom_call [3%nat]) (qr_operand [3%nat]) []
           eq_refl).
  - cbn. lia.
  - reflexivity.
Defined.



(** The precision is visible in what the driver builds: on a 2 x 2 matrix
    the default precision gives another graph than the highest. *)
Example driver_precision_observable :
  QrExpander.BuildQrDecomposition render_shape
    (Parameter0 (MakeShape F32 [2; 2]%nat)) 128 DEFAULT
  <> QrExpander.BuildQrDecomposition render_shape
       (Parameter0 (MakeShape F32 [2; 2]%nat)) 128 HIGHEST.
Proof.
  intros E.
  destruct (driver_ok render_shape
              (Parameter0 (MakeShape F32 [2; 2]%nat)) 128 HIGHEST
              ltac:(cbn; lia) ltac:(lia)) as [[q r] Eh].
  rewrite Eh in E.
  destruct (driver_dots render_shape _ _ _ q r Eh (Forall_nil_2 _))
    as (Hq & _ & _).
  destruct (driver_dots render_shape _ _ _ q r E (Forall_nil_2 _))
    as (_ & _ & Hin).
  rewrite List.Forall_forall in Hq.
  specialize (Hq DEFAULT (Hin ltac:(vm_compute; lia))). discriminate.
Qed.

(** C10.  When the build fails inside [ExpandInstruction], the cache keeps
    the null entry for the key and no computation is added; a later
    expansion of a node whose operand shape renders to the same string runs
    the block driver again: it fails again when the driver fails, builds and
    records the computation when the driver succeeds, and in no case returns
    a call to a null computation. *)
Theorem ExpandInstruction_failed_build_retried
    (ShapeToString : Shape -> string)
    (st : QrExpander.State) (instruction operand0 : HloInstruction)
    (rest : list HloInstruction) (status : Status) :
  let driver := QrExpander.BuildQrDecomposition ShapeToString in
  let key := cache_key ShapeToString operand0 in
  operands instruction = operand0 :: rest ->
  (QrExpander.computation_cache_ st !! key = None \/
   QrExpander.computation_cache_ st !! key = Some None) ->
  driver (Parameter0 (shape operand0)) 128%Z HIGHEST = Failure status ->
  exists st',
    QrExpander.ExpandInstruction ShapeToString st instruction
    = (st', Failure status) /\
    QrExpander.computation_cache_ st' !! key = Some None /\
    QrExpander.computations st' = QrExpander.computations st /\
    forall later operand_later rest_later,
      operands later = operand_later :: rest_later ->
      ShapeToString (shape operand_later) = ShapeToString (shape operand0) ->
      (forall status',
         driver (Parameter0 (shape operand_later)) 128%Z HIGHEST
         = Failure status' ->
         QrExpander.ExpandInstruction ShapeToString st' later
         = (st', Failure status')) /\
      (forall g,
         driver (Parameter0 (shape operand_later)) 128%Z HIGHEST = Ok g ->
         let c := length (QrExpander.computations st') in
         exists st'',
           QrExpander.ExpandInstruction ShapeToString st' later
           = (st'', Ok (call_of later c)) /\
           QrExpander.computation_cache_ st'' !! key = Some (Some c) /\
           emitted <$> (QrExpander.computations st'' !! c)
           = Some (Some (MakeXlaComputation key (shape operand_later) g))) /\
      (forall st'' call,
         QrExpander.ExpandInstruction ShapeToString st' later
         = (st'', Ok call) ->
         to_apply call <> None).
Proof.
  cbv zeta. intros Ho Hc Hb.
  eexists. split; [eapply ExpandInstruction_failed; eassumption|].
  cbn [QrExpander.computation_cache_ QrExpander.computations].
  split; [apply lookup_insert_eq|]. split; [reflexivity|].
  intros later operand_later rest_later Hol Hs.
  assert (Hk : cache_key ShapeToString operand_later
               = cache_key ShapeToString operand0).
  { unfold cache_key. now rewrite Hs. }
  set (st' := QrExpander.MakeState
                (<[cache_key ShapeToString operand0 := None]>
                   (QrExpander.computation_cache_ st))
                (QrExpander.computations st)).
  assert (Hc' : QrExpander.computation_cache_ st'
                  !! cache_key ShapeToString operand_later = Some None).
  { rewrite Hk. apply lookup_insert_eq. }
  split; [|split].
  - intros status' Hb'.
    rewrite (ExpandInstruction_failed ShapeToString st' later operand_later
               rest_later status' Hol (or_intror Hc') Hb').
    rewrite (insert_id _ _ _ Hc'). reflexivity.
  - intros g Hg.
    pose proof (ExpandInstruction_built ShapeToString st' later operand_later
                  rest_later g Hol (or_intror Hc') Hg) as E.
    cbv zeta in E. eexists. split; [exact E|].
    rewrite cache_AddInstruction, emitted_AddInstruction.
    cbn [QrExpander.computation_cache_ QrExpander.computations].
    rewrite <- Hk. split; [apply lookup_insert_eq|].
    rewrite lookup_app_r by (subst st'; cbn; lia).
    subst st'. cbn [QrExpander.computations]. rewrite Nat.sub_diag.
    reflexivity.
  - intros st'' call E.
    destruct (ExpandInstruction_success_inv _ _ _ _ _ E)
      as (o & r & c & _ & -> & _).
    discriminate.
Qed.

Lemma ExpandInstruction_failed_build_retried_witness :
  operands (qr_custom_call [3%nat]) = [qr_operand [3%nat]] /\
  exists st',
    QrExpander.ExpandInstruction render_shape fresh_state
      (qr_custom_call [3%nat])
    = (st', Failure
              (MakeStatus INVALID_ARGUMENT
                 ("Arguments to QR must have rank >= 2: got shape "
                  +:+ render_shape (MakeShape F32 [3%nat])))) /\
    QrExpander.computation_cache_ st'
      !! cache_key render_shape (qr_operand [3%nat])
    = Some None.
Proof.
  split; [reflexivity|].
  destruct (ExpandInstruction_failed_build_retried render_shape fresh_state
              (qr_custom_call [3%nat]) (qr_operand [3%nat]) [] _ eq_refl
              (or_introl eq_refl) eq_refl)
    as (st' & E & Hc & _).
  exists st'. split; [exact E | exact Hc].
Defined.

(** ** The diagonal of R through the blocks *)

Lemma UpdateSlice_outside (x u : XlaOp) r0 c0 env b r c :
  (r < r0)%nat \/ (c < c0)%nat ->
  op_value (Op.UpdateSliceInMinorDims x u r0 c0) env b r c
  = op_value x env b r c.
Proof.
  intros H. cbn [Op.UpdateSliceInMinorDims op_value].
  destruct (Nat.leb_spec r0 r); destruct (Nat.leb_spec c0 c);
    cbn [andb]; try reflexivity; try lia.
  - destruct (r <? r0 + Op.rows u)%nat; reflexivity.
Qed.

Lemma UpdateSlice_inside (x u : XlaOp) r0 c0 env b r c :
  (r0 <= r)%nat -> (r < r0 + Op.rows u)%nat ->
  (c0 <= c)%nat -> (c < c0 + Op.cols u)%nat ->
  op_value (Op.UpdateSliceInMinorDims x u r0 c0) env b r c
  = op_value u env b (r - r0)%nat (c - c0)%nat.
Proof.
  intros H1 H2 H3 H4. cbn [Op.UpdateSliceInMinorDims op_value].
  destruct (Nat.leb_spec r0 r); [|lia].
  destruct (Nat.ltb_spec r (r0 + Op.rows u)); [|lia].
  destruct (Nat.leb_spec c0 c); [|lia].
  destruct (Nat.ltb_spec c (c0 + Op.cols u)); [|lia].
  reflexivity.
Qed.

Section DriverValues.

Variable ShapeToString : Shape -> string.
Variable type : PrimitiveType.
Variable batch_dims : list nat.
Variables m n p block_size : nat.
Variable precision : Precision.

Local Abbreviation block_step :=
  (QrExpander.block_step ShapeToString type batch_dims m n p block_size
     precision).
Local Abbreviation block_loop :=
  (QrExpander.block_loop ShapeToString type batch_dims m n p block_size
     precision).
Local Abbreviation block_holding :=
  (QrExpander.block_holding ShapeToString type batch_dims m n p block_size
     precision).

(** A block rewrites [a] only at rows and columns from its start on, and
    leaves in its own columns the packed panel. *)
Lemma block_step_inv i a q a' q' :
  (2 <= rank (op_shape a))%nat ->
  block_step i a q = Ok (a', q') ->
  let k := Nat.min block_size (p - i) in
  op_shape a' = op_shape a /\
  forall env b r c,
    ((c < i)%nat -> op_value a' env b r c = op_value a env b r c) /\
    ((i <= r)%nat -> (r < m)%nat -> (i <= c)%nat -> (c < i + k)%nat ->
     op_value a' env b r c
     = fst (qr_loop (m - i) k precision
              (op_value (Op.SliceInMinorDims a i i m (i + k)) env))
         b (r - i)%nat (c - i)%nat).
Proof.
  intros Ha E. cbv zeta. unfold QrExpander.block_step in E.
  destruct (QrExpander.QrBlock ShapeToString
              (Op.SliceInMinorDims a i i m (i + Nat.min block_size (p - i)))
              precision) as [qr_block|] eqn:Eq; [|discriminate].
  destruct (QrBlock_success ShapeToString _ _ _ Eq) as [ts ->].
  cbn [assign_or_return QrExpander.CompactWYRepresentation QrExpander.a
         QrExpander.taus] in E.
  injection E as <- <-. split; [reflexivity|].
  intros env b r c. split.
  - intros Hc. rewrite !UpdateSlice_outside by lia. reflexivity.
  - intros H1 H2 H3 H4. rewrite UpdateSlice_outside by lia.
    rewrite UpdateSlice_inside.
    + cbn [op_value op_shape Op.SliceInMinorDims].
      unfold Op.with_minor_dims.
      rewrite GetDimension_rows, GetDimension_cols.
      replace (i + Nat.min block_size (p - i) - i)%nat
        with (Nat.min block_size (p - i)) by lia.
      reflexivity.
    + assumption.
    + unfold Op.rows.
      cbn [op_shape Op.SliceInMinorDims]. unfold Op.with_minor_dims.
      rewrite GetDimension_rows. lia.
    + assumption.
    + unfold Op.cols.
      cbn [op_shape Op.SliceInMinorDims]. unfold Op.with_minor_dims.
      rewrite GetDimension_cols. lia.
Qed.

(** The columns before the current block are final. *)
Lemma block_loop_frame fuel : forall i a q a' q',
  (2 <= rank (op_shape a))%nat ->
  block_loop fuel i a q = Ok (a', q') ->
  forall env b r c, (c < i)%nat ->
    op_value a' env b r c = op_value a env b r c.
Proof.
  induction fuel as [|fuel IH]; intros i a q a' q' Ha E env b r c Hc;
    cbn [QrExpander.block_loop] in E;
    destruct (Nat.ltb_spec i p) as [Hi|Hi];
    try discriminate; try (injection E as <- <-; reflexivity).
  destruct (block_step i a q) as [[a1 q1]|status] eqn:Es; [|discriminate].
  cbn [assign_or_return fst snd] in E.
  destruct (block_step_inv i a q a1 q1 Ha Es) as [Hs Hv].
  rewrite (IH _ _ _ _ _ ltac:(rewrite Hs; exact Ha) E env b r c ltac:(lia)).
  apply Hv. exact Hc.
Qed.

(** The diagonal entry [(j, j)] of the final [a] is the packed diagonal
    entry of the panel of the block that holds column [j]. *)
Lemma block_loop_diagonal fuel : forall i a q a' q' j,
  (1 <= block_size)%nat -> (p <= m)%nat ->
  (2 <= rank (op_shape a))%nat ->
  block_loop fuel i a q = Ok (a', q') ->
  (i <= j)%nat -> (j < p)%nat ->
  exists i0 a0,
    block_holding fuel i a q j = Some (i0, a0) /\
    (i0 <= j)%nat /\ (j < i0 + Nat.min block_size (p - i0))%nat /\
    forall env b,
      op_value a' env b j j
      = fst (qr_loop (m - i0) (Nat.min block_size (p - i0)) precision
               (op_value
                  (Op.SliceInMinorDims a0 i0 i0 m
                     (i0 + Nat.min block_size (p - i0))) env))
          b (j - i0)%nat (j - i0)%nat.
Proof.
  induction fuel as [|fuel IH]; intros i a q a' q' j Hbs Hpm Ha E Hij Hjp;
    cbn [QrExpander.block_loop QrExpander.block_holding] in *;
    destruct (Nat.ltb_spec i p) as [Hi|Hi]; try lia; try discriminate.
  destruct (block_step i a q) as [[a1 q1]|status] eqn:Es; [|discriminate].
  cbn [assign_or_return fst snd] in E.
  destruct (block_step_inv i a q a1 q1 Ha Es) as [Hs Hv].
  assert (Ha1 : (2 <= rank (op_shape a1))%nat) by (rewrite Hs; exact Ha).
  destruct (Nat.ltb_spec j (i + Nat.min block_size (p - i))) as [Hj|Hj].
  - exists i, a. split; [reflexivity|]. split; [exact Hij|].
    split; [exact Hj|]. intros env b.
    rewrite (block_loop_frame _ _ _ _ _ _ Ha1 E env b j j ltac:(lia)).
    apply Hv; lia.
  - apply (IH _ _ _ _ _ j Hbs Hpm Ha1 E); lia.
Qed.

End DriverValues.

Section DriverDiagonal.

Variable ShapeToString : Shape -> string.

Local Abbreviation BuildQrDecomposition :=
  (QrExpander.BuildQrDecomposition ShapeToString).

Lemma UpperTriangle_diagonal (x : XlaOp) env b j :
  op_value (Op.UpperTriangle x) env b j j = op_value x env b j j.
Proof.
  cbn [Op.UpperTriangle op_value]. unfold Select, TriangleMask, Iota.
  destruct (Z.leb_spec (Z.of_nat j) (Z.of_nat j + -1)); [lia | reflexivity].
Qed.

(** The entry [R[j, j]] of a successful run of the driver is the packed
    diagonal entry that the panel factorizer leaves at pivot [j] of the
    block that holds column [j]. *)
Lemma driver_diagonal_entry (a : XlaOp) (block_size : Z)
    (precision : Precision) (q r : XlaOp) (j : nat) :
  let m := GetDimension (op_shape a) (-2) in
  let n := GetDimension (op_shape a) (-1) in
  let p := Nat.min m n in
  let bs := Z.to_nat block_size in
  BuildQrDecomposition a block_size precision = Ok (q, r) ->
  (j < p)%nat ->
  exists i a_i,
    work_matrix_before ShapeToString a block_size precision j = Some (i, a_i) /\
    (i <= j)%nat /\ (j < i + Nat.min bs (p - i))%nat /\
    forall env b,
      op_value r env b j j
      = fst (qr_loop (m - i) (Nat.min bs (p - i)) precision
               (op_value
                  (Op.SliceInMinorDims a_i i i m (i + Nat.min bs (p - i))) env))
          b (j - i)%nat (j - i)%nat.
Proof.
  cbv zeta. intros E Hj.
  unfold QrExpander.BuildQrDecomposition in E.
  destruct (Nat.ltb_spec (rank (op_shape a)) 2) as [|Hr]; [discriminate|].
  destruct (Z.ltb_spec block_size 1) as [|Hb]; [discriminate|].
  match type of E with
  | assign_or_return ?loop _ = _ => destruct loop as [[a_f q_f]|] eqn:El
  end; [|discriminate].
  cbn [assign_or_return fst snd] in E. injection E as <- <-.
  assert (Hbs : (1 <= Z.to_nat block_size)%nat) by lia.
  destruct (block_loop_diagonal ShapeToString _ _ _ _ _ _ _ _ _ _ _ _ _ j
              Hbs (Nat.le_min_l _ _) Hr El (Nat.le_0_l j) Hj)
    as (i & a_i & Hh & Hi & Hk & Hv).
  exists i, a_i. split; [exact Hh|]. split; [exact Hi|]. split; [exact Hk|].
  intros env b. rewrite UpperTriangle_diagonal. apply Hv.
Qed.

End DriverDiagonal.

(** C4, as the code has it.  Let sigma be the sum of the squares of the
    entries below the pivot that [House] computes at step [j] (it is zero
    when the tail below [j] is zero).  For every input matrix and every
    pivot [j], the emitted [R[j, j]] equals the pre-reflection alpha at step
    [j] when the computed sigma is zero, and otherwise has the sign opposite
    to alpha: it is negative when alpha >= 0 and positive when alpha < 0. *)
Theorem BuildQrDecomposition_diagonal_sign (ShapeToString : Shape -> string)
    (a : XlaOp) (block_size : Z) (precision : Precision) (q r : XlaOp)
    (env : Tensor) (b : list nat) (j : nat) :
  let m := GetDimension (op_shape a) (-2) in
  let n := GetDimension (op_shape a) (-1) in
  let p := Nat.min m n in
  QrExpander.BuildQrDecomposition ShapeToString a block_size precision
  = Ok (q, r) ->
  (j < p)%nat ->
  exists i a_i,
    work_matrix_before ShapeToString a block_size precision j = Some (i, a_i) /\
    (i <= j)%nat /\
    let st := pivot_state m p (Z.to_nat block_size) precision i a_i env j in
    let alpha := fst st b (j - i)%nat (j - i)%nat in
    let sigma :=
      House_sigma (column (fst st) (j - i)) (Z.of_nat (j - i)) (m - i) b in
    let R_jj := op_value r env b j j in
    let tail_zero :=
      forall r', (j - i < r')%nat -> (r' < m - i)%nat ->
                 fst st b r' (j - i)%nat = 0 in
    sigma
    = Reduce (m - i) (fun r' =>
        if Nat.ltb (j - i) r'
        then fst st b r' (j - i)%nat * fst st b r' (j - i)%nat else 0) 0 /\
    (tail_zero -> sigma = 0) /\
    (sigma = 0 -> R_jj = alpha) /\
    (sigma <> 0 -> (0 <= alpha -> R_jj < 0) /\ (alpha < 0 -> 0 < R_jj)).
Proof.
  cbv zeta. intros E Hj.
  destruct (driver_diagonal_entry ShapeToString a block_size precision
              q r j E Hj) as (i & a_i & Hh & Hi & Hk & Hv).
  exists i, a_i. split; [exact Hh|]. split; [exact Hi|].
  rewrite Hv. unfold pivot_state.
  apply (qr_panel_diagonal_sigma _ _ precision _ (j - i) b). lia.
Qed.

Lemma BuildQrDecomposition_diagonal_sign_witness :
  exists q r,
    QrExpander.BuildQrDecomposition render_shape
      (Parameter0 (MakeShape F32 [2; 2]%nat)) 128 HIGHEST = Ok (q, r) /\
    (0 < Nat.min 2 2)%nat /\
    op_value r eye_2_env [] O O = 1.
Proof.
  destruct (driver_ok render_shape
              (Parameter0 (MakeShape F32 [2; 2]%nat)) 128 HIGHEST
              ltac:(cbn; lia) ltac:(lia)) as [[q r] E].
  exists q, r. split; [exact E|]. split; [cbn; lia|].
  destruct (BuildQrDecomposition_diagonal_sign render_shape
              (Parameter0 (MakeShape F32 [2; 2]%nat)) 128 HIGHEST q r
              eye_2_env [] 0 E ltac:(vm_compute; lia))
    as (i & a_i & Hh & _ & H).
  injection Hh as <- <-. cbv zeta in H. destruct H as (_ & Ht & Hz & _).
  rewrite Hz; [reflexivity|]. apply Ht.
  intros [|[|r']] H1 H2;
    [cbn in H1; lia | reflexivity | vm_compute in H2; lia].
Defined.

(** C4 as stated fails on the identity: at pivot 0 alpha is 1, the tail is
    zero, and [R[0, 0]] is 1 as well. *)
Lemma sign_convention_counterexample :
  ~ sign_convention_as_stated render_shape
      (Parameter0 (MakeShape F32 [2; 2]%nat)) 128 HIGHEST eye_2_env [] 0.
Proof.
  intros H.
  destruct (driver_ok render_shape
              (Parameter0 (MakeShape F32 [2; 2]%nat)) 128 HIGHEST
              ltac:(cbn; lia) ltac:(lia)) as [[q r] E].
  specialize (H q r 0%nat (Parameter0 (MakeShape F32 [2; 2]%nat)) E eq_refl).
  cbv zeta in H.
  destruct (driver_diagonal_entry render_shape _ _ _ q r 0 E
              ltac:(vm_compute; lia)) as (i & a_i & Hh & _ & _ & Hv).
  injection Hh as <- <-.
  assert (ER : op_value r eye_2_env [] 0%nat 0%nat = 1).
  { rewrite Hv.
    destruct (qr_panel_diagonal_sign 2 2 HIGHEST
                (op_value
                   (Op.SliceInMinorDims (Parameter0 (MakeShape F32 [2; 2]%nat))
                      0 0 2 2) eye_2_env)
                0 [] ltac:(vm_compute; lia)) as [Hz _].
    cbv zeta in Hz. apply Hz.
    intros [|[|r']] H1 H2; [lia | reflexivity | lia]. }
  rewrite ER in H.
  destruct H as [[_ H]|[[H _]|[H _]]].
  - lra.
  - change (1 < 0) in H. lra.
  - change (1 = 0) in H. lra.
Qed.

(** * Further properties *)

(** ** ConcatVectors *)

Lemma copy_back_inserter_app (source output : list Z) :
  copy_back_inserter source output = output ++ source.
Proof.
  revert output. induction source as [|x source IH]; intros output.
  - cbn. now rewrite app_nil_r.
  - cbn [copy_back_inserter fold_left]. fold (copy_back_inserter source (output ++ [x])).
    rewrite IH, <- app_assoc. reflexivity.
Qed.

(** The output of [ConcatVectors] holds the elements of [xs] in order,
    followed by those of [ys]: position [i] holds [xs[i]] below the size of
    [xs] and [ys[i - size xs]] from there on, and the size is the sum of the
    two sizes. *)
Theorem ConcatVectors_elements (xs ys : list Z) (i : nat) :
  length (ConcatVectors xs ys) = (length xs + length ys)%nat /\
  ((i < length xs)%nat -> ConcatVectors xs ys !! i = xs !! i) /\
  ((length xs <= i)%nat ->
   ConcatVectors xs ys !! i = ys !! (i - length xs)%nat).
Proof.
  unfold ConcatVectors. rewrite !copy_back_inserter_app. cbn [app].
  split; [apply length_app|]. split.
  - intros H. now apply lookup_app_l.
  - intros H. now apply lookup_app_r.
Qed.

Lemma ConcatVectors_elements_witness :
  (1 < length [5; 7]%Z)%nat /\
  ConcatVectors [5; 7]%Z [2; 3]%Z !! 1%nat = Some 7%Z.
Proof.
  split; [cbn; lia|].
  destruct (ConcatVectors_elements [5; 7]%Z [2; 3]%Z 1) as (_ & H & _).
  rewrite H; [reflexivity | cbn; lia].
Defined.

(** ** The reflection that House builds *)

Section HouseReflection.

Context {B : Type}.
Variable x : Vectors B.
Variable k : S32.
Variable m : nat.
Variable b : B.

Local Abbreviation alpha := (House_alpha x k m b).
Local Abbreviation beta := (House_beta x k m b).
Local Abbreviation tau := (House_tau x k m b).
Local Abbreviation sigma := (House_sigma x k m b).
Local Abbreviation v := (House_v x k m).

(** beta has the norm of [x[k:]]. *)
Lemma House_beta_square : beta * beta = alpha * alpha + sigma.
Proof.
  destruct (Req_dec_T sigma 0) as [Hs|Hs].
  - rewrite (House_beta_degenerate m x k b Hs), Hs. lra.
  - rewrite (House_beta_nondegenerate x k m b Hs).
    pose proof (House_sigma_nonneg x k m b) as Hn.
    pose proof (Rle_0_sqr alpha) as Ha. unfold Rsqr in Ha.
    assert (E : House_mu x k m b * House_mu x k m b = alpha * alpha + sigma).
    { unfold House_mu. apply sqrt_sqrt. lra. }
    unfold sign_of. destruct (Rlt_dec alpha 0); nra.
Qed.

Lemma House_beta_nonzero : sigma <> 0 -> beta <> 0.
Proof.
  intros Hs. destruct (House_beta_sign m x k b Hs) as [H1 H2].
  destruct (Rlt_dec alpha 0) as [Ha|Ha].
  - specialize (H2 Ha). lra.
  - assert (0 <= alpha) by lra. specialize (H1 H). lra.
Qed.

Lemma House_tau_degenerate : sigma = 0 -> tau = 0.
Proof.
  intros Hs. unfold House_tau, House_sigma_is_zero, Select.
  apply EqR_true in Hs. now rewrite Hs.
Qed.

Lemma House_tau_nondegenerate :
  sigma <> 0 -> tau = (beta - alpha) / beta.
Proof.
  intros Hs. unfold House_tau, House_sigma_is_zero, Select.
  apply EqR_false in Hs. now rewrite Hs.
Qed.

Lemma House_divisor_nondegenerate :
  sigma <> 0 -> House_divisor x k m b = alpha - beta.
Proof.
  intros Hs. unfold House_divisor, House_sigma_is_zero, Select.
  apply EqR_false in Hs. now rewrite Hs.
Qed.

(** [v] as the unit vector plus the scaled tail. *)
Lemma House_v_split (i : nat) :
  v b i = House_e_k k i + House_x_after_k x k b i / House_divisor x k m b.
Proof. reflexivity. Qed.

Lemma House_tail_times (y : Vectors B) :
  forall n, Reduce n (fun l => House_e_k k l * y b l) 0
            = if Z.ltb k (Z.of_nat n) && Z.leb 0 k then y b (Z.to_nat k) else 0.
Proof.
  induction n as [|n IH]; cbn [Reduce].
  - destruct (Z.ltb_spec k (Z.of_nat 0)); destruct (Z.leb_spec 0 k);
      cbn [andb]; try reflexivity; lia.
  - rewrite IH. unfold House_e_k, ConvertElementType, Iota.
    destruct (Z.eqb_spec (Z.of_nat n) k) as [E|E].
    + subst k. rewrite Nat2Z.id.
      destruct (Z.ltb_spec (Z.of_nat n) (Z.of_nat n)); [lia|].
      destruct (Z.ltb_spec (Z.of_nat n) (Z.of_nat (S n))); [|lia].
      destruct (Z.leb_spec 0 (Z.of_nat n)); [|lia]. cbn [andb]. lra.
    + destruct (Z.leb_spec 0 k); cbn [andb];
        destruct (Z.ltb_spec k (Z.of_nat n));
        destruct (Z.ltb_spec k (Z.of_nat (S n))); cbn [andb]; try lia; lra.
Qed.

End HouseReflection.

Lemma reflect_pivot_identity (alpha beta sigma : R) :
  beta <> 0 -> alpha - beta <> 0 -> beta * beta = alpha * alpha + sigma ->
  (beta - alpha) / beta * (alpha + sigma / (alpha - beta)) = alpha - beta.
Proof.
  intros Hb Hd E. replace sigma with (beta * beta - alpha * alpha) by lra.
  field. split; assumption.
Qed.

Lemma reflect_twice_identity (alpha beta sigma : R) :
  beta <> 0 -> alpha - beta <> 0 -> beta * beta = alpha * alpha + sigma ->
  (beta - alpha) / beta
  * (1 + sigma / ((alpha - beta) * (alpha - beta))) = 2.
Proof.
  intros Hb Hd E. replace sigma with (beta * beta - alpha * alpha) by lra.
  field. split; assumption.
Qed.

Section HouseContract.

Context {B : Type}.
Variable x : Vectors B.
Variable k : S32.
Variable m : nat.
Variable b : B.
Hypothesis Hk : (0 <= k < Z.of_nat m)%Z.

Local Abbreviation alpha := (House_alpha x k m b).
Local Abbreviation beta := (House_beta x k m b).
Local Abbreviation tau := (House_tau x k m b).
Local Abbreviation sigma := (House_sigma x k m b).
Local Abbreviation d := (House_divisor x k m b).
Local Abbreviation v := (House_v x k m).
Local Abbreviation tail := (House_x_after_k x k b).

Lemma House_v_dot (y : Vectors B) :
  Reduce m (fun l => v b l * y b l) 0
  = y b (Z.to_nat k) + Reduce m (fun l => tail l * y b l) 0 / d.
Proof using Hk.
  rewrite (Reduce_ext m _ (fun l => House_e_k k l * y b l
                                    + tail l * y b l * / d)).
  - rewrite Reduce_plus, House_tail_times, Reduce_scal_r.
    destruct (Z.ltb_spec k (Z.of_nat m)); [|lia].
    destruct (Z.leb_spec 0 k); [|lia]. reflexivity.
  - intros l _. rewrite House_v_split. unfold Rdiv. ring.
Qed.

Lemma House_tail_dot_x : Reduce m (fun l => tail l * x b l) 0 = sigma.
Proof.
  unfold House_sigma. apply Reduce_ext. intros l _.
  unfold House_x_after_k, ConvertElementType.
  destruct (Z.ltb k (Iota l)); ring.
Qed.

Lemma House_tail_dot_tail : Reduce m (fun l => tail l * tail l) 0 = sigma.
Proof. reflexivity. Qed.

Lemma House_tail_at_pivot : tail (Z.to_nat k) = 0.
Proof using Hk.
  unfold House_x_after_k, ConvertElementType, Iota.
  destruct (Z.ltb_spec k (Z.of_nat (Z.to_nat k))); [lia | ring].
Qed.

Lemma House_alpha_at : alpha = x b (Z.to_nat k).
Proof using Hk. unfold House_alpha. now rewrite clamp_start_in_range. Qed.

(** tau (v . x) = alpha - beta, in both branches. *)
Lemma House_tau_v_dot_x :
  tau * Reduce m (fun l => v b l * x b l) 0 = alpha - beta.
Proof using Hk.
  rewrite House_v_dot, House_tail_dot_x, <- House_alpha_at.
  destruct (Req_dec_T sigma 0) as [Hs|Hs].
  - rewrite (House_tau_degenerate x k m b Hs).
    rewrite (House_beta_degenerate m x k b Hs). ring.
  - rewrite (House_tau_nondegenerate x k m b Hs).
    rewrite (House_divisor_nondegenerate x k m b Hs).
    apply reflect_pivot_identity.
    + now apply House_beta_nonzero.
    + rewrite <- (House_divisor_nondegenerate x k m b Hs).
      apply House_divisor_nonzero.
    + apply House_beta_square.
Qed.

(** tau (v . v) = 2 when the tail is not zero. *)
Lemma House_tau_v_dot_v :
  sigma <> 0 -> tau * Reduce m (fun l => v b l * v b l) 0 = 2.
Proof using Hk.
  intros Hs. rewrite House_v_dot.
  rewrite (House_v_pivot x k m b (Z.to_nat k)) by lia.
  assert (E : Reduce m (fun l => tail l * v b l) 0 = sigma / d).
  { rewrite (Reduce_ext m _ (fun l => tail l * House_e_k k l
                                      + tail l * tail l * / d)).
    - rewrite Reduce_plus, Reduce_scal_r.
      rewrite (Reduce_all_zero m (fun l => tail l * House_e_k k l)).
      + fold sigma. unfold House_sigma, Rdiv. ring.
      + intros l _. unfold House_x_after_k, House_e_k, ConvertElementType, Iota.
        destruct (Z.ltb_spec k (Z.of_nat l));
          destruct (Z.eqb_spec (Z.of_nat l) k); try lia; ring.
    - intros l _. rewrite House_v_split. unfold Rdiv. ring. }
  rewrite E.
  rewrite (House_tau_nondegenerate x k m b Hs).
  pose proof (House_divisor_nonzero x k m b) as Hd.
  rewrite (House_divisor_nondegenerate x k m b Hs) in *.
  rewrite <- (reflect_twice_identity alpha beta sigma).
  - field. split; [exact Hd | now apply House_beta_nonzero].
  - now apply House_beta_nonzero.
  - exact Hd.
  - apply House_beta_square.
Qed.

Lemma House_reflects_x (r : nat) :
  (r < m)%nat ->
  apply_reflector m v (House_tau x k m) x b r
  = if Nat.ltb r (Z.to_nat k) then x b r
    else if Nat.eqb r (Z.to_nat k) then beta else 0.
Proof using Hk.
  intros Hr. unfold apply_reflector.
  replace (tau * (v b r * Reduce m (fun l => v b l * x b l) 0))
    with (v b r * (tau * Reduce m (fun l => v b l * x b l) 0)) by ring.
  rewrite House_tau_v_dot_x.
  destruct (Nat.ltb_spec r (Z.to_nat k)) as [H1|H1].
  - rewrite House_v_below by lia. ring.
  - destruct (Nat.eqb_spec r (Z.to_nat k)) as [H2|H2].
    + rewrite House_v_pivot by lia. subst r. rewrite <- House_alpha_at. ring.
    + rewrite House_v_above by lia.
      destruct (Req_dec_T sigma 0) as [Hs|Hs].
      * rewrite (House_beta_degenerate m x k b Hs).
        apply House_sigma_zero_iff with (i := r) in Hs; [|assumption|lia].
        rewrite Hs. unfold Rdiv. ring.
      * rewrite (House_divisor_nondegenerate x k m b Hs).
        pose proof (House_divisor_nonzero x k m b) as Hd.
        rewrite (House_divisor_nondegenerate x k m b Hs) in Hd.
        field. exact Hd.
Qed.

Lemma House_reflects_twice (y : Vectors B) (r : nat) :
  apply_reflector m v (House_tau x k m)
    (apply_reflector m v (House_tau x k m) y) b r
  = y b r.
Proof using Hk.
  unfold apply_reflector.
  set (D := Reduce m (fun l => v b l * y b l) 0).
  set (vv := Reduce m (fun l => v b l * v b l) 0).
  assert (E : Reduce m (fun l => v b l * (y b l - tau * (v b l * D))) 0
              = D - tau * vv * D).
  { rewrite (Reduce_ext m _ (fun l => v b l * y b l
                                      + (- tau * D) * (v b l * v b l)))
      by (intros; ring).
    rewrite Reduce_plus, Reduce_scal. fold D vv. ring. }
  rewrite E.
  destruct (Req_dec_T sigma 0) as [Hs|Hs].
  - rewrite (House_tau_degenerate x k m b Hs). ring.
  - pose proof (House_tau_v_dot_v Hs) as H2. fold vv in H2.
    replace (y b r - tau * (v b r * D)
             - tau * (v b r * (D - tau * vv * D)))
      with (y b r - tau * v b r * D * (2 - tau * vv)) by ring.
    rewrite H2. ring.
Qed.

End HouseContract.

(** The contract in the comment above [House]: with the pivot in range, the
    reflection [H = I - tau v v^T] built from the outputs maps [x] to the
    vector that keeps the entries above the pivot, holds beta at the pivot
    and zeros below it. *)
Theorem House_reflection_contract {B : Type} (x : Vectors B) (k : S32)
    (m : nat) (b : B) (r : nat) :
  (0 <= k < Z.of_nat m)%Z -> (r < m)%nat ->
  let '(v, tau, beta) := House x k m in
  apply_reflector m v tau x b r
  = if Nat.ltb r (Z.to_nat k) then x b r
    else if Nat.eqb r (Z.to_nat k) then beta b else 0.
Proof. intros Hk Hr. unfold House. now apply House_reflects_x. Qed.

Lemma House_reflection_contract_witness :
  (0 <= 1 < Z.of_nat 3)%Z /\ (2 < 3)%nat /\
  apply_reflector 3 (House_v x_2_3_4 1%Z 3) (House_tau x_2_3_4 1%Z 3) x_2_3_4
    tt 2%nat = 0.
Proof.
  split; [lia|]. split; [lia|].
  exact (House_reflection_contract x_2_3_4 1%Z 3 tt 2 ltac:(lia) ltac:(lia)).
Defined.

(** The reflection is an involution: tau (v . v) is 2 when the tail is not
    zero and tau is 0 when it is, so applying [H] twice gives back every
    vector; [H] being symmetric, it is orthogonal. *)
Theorem House_reflection_involution {B : Type} (x y : Vectors B) (k : S32)
    (m : nat) (b : B) (r : nat) :
  (0 <= k < Z.of_nat m)%Z ->
  let '(v, tau, beta) := House x k m in
  (House_sigma x k m b <> 0 ->
   tau b * Reduce m (fun l => v b l * v b l) 0 = 2) /\
  (House_sigma x k m b = 0 -> tau b = 0) /\
  apply_reflector m v tau (apply_reflector m v tau y) b r = y b r.
Proof.
  intros Hk. unfold House. split; [|split].
  - now apply House_tau_v_dot_v.
  - apply House_tau_degenerate.
  - now apply House_reflects_twice.
Qed.

Lemma House_reflection_involution_witness :
  (0 <= 1 < Z.of_nat 3)%Z /\
  apply_reflector 3 (House_v x_2_3_4 1%Z 3) (House_tau x_2_3_4 1%Z 3)
    (apply_reflector 3 (House_v x_2_3_4 1%Z 3) (House_tau x_2_3_4 1%Z 3)
       x_2_3_4) tt 0%nat
  = x_2_3_4 tt 0%nat.
Proof.
  split; [lia|].
  destruct (House_reflection_involution x_2_3_4 x_2_3_4 1%Z 3 tt 0
              ltac:(lia)) as (_ & _ & H).
  exact H.
Defined.

(** beta has the Euclidean norm of [x[k:]]: beta^2 = x[k]^2 + the sum of
    the squares of the entries below the pivot. *)
Theorem House_beta_norm {B : Type} (x : Vectors B) (k : S32) (m : nat)
    (b : B) :
  (0 <= k < Z.of_nat m)%Z ->
  House_beta x k m b * House_beta x k m b
  = x b (Z.to_nat k) * x b (Z.to_nat k)
    + Reduce m (fun i => if Z.ltb k (Z.of_nat i) then x b i * x b i else 0) 0.
Proof.
  intros Hk. rewrite House_beta_square.
  rewrite (House_alpha_at x k m b Hk). f_equal.
  unfold House_sigma. apply Reduce_ext. intros i _.
  unfold House_x_after_k, ConvertElementType, Iota.
  destruct (Z.ltb k (Z.of_nat i)); ring.
Qed.

Lemma House_beta_norm_witness :
  (0 <= 0 < Z.of_nat 2)%Z /\
  House_beta x_3_4 0%Z 2 tt * House_beta x_3_4 0%Z 2 tt = 25.
Proof.
  split; [lia|].
  rewrite (House_beta_norm x_3_4 0%Z 2 tt ltac:(lia)).
  eval_graph. lra.
Defined.

(** ** The packed panel *)

Section QrPanel.

Context {B : Type}.
Variables m n : nat.
Variable precision : Precision.
Variable a : Matrices B.

Local Abbreviation state := (qr_state m n precision a).
Local Abbreviation body := (qr_body_fn m n precision).
Local Abbreviation p := (Nat.min m n).
Local Abbreviation x_at j := (column (fst (state j)) j).
Local Abbreviation v_at j := (House_v (x_at j) (Z.of_nat j) m).
Local Abbreviation tau_at j := (House_tau (x_at j) (Z.of_nat j) m).
Local Abbreviation beta_at j := (House_beta (x_at j) (Z.of_nat j) m).

(** Step [i] leaves the columns before its pivot alone. *)
Lemma qr_step_columns_before (i : nat) (st : Matrices B * Vectors B) b r c :
  (i < n)%nat -> (c < i)%nat ->
  fst (body (Z.of_nat i) st) b r c = fst st b r c.
Proof.
  intros Hi Hc. rewrite qr_step_a by assumption. cbv zeta.
  destruct (Nat.eqb_spec c i); [lia|].
  rewrite Reduce_all_zero; [ring|].
  intros l _. destruct (Nat.ltb_spec i c); [lia | ring].
Qed.

Lemma qr_state_column_final (i j : nat) b r :
  (j < i)%nat -> (i <= n)%nat ->
  fst (state i) b r j = fst (state (S j)) b r j.
Proof.
  induction i as [|i IH]; intros Hj Hi; [lia|].
  destruct (Nat.eq_dec j i) as [->|Hne]; [reflexivity|].
  rewrite qr_state_succ, qr_step_columns_before by lia. apply IH; lia.
Qed.

Lemma qr_state_taus_filled (i j : nat) b :
  (j < i)%nat -> (i <= n)%nat -> snd (state i) b j = tau_at j b.
Proof.
  induction i as [|i IH]; intros Hj Hi; [lia|].
  rewrite qr_state_succ, qr_step_taus by lia.
  destruct (Nat.eqb_spec j i) as [->|Hne].
  - rewrite qr_state_taus_unfilled by lia. ring.
  - rewrite IH by lia. ring.
Qed.

(** The layout of the packed result, column by column. *)
Lemma qr_loop_packed (j : nat) b r :
  (j < p)%nat ->
  fst (qr_loop m n precision a) b r j
  = if Nat.ltb r j then fst (state j) b r j
    else if Nat.eqb r j then beta_at j b else v_at j b r.
Proof.
  intros Hj. rewrite qr_loop_state.
  rewrite (qr_state_column_final p j) by lia.
  rewrite qr_state_succ, qr_step_a by lia. cbv zeta.
  now rewrite Nat.eqb_refl.
Qed.

Lemma qr_loop_taus (j : nat) b :
  snd (qr_loop m n precision a) b j
  = if Nat.ltb j p then tau_at j b else 0.
Proof.
  rewrite qr_loop_state. destruct (Nat.ltb_spec j p).
  - apply qr_state_taus_filled; lia.
  - apply qr_state_taus_unfilled; lia.
Qed.

(** A step at a column whose tail is zero changes nothing. *)
Lemma qr_step_degenerate (j : nat) b :
  (j < p)%nat ->
  (forall r, (j < r)%nat -> (r < m)%nat -> fst (state j) b r j = 0) ->
  tau_at j b = 0 /\
  forall r c, (r < m)%nat -> fst (state (S j)) b r c = fst (state j) b r c.
Proof.
  intros Hj Ht.
  assert (Hs : House_sigma (x_at j) (Z.of_nat j) m b = 0)
    by now apply qr_tail_zero_iff.
  assert (Et : tau_at j b = 0) by now apply House_tau_degenerate.
  split; [exact Et|].
  intros r c Hr. rewrite qr_state_succ, qr_step_a by lia. cbv zeta.
  rewrite Et.
  destruct (Nat.eqb_spec c j) as [->|Hc]; [|ring].
  destruct (Nat.ltb_spec r j); [reflexivity|].
  destruct (Nat.eqb_spec r j) as [->|Hne].
  - rewrite (House_beta_degenerate m _ _ b Hs). now apply qr_alpha_at; lia.
  - rewrite House_v_above by lia.
    unfold House_divisor, House_sigma_is_zero, Select.
    apply EqR_true in Hs. rewrite Hs. unfold column.
    rewrite Ht by lia. unfold Rdiv. ring.
Qed.

End QrPanel.

Lemma apply_reflector_ext {B : Type} (m : nat) (v v' : Vectors B)
    (tau tau' : Scalars B) (y y' : Vectors B) b r :
  (r < m)%nat ->
  (forall l, (l < m)%nat -> v b l = v' b l) -> tau b = tau' b ->
  (forall l, (l < m)%nat -> y b l = y' b l) ->
  apply_reflector m v tau y b r = apply_reflector m v' tau' y' b r.
Proof.
  intros Hr Hv Ht Hy. unfold apply_reflector.
  rewrite (Hv r Hr), Ht, (Hy r Hr). f_equal. f_equal. f_equal.
  apply Reduce_ext. intros l Hl. now rewrite Hv, Hy.
Qed.

Section PanelFactorization.

Context {B : Type}.
Variables m n : nat.
Variable precision : Precision.
Variable a : Matrices B.
Variable b : B.

Local Abbreviation state := (qr_state m n precision a).
Local Abbreviation p := (Nat.min m n).
Local Abbreviation packed := (fst (qr_loop m n precision a)).
Local Abbreviation taus := (snd (qr_loop m n precision a)).
Local Abbreviation Y := (unit_lower packed).
Local Abbreviation x_at j := (column (fst (state j)) j).
Local Abbreviation v_at j := (House_v (x_at j) (Z.of_nat j) m).
Local Abbreviation tau_at j := (House_tau (x_at j) (Z.of_nat j) m).

(** Column [j] of the panel of reflectors is the [v] of step [j]. *)
Lemma unit_lower_column (j l : nat) :
  (j < p)%nat -> column Y j b l = v_at j b l.
Proof.
  intros Hj. change (column Y j b l) with (Y b l j).
  unfold unit_lower, IdentityMatrix, Select, ZerosLike,
    TriangleMask, ConvertElementType, Iota.
  rewrite qr_loop_packed by assumption.
  destruct (Z.leb_spec (Z.of_nat j) (Z.of_nat l + -1));
    destruct (Nat.eqb_spec l j); destruct (Nat.ltb_spec l j); try lia.
  - ring.
  - subst l. rewrite House_v_pivot by reflexivity. ring.
  - rewrite House_v_below by lia. ring.
Qed.

(** One reflector of the packed panel acts as the one of step [j]. *)
Lemma packed_reflector (j : nat) (y : Vectors B) r :
  (j < p)%nat -> (r < m)%nat ->
  apply_reflector m (column Y j) (fun b' => taus b' j) y b r
  = apply_reflector m (v_at j) (tau_at j) y b r.
Proof.
  intros Hj Hr. apply apply_reflector_ext; try assumption.
  - intros l _. now apply unit_lower_column.
  - rewrite qr_loop_taus. destruct (Nat.ltb_spec j p); [reflexivity | lia].
  - reflexivity.
Qed.

(** After [j] steps the work matrix holds [H_(j-1) ... H_0 A]: in full from
    column [j] on, and above the diagonal before. *)
Lemma panel_invariant (j : nat) : forall r c,
  (j <= p)%nat -> (r < m)%nat ->
  reflect_left m Y taus j a b r c
  = if Nat.leb j c then fst (state j) b r c
    else if Nat.leb r c then fst (state j) b r c else 0.
Proof.
  induction j as [|j IH]; intros r c Hj Hr.
  - reflexivity.
  - cbn [reflect_left]. rewrite packed_reflector by lia.
    rewrite (apply_reflector_ext m _ (v_at j) _ (tau_at j) _
               (fun b' l => if Nat.leb j c then fst (state j) b' l c
                            else if Nat.leb l c then fst (state j) b' l c
                                 else 0) b r Hr);
      [| reflexivity | reflexivity
       | intros l Hl; unfold column; apply IH; [lia | assumption]].
    destruct (Nat.leb_spec j c) as [Hjc|Hjc].
    + (* columns from the pivot on *)
      destruct (Nat.eq_dec c j) as [->|Hne].
      * fold (x_at j).
        change (fun b' l => fst (state j) b' l j) with (x_at j).
        rewrite House_reflects_x by lia. rewrite Nat2Z.id.
        rewrite qr_state_succ, qr_step_a by lia. cbv zeta.
        rewrite Nat.eqb_refl.
        destruct (Nat.leb_spec (S j) j); [lia|].
        destruct (Nat.ltb_spec r j); destruct (Nat.leb_spec r j);
          destruct (Nat.eqb_spec r j); try lia; reflexivity.
      * destruct (Nat.leb_spec (S j) c); [|lia].
        rewrite qr_state_succ, qr_step_a by lia. cbv zeta.
        destruct (Nat.eqb_spec c j); [lia|].
        unfold apply_reflector. f_equal. f_equal. f_equal.
        apply Reduce_ext. intros l _.
        destruct (Nat.ltb_spec j c); [reflexivity | lia].
    + (* columns already triangular *)
      destruct (Nat.leb_spec (S j) c); [lia|].
      rewrite qr_state_succ, qr_step_columns_before by lia.
      unfold apply_reflector.
      rewrite Reduce_all_zero; [ring|].
      intros l Hl. destruct (Nat.leb_spec l c).
      * rewrite House_v_below by lia. ring.
      * ring.
Qed.

Lemma panel_upper r c :
  (r < m)%nat -> (c < n)%nat ->
  reflect_left m Y taus p a b r c = upper packed b r c.
Proof.
  intros Hr Hc. rewrite panel_invariant by (try assumption; lia).
  unfold upper, Select, ZerosLike, TriangleMask, Iota.
  rewrite <- qr_loop_state.
  destruct (Z.leb_spec (Z.of_nat c) (Z.of_nat r + -1));
    destruct (Nat.leb_spec p c); destruct (Nat.leb_spec r c);
    try lia; reflexivity.
Qed.

End PanelFactorization.

(** The matrix of a reflector acts on a column as [apply_reflector]. *)
Lemma reflector_acts {B : Type} (m : nat) (Y : Matrices B) (taus : Vectors B)
    (j : nat) (y : Vectors B) b t :
  (t < m)%nat ->
  Reduce m (fun l => reflector Y taus j b t l * y b l) 0
  = apply_reflector m (column Y j) (fun b' => taus b' j) y b t.
Proof.
  intros Ht. unfold reflector, apply_reflector, column, IdentityMatrix.
  rewrite (Reduce_ext m _ (fun l =>
             ConvertElementType (Nat.eqb t l) * y b l
             + (- taus b j * Y b t j) * (Y b l j * y b l)))
    by (intros; ring).
  rewrite Reduce_plus, Reduce_scal, Reduce_delta_l by assumption. ring.
Qed.

Lemma reflector_symmetric {B : Type} (Y : Matrices B) (taus : Vectors B)
    (j : nat) b r c :
  reflector Y taus j b r c = reflector Y taus j b c r.
Proof.
  unfold reflector, IdentityMatrix. rewrite (Nat.eqb_sym r c). ring.
Qed.

Lemma reflect_left_ext {B : Type} (m : nat) (Y : Matrices B)
    (taus : Vectors B) (k : nat) (A A' : Matrices B) b c :
  (forall l, (l < m)%nat -> A b l c = A' b l c) ->
  forall r, (r < m)%nat ->
    reflect_left m Y taus k A b r c = reflect_left m Y taus k A' b r c.
Proof.
  intros HA. induction k as [|k IH]; intros r Hr; [now apply HA|].
  cbn [reflect_left]. apply apply_reflector_ext; try assumption; reflexivity.
Qed.

(** [(H_0 ... H_(k-1))^T A = H_(k-1) ... H_0 A]: the reflectors are
    symmetric. *)
Lemma product_transpose_acts {B : Type} (m : nat) (Y : Matrices B)
    (taus : Vectors B) (A : Matrices B) b c (k : nat) : forall r,
  (r < m)%nat ->
  Reduce m (fun l => reflector_product m Y taus k b l r * A b l c) 0
  = reflect_left m Y taus k A b r c.
Proof.
  induction k as [|k IH]; intros r Hr.
  - cbn [reflector_product reflect_left]. unfold IdentityMatrix.
    rewrite (Reduce_ext m _ (fun l => ConvertElementType (Nat.eqb r l) * A b l c))
      by (intros; now rewrite (Nat.eqb_sym r)).
    now rewrite Reduce_delta_l.
  - cbn [reflector_product reflect_left]. unfold BatchDot, BatchDot4, Transposed.
    rewrite (Reduce_ext m _ (fun l =>
               Reduce m (fun s => reflector Y taus k b r s
                 * (reflector_product m Y taus k b l s * A b l c)) 0)).
    + rewrite Reduce_swap.
      rewrite (Reduce_ext m _ (fun s =>
                 reflector Y taus k b r s
                 * column (reflect_left m Y taus k A) c b s)).
      * now rewrite reflector_acts.
      * intros s Hs. rewrite Reduce_scal. unfold column. now rewrite IH.
    + intros l Hl. rewrite <- Reduce_scal_r. apply Reduce_ext.
      intros s _. rewrite (reflector_symmetric Y taus k b r s). ring.
Qed.

(** [(H_0 ... H_k) A = (H_0 ... H_(k-1)) (H_k A)]. *)
Lemma product_succ_acts {B : Type} (m : nat) (Y : Matrices B)
    (taus : Vectors B) (A : Matrices B) b c (k : nat) r :
  Reduce m (fun l => reflector_product m Y taus (S k) b r l * A b l c) 0
  = Reduce m (fun s =>
      reflector_product m Y taus k b r s
      * (if Nat.ltb s m
         then apply_reflector m (column Y k) (fun b' => taus b' k)
                (column A c) b s
         else 0)) 0.
Proof.
  cbn [reflector_product]. unfold BatchDot, BatchDot4, Transposed.
  rewrite (Reduce_ext m _ (fun l =>
             Reduce m (fun s => reflector_product m Y taus k b r s
               * (reflector Y taus k b s l * A b l c)) 0)).
  - rewrite Reduce_swap. apply Reduce_ext. intros s Hs.
    rewrite Reduce_scal. destruct (Nat.ltb_spec s m); [|lia].
    f_equal. now apply (reflector_acts m Y taus k (column A c) b s).
  - intros l Hl. rewrite <- Reduce_scal_r. apply Reduce_ext.
    intros s _. ring.
Qed.

Section PanelQ.

Context {B : Type}.
Variables m n : nat.
Variable precision : Precision.
Variable a : Matrices B.
Variable b : B.

Local Abbreviation state := (qr_state m n precision a).
Local Abbreviation p := (Nat.min m n).
Local Abbreviation packed := (fst (qr_loop m n precision a)).
Local Abbreviation taus := (snd (qr_loop m n precision a)).
Local Abbreviation Y := (unit_lower packed).
Local Abbreviation Q j := (reflector_product m Y taus j).

(** A reflector of the packed panel is an involution. *)
Lemma packed_reflector_twice (j : nat) (y : Vectors B) r :
  (j < p)%nat -> (r < m)%nat ->
  apply_reflector m (column Y j) (fun b' => taus b' j)
    (apply_reflector m (column Y j) (fun b' => taus b' j) y) b r
  = y b r.
Proof.
  intros Hj Hr. rewrite packed_reflector by assumption.
  rewrite (apply_reflector_ext m _ _ _ _ _
             (apply_reflector m
                (House_v (column (fst (state j)) j) (Z.of_nat j) m)
                (House_tau (column (fst (state j)) j) (Z.of_nat j) m) y)
             b r Hr (fun _ _ => eq_refl) eq_refl).
  - apply House_reflects_twice. lia.
  - intros l Hl. now apply packed_reflector.
Qed.

(** [H_0 ... H_(j-1)] undoes [H_(j-1) ... H_0]. *)
Lemma product_undoes_reflect_left (j : nat) : forall (A : Matrices B) r c,
  (j <= p)%nat -> (r < m)%nat ->
  Reduce m (fun l => Q j b r l * reflect_left m Y taus j A b l c) 0 = A b r c.
Proof.
  induction j as [|j IH]; intros A r c Hj Hr.
  - cbn [reflector_product reflect_left]. unfold IdentityMatrix.
    now rewrite Reduce_delta_l.
  - rewrite product_succ_acts.
    rewrite <- (IH A r c) by (try assumption; lia).
    apply Reduce_ext. intros s Hs. f_equal.
    destruct (Nat.ltb_spec s m); [|lia].
    change (column (reflect_left m Y taus (S j) A) c)
      with (apply_reflector m (column Y j) (fun b' => taus b' j)
              (column (reflect_left m Y taus j A) c)).
    apply packed_reflector_twice; [lia | assumption].
Qed.

(** [H_(j-1) ... H_0] undoes [H_0 ... H_(j-1)]. *)
Lemma reflect_left_undoes_product (j : nat) : forall (A : Matrices B) r c,
  (j <= p)%nat -> (r < m)%nat ->
  reflect_left m Y taus j
    (fun b' l c' => Reduce m (fun s => Q j b' l s * A b' s c') 0) b r c
  = A b r c.
Proof.
  induction j as [|j IH]; intros A r c Hj Hr.
  - cbn [reflector_product reflect_left]. unfold IdentityMatrix.
    now rewrite Reduce_delta_l.
  - cbn [reflect_left].
    rewrite (apply_reflector_ext m _ _ _ _ _
               (apply_reflector m (column Y j) (fun b' => taus b' j)
                  (column A c))
               b r Hr (fun _ _ => eq_refl) eq_refl).
    + apply packed_reflector_twice; [lia | assumption].
    + intros l Hl. unfold column at 1.
      rewrite (reflect_left_ext m Y taus j _
                 (fun b' l' c' =>
                    Reduce m (fun s => Q j b' l' s
                      * (if Nat.ltb s m
                         then apply_reflector m (column Y j)
                                (fun b'' => taus b'' j) (column A c') b' s
                         else 0)) 0) b c).
      * rewrite (IH (fun b' s c' =>
                       if Nat.ltb s m
                       then apply_reflector m (column Y j)
                              (fun b'' => taus b'' j) (column A c') b' s
                       else 0) l c) by (try assumption; lia).
        destruct (Nat.ltb_spec l m); [reflexivity | lia].
      * intros l' _. apply product_succ_acts.
      * assumption.
Qed.

(** The product of the reflectors of the panel is orthogonal. *)
Lemma panel_Q_rows r c :
  (r < m)%nat -> (c < m)%nat ->
  Reduce m (fun l => Q p b r l * Q p b c l) 0
  = ConvertElementType (Nat.eqb r c).
Proof.
  intros Hr Hc.
  change (ConvertElementType (Nat.eqb r c)) with (@IdentityMatrix B b r c).
  rewrite <- (product_undoes_reflect_left p IdentityMatrix r c)
    by (try assumption; lia).
  apply Reduce_ext. intros l Hl. f_equal.
  rewrite <- product_transpose_acts by assumption.
  unfold IdentityMatrix.
  rewrite (Reduce_delta m c (fun s => Q p b s l)) by assumption. reflexivity.
Qed.

Lemma panel_Q_columns r c :
  (r < m)%nat -> (c < m)%nat ->
  Reduce m (fun l => Q p b l r * Q p b l c) 0
  = ConvertElementType (Nat.eqb r c).
Proof.
  intros Hr Hc.
  rewrite (product_transpose_acts m Y taus (Q p) b c p r Hr).
  rewrite (reflect_left_ext m Y taus p _
             (fun b' l c' =>
                Reduce m (fun s => Q p b' l s * IdentityMatrix b' s c') 0) b c).
  - rewrite reflect_left_undoes_product by (try assumption; lia). reflexivity.
  - intros l _. unfold IdentityMatrix. now rewrite Reduce_delta.
  - assumption.
Qed.

End PanelQ.

(** The packed output of the panel factorizer, column by column: for a
    pivot [j < min(m, n)], column [j] holds above the diagonal what the
    work matrix held there before step [j], beta of step [j] on the
    diagonal and the entries of [v] of step [j] below it; the packed tau
    vector holds tau of step [j] at [j] and zero from [min(m, n)] on. *)
Theorem QrBlock_packed_layout {B : Type} (m n : nat) (precision : Precision)
    (a : Matrices B) (j : nat) (b : B) :
  (j < Nat.min m n)%nat ->
  let st := qr_state m n precision a j in
  let '(v, tau, beta) := House (column (fst st) j) (Z.of_nat j) m in
  let result := qr_loop m n precision a in
  (forall r, (r < j)%nat -> fst result b r j = fst st b r j) /\
  fst result b j j = beta b /\
  (forall r, (j < r)%nat -> fst result b r j = v b r) /\
  snd result b j = tau b /\
  (forall c, (Nat.min m n <= c)%nat -> snd result b c = 0).
Proof.
  intros Hj. cbv zeta. unfold House. repeat split.
  - intros r Hr. rewrite qr_loop_packed by assumption.
    destruct (Nat.ltb_spec r j); [reflexivity | lia].
  - rewrite qr_loop_packed by assumption.
    now rewrite Nat.ltb_irrefl, Nat.eqb_refl.
  - intros r Hr. rewrite qr_loop_packed by assumption.
    destruct (Nat.ltb_spec r j); [lia|].
    destruct (Nat.eqb_spec r j); [lia | reflexivity].
  - rewrite qr_loop_taus. destruct (Nat.ltb_spec j (Nat.min m n)); [reflexivity | lia].
  - intros c Hc. rewrite qr_loop_taus.
    destruct (Nat.ltb_spec c (Nat.min m n)); [lia | reflexivity].
Qed.

Lemma QrBlock_packed_layout_witness :
  (0 < Nat.min 2 2)%nat /\
  snd (qr_loop 2 2 HIGHEST a_3_1_4_2) tt 0%nat
  = House_tau (column a_3_1_4_2 0) 0%Z 2 tt.
Proof.
  split; [cbn; lia|].
  pose proof (QrBlock_packed_layout 2 2 HIGHEST a_3_1_4_2 0 tt
                ltac:(cbn; lia)) as H.
  cbv zeta in H. unfold House in H. destruct H as (_ & _ & _ & H & _).
  exact H.
Defined.

Section TriangularInput.

Context {B : Type}.
Variables m n : nat.
Variable precision : Precision.
Variable a : Matrices B.
Variable b : B.
Hypothesis Htri :
  forall r c, (c < r)%nat -> (r < m)%nat -> (c < Nat.min m n)%nat ->
              a b r c = 0.

Lemma qr_state_triangular (j : nat) :
  (j <= Nat.min m n)%nat ->
  (forall r c, (r < m)%nat ->
     fst (qr_state m n precision a j) b r c = a b r c) /\
  (forall c, snd (qr_state m n precision a j) b c = 0).
Proof using Htri.
  induction j as [|j IH]; intros Hj.
  - split; reflexivity.
  - destruct (IH ltac:(lia)) as [IHa IHt].
    destruct (qr_step_degenerate m n precision a j b ltac:(lia)) as [Et Ea].
    { intros r H1 H2. rewrite IHa by assumption. apply Htri; lia. }
    split.
    + intros r c Hr. rewrite Ea by assumption. now apply IHa.
    + intros c. rewrite qr_state_succ, qr_step_taus by lia.
      rewrite IHt, Et. destruct (Nat.eqb c j); ring.
Qed.

End TriangularInput.

(** Degenerate columns: on a panel that is already upper triangular (every
    column has a zero tail below its pivot) every reflector is the
    identity: the factorizer returns the panel as it is, and all tau are
    zero. *)
Theorem QrBlock_triangular_input {B : Type} (m n : nat)
    (precision : Precision) (a : Matrices B) (b : B) :
  (forall r c, (c < r)%nat -> (r < m)%nat -> (c < Nat.min m n)%nat ->
               a b r c = 0) ->
  (forall r c, (r < m)%nat -> fst (qr_loop m n precision a) b r c = a b r c) /\
  (forall c, snd (qr_loop m n precision a) b c = 0).
Proof.
  intros H. rewrite qr_loop_state.
  now apply qr_state_triangular.
Qed.

Lemma QrBlock_triangular_input_witness :
  (forall r c, (c < r)%nat -> (r < 2)%nat -> (c < Nat.min 2 2)%nat ->
               a_3_1_0_2 tt r c = 0) /\
  fst (qr_loop 2 2 HIGHEST a_3_1_0_2) tt 0%nat 0%nat = 3.
Proof.
  assert (H : forall r c, (c < r)%nat -> (r < 2)%nat -> (c < Nat.min 2 2)%nat ->
                          a_3_1_0_2 tt r c = 0).
  { intros [|[|r]] [|[|c]] H1 H2 H3; cbn in H3; try lia; reflexivity. }
  split; [exact H|].
  destruct (QrBlock_triangular_input 2 2 HIGHEST a_3_1_0_2 tt H) as [E _].
  rewrite E by lia. reflexivity.
Defined.

(** The panel factorizer factorizes: with [Y] the unit lower triangle of
    the packed result, [R] its upper triangle and [H_j] the reflector of
    column [j] of [Y] and [tau_j], applying [H_0], then [H_1], ... to the
    input gives [R], and the product [Q = H_0 H_1 ... H_(p-1)] times [R]
    gives back the input. *)
Theorem QrBlock_factorizes {B : Type} (m n : nat) (precision : Precision)
    (a : Matrices B) (b : B) (r c : nat) :
  (r < m)%nat -> (c < n)%nat ->
  let packed := fst (qr_loop m n precision a) in
  let taus := snd (qr_loop m n precision a) in
  let Y := unit_lower packed in
  let R := upper packed in
  let Q := reflector_product m Y taus (Nat.min m n) in
  reflect_left m Y taus (Nat.min m n) a b r c = R b r c /\
  BatchDot m Q R HIGHEST b r c = a b r c.
Proof.
  intros Hr Hc. cbv zeta. split.
  - now apply panel_upper.
  - unfold BatchDot, BatchDot4, Transposed.
    rewrite <- (product_undoes_reflect_left m n precision a b (Nat.min m n)
                  a r c (Nat.le_refl _) Hr).
    apply Reduce_ext. intros l Hl. f_equal. symmetry. now apply panel_upper.
Qed.

Lemma QrBlock_factorizes_witness :
  (1 < 2)%nat /\ (0 < 2)%nat /\
  BatchDot 2
    (reflector_product 2 (unit_lower (fst (qr_loop 2 2 HIGHEST a_3_1_4_2)))
       (snd (qr_loop 2 2 HIGHEST a_3_1_4_2)) (Nat.min 2 2))
    (upper (fst (qr_loop 2 2 HIGHEST a_3_1_4_2))) HIGHEST tt 1%nat 0%nat
  = 4.
Proof.
  split; [lia|]. split; [lia|].
  destruct (QrBlock_factorizes 2 2 HIGHEST a_3_1_4_2 tt 1 0 ltac:(lia)
              ltac:(lia)) as [_ H].
  cbv zeta in H. rewrite H. reflexivity.
Defined.

(** The product [Q] of the reflectors of a packed panel is orthogonal: its
    columns and its rows are orthonormal. *)
Theorem QrBlock_Q_orthogonal {B : Type} (m n : nat) (precision : Precision)
    (a : Matrices B) (b : B) (r c : nat) :
  (r < m)%nat -> (c < m)%nat ->
  let packed := fst (qr_loop m n precision a) in
  let taus := snd (qr_loop m n precision a) in
  let Q := reflector_product m (unit_lower packed) taus (Nat.min m n) in
  BatchDot4 m Q true Q false HIGHEST b r c = IdentityMatrix b r c /\
  BatchDot4 m Q false Q true HIGHEST b r c = IdentityMatrix b r c.
Proof.
  intros Hr Hc. cbv zeta. unfold BatchDot4, Transposed, IdentityMatrix. split.
  - now apply panel_Q_columns.
  - now apply panel_Q_rows.
Qed.

Lemma QrBlock_Q_orthogonal_witness :
  (0 < 2)%nat /\ (1 < 2)%nat /\
  BatchDot4 2
    (reflector_product 2 (unit_lower (fst (qr_loop 2 2 HIGHEST a_3_1_4_2)))
       (snd (qr_loop 2 2 HIGHEST a_3_1_4_2)) (Nat.min 2 2)) true
    (reflector_product 2 (unit_lower (fst (qr_loop 2 2 HIGHEST a_3_1_4_2)))
       (snd (qr_loop 2 2 HIGHEST a_3_1_4_2)) (Nat.min 2 2)) false
    HIGHEST tt 0%nat 1%nat
  = 0.
Proof.
  split; [lia|]. split; [lia|].
  destruct (QrBlock_Q_orthogonal 2 2 HIGHEST a_3_1_4_2 tt 0 1 ltac:(lia)
              ltac:(lia)) as [H _].
  cbv zeta in H. rewrite H. reflexivity.
Defined.

(** ** More on the Compact-WY factor *)

Section WyDiagonal.

Context {B : Type}.
Variables m n : nat.
Variable precision : Precision.
Variable vs : Matrices B.
Variable taus : Vectors B.
Variable b : B.

Lemma wy_final_column (j : nat) r :
  (j < n)%nat ->
  CompactWY_T m n precision vs taus b r j
  = - taus b j
    * (ConvertElementType (Nat.eqb r j)
       + Reduce j (fun l =>
           fst (wy_loop m n precision j vs taus) b r l
           * Reduce m (fun t => vs b t l * vs b t j) 0) 0).
Proof.
  intros Hj. unfold CompactWY_T.
  rewrite (wy_stable m n precision vs taus b (S j) n) by lia.
  now apply wy_column.
Qed.

End WyDiagonal.

(** The diagonal of the Compact-WY factor is [-tau], and a reflector with
    [tau_j = 0] (an identity reflector) leaves column [j] of [T] zero. *)
Theorem CompactWY_diagonal {B : Type} (m n : nat) (precision : Precision)
    (vs : Matrices B) (taus : Vectors B) (b : B) (j : nat) :
  (j < n)%nat ->
  CompactWY_T m n precision vs taus b j j = - taus b j /\
  (taus b j = 0 ->
   forall r, CompactWY_T m n precision vs taus b r j = 0).
Proof.
  intros Hj. split.
  - rewrite wy_final_column by assumption.
    rewrite Nat.eqb_refl, Reduce_all_zero.
    + cbn. ring.
    + intros l Hl. rewrite wy_upper_triangular by lia. ring.
  - intros Ht r. rewrite wy_final_column by assumption. rewrite Ht. ring.
Qed.

Lemma CompactWY_diagonal_witness :
  (1 < 2)%nat /\
  CompactWY_T 2 2 HIGHEST y_2x2 tau_2x2 tt 1%nat 1%nat = - tau_2x2 tt 1%nat.
Proof.
  split; [lia|].
  destruct (CompactWY_diagonal 2 2 HIGHEST y_2x2 tau_2x2 tt 1 ltac:(lia))
    as [H _].
  exact H.
Defined.

(** ** The block driver factorizes *)

Lemma Reduce_shift (i k : nat) (f : nat -> R) :
  Reduce (i + k) f 0 = Reduce i f 0 + Reduce k (fun t => f (i + t)%nat) 0.
Proof.
  induction k as [|k IH].
  - rewrite Nat.add_0_r. simpl. lra.
  - rewrite Nat.add_succ_r. simpl. rewrite IH. lra.
Qed.

Lemma rows_with_minor_dims s r c x :
  op_shape x = Op.with_minor_dims s r c -> Op.rows x = r.
Proof. intros E. unfold Op.rows. rewrite E. apply GetDimension_rows. Qed.

Lemma cols_with_minor_dims s r c x :
  op_shape x = Op.with_minor_dims s r c -> Op.cols x = c.
Proof. intros E. unfold Op.cols. rewrite E. apply GetDimension_cols. Qed.

Lemma rows_SliceInMinorDims x r0 c0 r1 c1 :
  Op.rows (Op.SliceInMinorDims x r0 c0 r1 c1) = (r1 - r0)%nat.
Proof. eapply rows_with_minor_dims. reflexivity. Qed.

Lemma cols_SliceInMinorDims x r0 c0 r1 c1 :
  Op.cols (Op.SliceInMinorDims x r0 c0 r1 c1) = (c1 - c0)%nat.
Proof. eapply cols_with_minor_dims. reflexivity. Qed.

Lemma rows_BatchDot x tx y ty precision :
  Op.rows (Op.BatchDot x tx y ty precision)
  = if tx then Op.cols x else Op.rows x.
Proof. eapply rows_with_minor_dims. reflexivity. Qed.

Lemma cols_BatchDot x tx y ty precision :
  Op.cols (Op.BatchDot x tx y ty precision)
  = if ty then Op.rows y else Op.cols y.
Proof. eapply cols_with_minor_dims. reflexivity. Qed.

Lemma UpdateSlice_value (x u : XlaOp) r0 c0 env b r c :
  op_value (Op.UpdateSliceInMinorDims x u r0 c0) env b r c
  = if (Nat.leb r0 r && Nat.ltb r (r0 + Op.rows u)
        && Nat.leb c0 c && Nat.ltb c (c0 + Op.cols u))%bool
    then op_value u env b (r - r0)%nat (c - c0)%nat
    else op_value x env b r c.
Proof. reflexivity. Qed.

Lemma Y_T_Yt_entry {B : Type} (k : nat) (Y T : Matrices B) b s r :
  Y_T_Yt k Y T b s r
  = Reduce k (fun i => Y b s i * Reduce k (fun l => Y b r l * T b i l) 0) 0.
Proof.
  unfold Y_T_Yt, BatchDot, BatchDot4, Transposed.
  rewrite (Reduce_ext k _ (fun l =>
             Reduce k (fun i => Y b s i * (Y b r l * T b i l)) 0)).
  - rewrite Reduce_swap. apply Reduce_ext. intros i _.
    now rewrite Reduce_scal.
  - intros l _. rewrite <- Reduce_scal_r. apply Reduce_ext. intros i _. ring.
Qed.

Lemma wy_product_matrix {B : Type} (m k : nat) (precision : Precision)
    (Y : Matrices B) (taus : Vectors B) b s r :
  (s < m)%nat -> (r < m)%nat ->
  reflector_product m Y taus k b s r
  = ConvertElementType (Nat.eqb s r)
    + Y_T_Yt k Y (CompactWY_T m k precision Y taus) b s r.
Proof.
  intros Hs Hr.
  rewrite (wy_product_invariant m k precision Y taus b k s r) by lia.
  now rewrite <- wy_YTYt.
Qed.

(** [P + (Y T^T) (Y^T P) = (I + Y T Y^T)^T P = H_(k-1) ... H_0 P]. *)
Lemma wy_update_left {B : Type} (m k : nat) (precision : Precision)
    (Y : Matrices B) (taus : Vectors B) (P : Matrices B) b r c :
  (r < m)%nat ->
  let T := CompactWY_T m k precision Y taus in
  P b r c
  + Reduce k (fun l =>
      Reduce k (fun l2 => Y b r l2 * T b l l2) 0
      * Reduce m (fun s => Y b s l * P b s c) 0) 0
  = reflect_left m Y taus k P b r c.
Proof.
  intros Hr T. rewrite <- product_transpose_acts by assumption.
  rewrite (Reduce_ext m _ (fun s =>
             ConvertElementType (Nat.eqb r s) * P b s c
             + Reduce k (fun i =>
                 Reduce k (fun l => Y b r l * T b i l) 0
                 * (Y b s i * P b s c)) 0)).
  - rewrite Reduce_plus, Reduce_delta_l by assumption. f_equal.
    rewrite Reduce_swap. apply Reduce_ext. intros i _.
    now rewrite Reduce_scal.
  - intros s Hs.
    rewrite (wy_product_matrix m k precision) by assumption.
    rewrite Y_T_Yt_entry. fold T. rewrite (Nat.eqb_sym s r).
    rewrite Rmult_plus_distr_r. f_equal.
    rewrite <- Reduce_scal_r. apply Reduce_ext. intros i _. ring.
Qed.

(** [Q + (Q Y) (Y T^T)^T = Q (I + Y T Y^T) = Q H_0 ... H_(k-1)]. *)
Lemma wy_update_right {B : Type} (m k : nat) (precision : Precision)
    (Y : Matrices B) (taus : Vectors B) (Q : Matrices B) b r c :
  (c < m)%nat ->
  let T := CompactWY_T m k precision Y taus in
  Q b r c
  + Reduce k (fun l =>
      Reduce m (fun s => Q b r s * Y b s l) 0
      * Reduce k (fun l2 => Y b c l2 * T b l l2) 0) 0
  = Reduce m (fun s => Q b r s * reflector_product m Y taus k b s c) 0.
Proof.
  intros Hc T.
  rewrite (Reduce_ext m _ (fun s =>
             Q b r s * ConvertElementType (Nat.eqb s c)
             + Reduce k (fun i =>
                 (Q b r s * Y b s i)
                 * Reduce k (fun l => Y b c l * T b i l) 0) 0)).
  - rewrite Reduce_plus, Reduce_delta by assumption. f_equal.
    rewrite Reduce_swap. apply Reduce_ext. intros i _.
    now rewrite Reduce_scal_r.
  - intros s Hs.
    rewrite (wy_product_matrix m k precision) by assumption.
    rewrite Y_T_Yt_entry. fold T.
    rewrite Rmult_plus_distr_l. f_equal.
    rewrite <- Reduce_scal. apply Reduce_ext. intros i _. ring.
Qed.

Lemma rows_Add x y : Op.rows (Op.Add x y) = Op.rows y.
Proof. reflexivity. Qed.
Lemma cols_Add x y : Op.cols (Op.Add x y) = Op.cols y.
Proof. reflexivity. Qed.

Lemma QrBlock_slice_ok (ShapeToString : Shape -> string) (x : XlaOp)
    (r0 c0 r1 c1 : nat) (precision : Precision) :
  (2 <= rank (op_shape x))%nat -> (c1 - c0 <= r1 - r0)%nat ->
  let panel : Tensor -> Matrices (list nat) :=
    fun env b r c => op_value x env b (r0 + r)%nat (c0 + c)%nat in
  exists taus_shape,
    QrExpander.QrBlock ShapeToString (Op.SliceInMinorDims x r0 c0 r1 c1)
      precision
    = Ok (QrExpander.MakeQrResult
            (MakeOp (Op.with_minor_dims (op_shape x) (r1 - r0) (c1 - c0))
               (fun env =>
                  fst (qr_loop (r1 - r0) (c1 - c0) precision (panel env)))
               (op_dots x ++ [precision; precision]))
            (MakeVec taus_shape
               (fun env =>
                  snd (qr_loop (r1 - r0) (c1 - c0) precision (panel env)))
               (op_dots x ++ [precision; precision]))).
Proof.
  intros H Htall panel.
  destruct (QrBlock_ok ShapeToString (Op.SliceInMinorDims x r0 c0 r1 c1)
              precision) as [ts E].
  { rewrite rank_SliceInMinorDims; assumption. }
  { now apply SliceInMinorDims_tall. }
  exists ts. rewrite E. cbn [Op.SliceInMinorDims op_shape op_value].
  unfold Op.with_minor_dims. rewrite GetDimension_rows, GetDimension_cols.
  reflexivity.
Qed.

Section BlockValues.

Variable ShapeToString : Shape -> string.
Variable type : PrimitiveType.
Variable batch_dims : list nat.
Variables m n p block_size : nat.
Variable precision : Precision.

Local Abbreviation block_step :=
  (QrExpander.block_step ShapeToString type batch_dims m n p block_size
     precision).

Lemma block_step_values i a q a' q' :
  (2 <= rank (op_shape a))%nat -> (i < p)%nat -> (p <= m)%nat -> (p <= n)%nat ->
  block_step i a q = Ok (a', q') ->
  let k := Nat.min block_size (p - i) in
  op_shape q' = op_shape q /\
  forall env b,
    let panel : Matrices (list nat) :=
      fun b r c => op_value a env b (i + r)%nat (i + c)%nat in
    let trailing : Matrices (list nat) :=
      fun b r c => op_value a env b (i + r)%nat (i + k + c)%nat in
    let packed := fst (qr_loop (m - i) k precision panel) in
    let taus := snd (qr_loop (m - i) k precision panel) in
    let Y := unit_lower packed in
    (forall r c, (r < i)%nat -> op_value a' env b r c = op_value a env b r c) /\
    (forall r c, (i <= r)%nat -> (r < m)%nat -> (i + k <= c)%nat -> (c < n)%nat ->
       op_value a' env b r c
       = reflect_left (m - i) Y taus k trailing b (r - i)%nat (c - i - k)%nat) /\
    (forall r c, (c < i)%nat -> op_value q' env b r c = op_value q env b r c) /\
    (forall r c, (r < m)%nat -> (i <= c)%nat -> (c < m)%nat ->
       op_value q' env b r c
       = Reduce (m - i) (fun s =>
           op_value q env b r (i + s)%nat
           * reflector_product (m - i) Y taus k b s (c - i)%nat) 0).
Proof.
  intros Ha Hi Hpm Hpn E. cbv zeta. unfold QrExpander.block_step in E.
  set (k := Nat.min block_size (p - i)) in *.
  destruct (QrBlock_slice_ok ShapeToString a i i m (i + k) precision Ha
              ltac:(lia))
    as [ts Eq].
  rewrite Eq in E. clear Eq.
  replace (i + k - i)%nat with k in E by lia.
  cbn [assign_or_return QrExpander.CompactWYRepresentation QrExpander.a
         QrExpander.taus] in E.
  set (qa := MakeOp (Op.with_minor_dims (op_shape a) (m - i) k) _ _) in E.
  set (y := Op.Add (Op.IdentityMatrix type [] (m - i) k)
              (Op.StrictLowerTriangle qa)) in E.
  set (t := MakeOp (MakeShape type (batch_dims ++ [k; k])) _ _) in E.
  set (yt := Op.BatchDot y false t true precision) in E.
  set (a1 := Op.UpdateSliceInMinorDims a qa i i) in E.
  set (a_panel := Op.SliceInMinorDims a1 i (i + k) m n) in E.
  set (q_panel := Op.SliceInMinorDims q 0 i m m) in E.
  injection E as <- <-.
  assert (Rqa : Op.rows qa = (m - i)%nat) by apply GetDimension_rows.
  assert (Cqa : Op.cols qa = k) by apply GetDimension_cols.
  assert (Ry : Op.rows y = (m - i)%nat) by exact Rqa.
  assert (Cy : Op.cols y = k) by exact Cqa.
  assert (Rt : Op.rows t = k) by apply GetDimension_rows.
  assert (Ryt : Op.rows yt = (m - i)%nat)
    by (unfold yt; now rewrite rows_BatchDot).
  assert (Cyt : Op.cols yt = k) by (unfold yt; now rewrite cols_BatchDot).
  assert (Rap : Op.rows a_panel = (m - i)%nat) by apply rows_SliceInMinorDims.
  assert (Cap : Op.cols a_panel = (n - (i + k))%nat)
    by apply cols_SliceInMinorDims.
  assert (Rqp : Op.rows q_panel = (m - 0)%nat) by apply rows_SliceInMinorDims.
  assert (Cqp : Op.cols q_panel = (m - i)%nat) by apply cols_SliceInMinorDims.
  split; [reflexivity|].
  intros env b.
  assert (Hk : (i + k <= p)%nat) by lia.
  repeat split.
  - intros r c Hr. rewrite UpdateSlice_outside by lia. unfold a1.
    rewrite UpdateSlice_outside by lia. reflexivity.
  - intros r c H1 H2 H3 H4.
    rewrite UpdateSlice_inside;
      rewrite ?rows_Add, ?cols_Add, ?rows_BatchDot, ?cols_BatchDot, ?Ryt, ?Cap;
      try lia.
    replace (c - i - k)%nat with (c - (i + k))%nat by lia.
    set (r' := (r - i)%nat). set (c' := (c - (i + k))%nat).
    rewrite <- (wy_update_left (m - i) k precision) by lia.
    cbv zeta.
    assert (HP : forall s, op_value a_panel env b s c'
                           = op_value a env b (i + s)%nat (i + k + c')%nat).
    { intros s. unfold a_panel, a1. cbn [Op.SliceInMinorDims op_value].
      rewrite UpdateSlice_value, Cqa.
      destruct (Nat.ltb_spec (i + k + c') (i + k)); [lia|].
      now rewrite andb_false_r. }
    unfold Op.Add at 1. cbn [op_value]. rewrite HP. f_equal.
    unfold Op.BatchDot at 1. cbn [op_value]. rewrite Cyt.
    unfold BatchDot4, Transposed. apply Reduce_ext. intros l Hl. f_equal.
    + unfold yt, Op.BatchDot. cbn [op_value]. rewrite Cy.
      unfold BatchDot4, Transposed. reflexivity.
    + unfold Op.BatchDot. cbn [op_value]. rewrite Ry.
      unfold BatchDot4, Transposed. apply Reduce_ext. intros s Hs.
      rewrite HP. reflexivity.
  - intros r c Hc. rewrite UpdateSlice_outside by lia. reflexivity.
  - intros r c H1 H2 H3.
    rewrite UpdateSlice_inside;
      rewrite ?rows_Add, ?cols_Add, ?rows_BatchDot, ?cols_BatchDot, ?Ryt, ?Rqp;
      try lia.
    rewrite Nat.sub_0_r.
    set (c' := (c - i)%nat).
    rewrite <- (wy_update_right (m - i) k precision _ _
                  (fun b r s => op_value q env b r (i + s)%nat)) by lia.
    cbv zeta.
    unfold Op.Add at 1. cbn [op_value]. f_equal.
    unfold Op.BatchDot at 1. cbn [op_value].
    rewrite cols_BatchDot, Cy.
    unfold BatchDot4, Transposed. apply Reduce_ext. intros l Hl. f_equal.
    + unfold Op.BatchDot. cbn [op_value]. rewrite Cqp.
      unfold BatchDot4, Transposed. reflexivity.
    + unfold yt, Op.BatchDot. cbn [op_value]. rewrite Cy.
      unfold BatchDot4, Transposed. reflexivity.
Qed.

End BlockValues.

Lemma upper_entry {B : Type} (A : Matrices B) b r c :
  upper A b r c = if Nat.ltb c r then 0 else A b r c.
Proof.
  unfold upper, Select, ZerosLike, TriangleMask, Iota.
  destruct (Z.leb_spec (Z.of_nat c) (Z.of_nat r + -1));
    destruct (Nat.ltb_spec c r); try lia; reflexivity.
Qed.

Lemma Reduce_mul (n k : nat) (f g : nat -> R) :
  Reduce n f 0 * Reduce k g 0
  = Reduce n (fun s => Reduce k (fun u => f s * g u) 0) 0.
Proof.
  rewrite <- Reduce_scal_r. apply Reduce_ext. intros s _.
  now rewrite Reduce_scal.
Qed.

Lemma Reduce_split (m i : nat) (f : nat -> R) :
  (i <= m)%nat ->
  Reduce m f 0 = Reduce i f 0 + Reduce (m - i) (fun t => f (i + t)%nat) 0.
Proof.
  intros H. rewrite <- Reduce_shift. f_equal. lia.
Qed.

Lemma reflect_left_column {B : Type} (m : nat) (Y : Matrices B)
    (taus : Vectors B) (k : nat) (A A' : Matrices B) b c c' :
  (forall l, (l < m)%nat -> A b l c = A' b l c') ->
  forall r, (r < m)%nat ->
    reflect_left m Y taus k A b r c = reflect_left m Y taus k A' b r c'.
Proof.
  intros HA. induction k as [|k IH]; intros r Hr; [now apply HA|].
  cbn [reflect_left]. apply apply_reflector_ext; try assumption; reflexivity.
Qed.

Section BlockInvariant.

Context {B : Type}.
Variables m n : nat.
Variable precision : Precision.
Variable A0 : Matrices B.
Variable b : B.

Local Abbreviation invariant := (qr_invariant m n A0 b).

Lemma qr_invariant_initial : invariant 0%nat A0 IdentityMatrix.
Proof.
  unfold qr_invariant, IdentityMatrix. repeat split; intros r c Hr Hc.
  - now rewrite Reduce_delta_l.
  - rewrite (Reduce_delta_l m r (fun l => ConvertElementType (Nat.eqb c l)))
      by assumption.
    now rewrite Nat.eqb_sym.
  - rewrite (Reduce_ext m _ (fun l =>
               ConvertElementType (Nat.eqb r l) * ConvertElementType (Nat.eqb l c)))
      by (intros; now rewrite (Nat.eqb_sym r)).
    now rewrite Reduce_delta_l.
Qed.

Variables i k i' : nat.
Variables A Q A' Q' : Matrices B.

Local Abbreviation panel := (fun b' r c => A b' (i + r)%nat (i + c)%nat).
Local Abbreviation trailing := (fun b' r c => A b' (i + r)%nat (i + k + c)%nat).
Local Abbreviation packed := (fst (qr_loop (m - i) k precision panel)).
Local Abbreviation taus := (snd (qr_loop (m - i) k precision panel)).
Local Abbreviation Y := (unit_lower packed).
Local Abbreviation Qb := (reflector_product (m - i) Y taus k).

Hypothesis Hik : (i + k <= Nat.min m n)%nat.
Hypothesis Hi' : (i + k <= i')%nat.
Hypothesis Hlast : (i + k = i' \/ i + k = Nat.min m n)%nat.
Hypothesis Ha_cols : forall r c, (c < i)%nat -> A' b r c = A b r c.
Hypothesis Ha_rows : forall r c, (r < i)%nat -> A' b r c = A b r c.
Hypothesis Ha_block :
  forall r c, (i <= r)%nat -> (r < m)%nat -> (i <= c)%nat -> (c < i + k)%nat ->
    A' b r c = packed b (r - i)%nat (c - i)%nat.
Hypothesis Ha_trailing :
  forall r c, (i <= r)%nat -> (r < m)%nat -> (i + k <= c)%nat -> (c < n)%nat ->
    A' b r c = reflect_left (m - i) Y taus k trailing b (r - i)%nat (c - i - k)%nat.
Hypothesis Hq_cols : forall r c, (c < i)%nat -> Q' b r c = Q b r c.
Hypothesis Hq_block :
  forall r c, (r < m)%nat -> (i <= c)%nat -> (c < m)%nat ->
    Q' b r c
    = Reduce (m - i) (fun s => Q b r (i + s)%nat * Qb b s (c - i)%nat) 0.

Lemma min_panel : Nat.min (m - i) k = k.
Proof. clear - Hik. lia. Qed.

(** Below row [i] the new work matrix, without the reflector vectors, is
    [H_(k-1) ... H_0] applied to the old one. *)
Lemma block_reflects_column (l c : nat) :
  (i <= l)%nat -> (l < m)%nat -> (i <= c)%nat -> (c < n)%nat ->
  finished_upper i' A' b l c
  = reflect_left (m - i) Y taus k (fun b' r _ => A b' (i + r)%nat c) b
      (l - i)%nat 0%nat.
Proof.
  intros H1 H2 H3 H4. unfold finished_upper. rewrite upper_entry.
  destruct (Nat.ltb_spec c (i + k)) as [Hc|Hc].
  - destruct (Nat.ltb_spec c i'); [|lia].
    rewrite Ha_block by assumption.
    rewrite (reflect_left_column (m - i) Y taus k _ panel b 0 (c - i))
      by (try lia; intros; cbv beta; f_equal; lia).
    pose proof (panel_upper (m - i) k precision panel b (l - i) (c - i)
                  ltac:(lia) ltac:(lia)) as E.
    rewrite min_panel in E. rewrite E, upper_entry.
    destruct (Nat.ltb_spec c l); destruct (Nat.ltb_spec (c - i) (l - i));
      try lia; reflexivity.
  - assert (E : (if Nat.ltb c i' then if Nat.ltb c l then 0 else A' b l c
                 else A' b l c) = A' b l c).
    { destruct (Nat.ltb_spec c i'); [|reflexivity].
      destruct (Nat.ltb_spec c l); [lia | reflexivity]. }
    rewrite E, Ha_trailing by assumption.
    apply reflect_left_column; [|lia].
    intros s Hs. cbv beta. f_equal. lia.
Qed.

Lemma block_keeps_product (r c : nat) :
  (r < m)%nat -> (c < n)%nat ->
  Reduce m (fun l => Q' b r l * finished_upper i' A' b l c) 0
  = Reduce m (fun l => Q b r l * finished_upper i A b l c) 0.
Proof.
  intros Hr Hc. destruct (Nat.lt_ge_cases c i) as [Hci|Hci].
  - apply Reduce_ext. intros l Hl. unfold finished_upper.
    destruct (Nat.ltb_spec c i); [|lia]. destruct (Nat.ltb_spec c i'); [|lia].
    rewrite !upper_entry. destruct (Nat.ltb_spec c l) as [Hcl|Hcl]; [ring|].
    rewrite Hq_cols, Ha_cols by lia. reflexivity.
  - rewrite (Reduce_split m i) by lia.
    rewrite (Reduce_split m i (fun l => Q b r l * _)) by lia.
    f_equal.
    + apply Reduce_ext. intros l Hl. rewrite Hq_cols by assumption.
      unfold finished_upper. rewrite !upper_entry.
      destruct (Nat.ltb_spec c i); [lia|]. destruct (Nat.ltb_spec c l); [lia|].
      rewrite Ha_rows by assumption.
      destruct (c <? i')%nat; reflexivity.
    + rewrite (Reduce_ext (m - i) _ (fun t =>
                 Reduce (m - i) (fun s =>
                   Q b r (i + s)%nat
                   * (Qb b s t
                      * reflect_left (m - i) Y taus k
                          (fun b' r0 _ => A b' (i + r0)%nat c) b t 0%nat)) 0)).
      * rewrite Reduce_swap. apply Reduce_ext. intros s Hs.
        rewrite Reduce_scal. f_equal.
        -- unfold finished_upper. destruct (Nat.ltb_spec c i); [lia|].
           pose proof (product_undoes_reflect_left (m - i) k precision panel b k
                         (fun b' r0 _ => A b' (i + r0)%nat c) s 0%nat
                         ltac:(lia) Hs) as E.
           cbv beta in E. rewrite <- E. reflexivity.
      * intros t Ht. rewrite block_reflects_column by lia.
        rewrite Hq_block by lia.
        replace (i + t - i)%nat with t by lia.
        rewrite <- Reduce_scal_r. apply Reduce_ext. intros s _. ring.
Qed.

Lemma block_Q_rows (r c : nat) :
  (r < m)%nat -> (c < m)%nat ->
  Reduce m (fun l => Q' b r l * Q' b c l) 0
  = Reduce m (fun l => Q b r l * Q b c l) 0.
Proof.
  intros Hr Hc.
  rewrite (Reduce_split m i) by lia.
  rewrite (Reduce_split m i (fun l => Q b r l * _)) by lia.
  f_equal.
  - apply Reduce_ext. intros l Hl. now rewrite !Hq_cols.
  - rewrite (Reduce_ext (m - i) _ (fun t =>
               Reduce (m - i) (fun s =>
                 Reduce (m - i) (fun u =>
                   (Q b r (i + s)%nat * Q b c (i + u)%nat)
                   * (Qb b s t * Qb b u t)) 0) 0)).
    + rewrite Reduce_swap. apply Reduce_ext. intros s Hs.
      rewrite Reduce_swap.
      rewrite (Reduce_ext (m - i) _ (fun u =>
                 (Q b r (i + s)%nat * Q b c (i + u)%nat)
                 * ConvertElementType (Nat.eqb u s))).
      * rewrite (Reduce_delta (m - i) s
                   (fun u => Q b r (i + s)%nat * Q b c (i + u)%nat))
          by assumption.
        reflexivity.
      * intros u Hu. rewrite Reduce_scal. f_equal.
        pose proof (panel_Q_rows (m - i) k precision panel b s u Hs Hu) as E.
        rewrite min_panel in E. rewrite E. now rewrite Nat.eqb_sym.
    + intros t Ht. rewrite !Hq_block by lia.
      replace (i + t - i)%nat with t by lia.
      rewrite Reduce_mul. apply Reduce_ext. intros s _.
      apply Reduce_ext. intros u _. ring.
Qed.

Lemma block_Q_columns (r c : nat) :
  invariant i A Q ->
  (r < m)%nat -> (c < m)%nat ->
  Reduce m (fun l => Q' b l r * Q' b l c) 0 = ConvertElementType (Nat.eqb r c).
Proof.
  intros (_ & _ & Hcols) Hr Hc.
  assert (Hmixed : forall x y, (x < i)%nat -> (i <= y)%nat -> (y < m)%nat ->
            Reduce m (fun l => Q b l x
              * Reduce (m - i) (fun s =>
                  Q b l (i + s)%nat * Qb b s (y - i)%nat) 0) 0 = 0).
  { intros x y Hx Hy1 Hy2.
    rewrite (Reduce_ext m _ (fun l =>
               Reduce (m - i) (fun s =>
                 Qb b s (y - i)%nat * (Q b l x * Q b l (i + s)%nat)) 0)).
    - rewrite Reduce_swap. apply Reduce_all_zero. intros s Hs.
      rewrite Reduce_scal, Hcols by lia.
      destruct (Nat.eqb_spec x (i + s)); [lia|]. cbn. ring.
    - intros l _. rewrite <- Reduce_scal. apply Reduce_ext. intros s _. ring. }
  destruct (Nat.lt_ge_cases r i) as [Hri|Hri];
    destruct (Nat.lt_ge_cases c i) as [Hci|Hci].
  - rewrite <- (Hcols r c) by assumption.
    apply Reduce_ext. intros l _. now rewrite !Hq_cols.
  - destruct (Nat.eqb_spec r c); [lia|].
    etransitivity; [|apply (Hmixed r c); assumption].
    apply Reduce_ext. intros l Hl.
    rewrite Hq_cols, Hq_block by lia. reflexivity.
  - destruct (Nat.eqb_spec r c); [lia|].
    etransitivity; [|apply (Hmixed c r); assumption].
    apply Reduce_ext. intros l Hl.
    rewrite (Hq_cols l c), Hq_block by lia. ring.
  - rewrite (Reduce_ext m _ (fun l =>
               Reduce (m - i) (fun s =>
                 Reduce (m - i) (fun u =>
                   (Qb b s (r - i)%nat * Qb b u (c - i)%nat)
                   * (Q b l (i + s)%nat * Q b l (i + u)%nat)) 0) 0)).
    + rewrite Reduce_swap.
      rewrite (Reduce_ext (m - i) _ (fun s =>
                 Qb b s (r - i)%nat * Qb b s (c - i)%nat)).
      * pose proof (panel_Q_columns (m - i) k precision panel b
                      (r - i) (c - i) ltac:(lia) ltac:(lia)) as E.
        rewrite min_panel in E. rewrite E.
        destruct (Nat.eqb_spec (r - i) (c - i));
          destruct (Nat.eqb_spec r c); try lia; reflexivity.
      * intros s Hs. rewrite Reduce_swap.
        rewrite (Reduce_ext (m - i) _ (fun u =>
                   (Qb b s (r - i)%nat * Qb b u (c - i)%nat)
                   * ConvertElementType (Nat.eqb u s))).
        -- rewrite (Reduce_delta (m - i) s
                      (fun u => Qb b s (r - i)%nat * Qb b u (c - i)%nat))
             by assumption.
           reflexivity.
        -- intros u Hu. rewrite Reduce_scal, Hcols by lia. f_equal.
           destruct (Nat.eqb_spec (i + s) (i + u));
             destruct (Nat.eqb_spec u s); try lia; reflexivity.
    + intros l Hl. rewrite !Hq_block by lia.
      rewrite Reduce_mul. apply Reduce_ext. intros s _.
      apply Reduce_ext. intros u _. ring.
Qed.

Lemma qr_invariant_step : invariant i A Q -> invariant i' A' Q'.
Proof.
  intros Inv. pose proof Inv as (H1 & H2 & H3). repeat split; intros r c Hr Hc.
  - rewrite block_keeps_product by assumption. now apply H1.
  - rewrite block_Q_rows by assumption. now apply H2.
  - now apply block_Q_columns.
Qed.

End BlockInvariant.

Section DriverInvariant.

Variable ShapeToString : Shape -> string.
Variable type : PrimitiveType.
Variable batch_dims : list nat.
Variables m n block_size : nat.
Variable precision : Precision.

Local Abbreviation p := (Nat.min m n).
Local Abbreviation block_step :=
  (QrExpander.block_step ShapeToString type batch_dims m n p block_size
     precision).
Local Abbreviation block_loop :=
  (QrExpander.block_loop ShapeToString type batch_dims m n p block_size
     precision).

Lemma block_step_invariant i a q a' q' env b A0 :
  (2 <= rank (op_shape a))%nat -> (i < p)%nat ->
  block_step i a q = Ok (a', q') ->
  qr_invariant m n A0 b i (op_value a env) (op_value q env) ->
  qr_invariant m n A0 b (i + block_size) (op_value a' env) (op_value q' env).
Proof.
  intros Ha Hi E.
  destruct (block_step_inv ShapeToString type batch_dims m n p block_size
              precision i a q a' q' Ha E) as [_ Hv].
  destruct (block_step_values ShapeToString type batch_dims m n p block_size
              precision i a q a' q' Ha Hi ltac:(lia) ltac:(lia) E)
    as [_ Hw].
  specialize (Hw env b). cbv zeta in Hw.
  destruct Hw as (W1 & W2 & W3 & W4).
  apply (qr_invariant_step m n precision A0 b i
           (Nat.min block_size (p - i)) (i + block_size));
    try assumption; try lia.
  - intros r c Hc. now apply Hv.
  - intros r c H1 H2 H3 H4. now apply Hv.
Qed.

Lemma block_loop_invariant fuel : forall i a q a' q' env b A0,
  (2 <= rank (op_shape a))%nat ->
  block_loop fuel i a q = Ok (a', q') ->
  qr_invariant m n A0 b i (op_value a env) (op_value q env) ->
  exists i', (p <= i')%nat /\
    qr_invariant m n A0 b i' (op_value a' env) (op_value q' env).
Proof.
  induction fuel as [|fuel IH]; intros i a q a' q' env b A0 Ha E Inv;
    cbn [QrExpander.block_loop] in E;
    destruct (Nat.ltb_spec i p) as [Hi|Hi];
    try discriminate;
    try (injection E as <- <-; exists i; split; [exact Hi | exact Inv]).
  destruct (block_step i a q) as [[a1 q1]|status] eqn:Es; [|discriminate].
  cbn [assign_or_return fst snd] in E.
  destruct (block_step_inv ShapeToString type batch_dims m n p block_size
              precision i a q a1 q1 Ha Es) as [Hs _].
  apply (IH _ _ _ _ _ env b A0 ltac:(rewrite Hs; exact Ha) E).
  now apply (block_step_invariant i a q).
Qed.

Lemma block_loop_shapes fuel : forall i a q a' q',
  (2 <= rank (op_shape a))%nat ->
  block_loop fuel i a q = Ok (a', q') ->
  op_shape a' = op_shape a /\ op_shape q' = op_shape q.
Proof.
  induction fuel as [|fuel IH]; intros i a q a' q' Ha E;
    cbn [QrExpander.block_loop] in E;
    destruct (Nat.ltb_spec i p) as [Hi|Hi];
    try discriminate;
    try (injection E as <- <-; split; reflexivity).
  destruct (block_step i a q) as [[a1 q1]|status] eqn:Es; [|discriminate].
  cbn [assign_or_return fst snd] in E.
  destruct (block_step_inv ShapeToString type batch_dims m n p block_size
              precision i a q a1 q1 Ha Es) as [Hs _].
  destruct (block_step_values ShapeToString type batch_dims m n p block_size
              precision i a q a1 q1 Ha Hi ltac:(lia) ltac:(lia) Es)
    as [Hq _].
  destruct (IH _ _ _ _ _ ltac:(rewrite Hs; exact Ha) E) as [E1 E2].
  split; congruence.
Qed.

End DriverInvariant.

Lemma finished_upper_final {B : Type} (m n i : nat) (A : Matrices B) b l c :
  (Nat.min m n <= i)%nat -> (l < m)%nat -> (c < n)%nat ->
  finished_upper i A b l c = upper A b l c.
Proof.
  intros Hi Hl Hc. unfold finished_upper.
  destruct (Nat.ltb_spec c i); [reflexivity|].
  rewrite upper_entry. destruct (Nat.ltb_spec c l); [lia | reflexivity].
Qed.

Lemma map_nth_seq (l : list nat) : forall k,
  (k <= length l)%nat -> map (fun i => nth i l O) (seq 0 k) = firstn k l.
Proof.
  induction l as [|x l IH]; intros k Hk.
  - cbn in Hk. replace k with O by lia. reflexivity.
  - destruct k as [|k]; [reflexivity|].
    cbn [seq map firstn nth]. f_equal.
    rewrite <- seq_shift, map_map. apply IH. cbn in Hk. lia.
Qed.

(** The batch dimensions the driver reads one by one are the dimensions
    before the two minor ones. *)
Lemma batch_dims_prefix (s : Shape) :
  map (fun i => GetDimension s (Z.of_nat i)) (seq 0 (rank s - 2))
  = Op.batch_dims_of s.
Proof.
  unfold Op.batch_dims_of, GetDimension, rank.
  rewrite <- map_nth_seq by lia.
  apply map_ext. intros i.
  destruct (Z.ltb_spec (Z.of_nat i) 0); [lia|]. now rewrite Nat2Z.id.
Qed.

Section DriverFactorization.

Variable ShapeToString : Shape -> string.

Lemma driver_invariant (a : XlaOp) (block_size : Z) (precision : Precision)
    (q r : XlaOp) :
  let m := GetDimension (op_shape a) (-2) in
  let n := GetDimension (op_shape a) (-1) in
  QrExpander.BuildQrDecomposition ShapeToString a block_size precision
  = Ok (q, r) ->
  op_shape q
  = MakeShape (element_type (op_shape a))
      (Op.batch_dims_of (op_shape a) ++ [m; m]) /\
  op_shape r = op_shape a /\
  forall env b,
    (forall r0 c, op_value r env b r0 c = upper (op_value r env) b r0 c) /\
    exists i A,
      (Nat.min m n <= i)%nat /\
      (forall l c, op_value r env b l c = upper A b l c) /\
      qr_invariant m n (op_value a env) b i A (op_value q env).
Proof.
  cbv zeta. intros E.
  unfold QrExpander.BuildQrDecomposition in E.
  destruct (Nat.ltb_spec (rank (op_shape a)) 2) as [|Hr]; [discriminate|].
  destruct (Z.ltb_spec block_size 1) as [|Hb]; [discriminate|].
  match type of E with
  | assign_or_return ?loop _ = _ => destruct loop as [[a_f q_f]|] eqn:El
  end; [|discriminate].
  cbn [assign_or_return fst snd] in E. injection E as <- <-.
  destruct (block_loop_shapes ShapeToString _ _ _ _ _ _ _ _ _ _ _ _ Hr El)
    as [Sa Sq].
  split; [|split].
  - rewrite Sq. cbn [Op.IdentityMatrix op_shape]. now rewrite batch_dims_prefix.
  - exact Sa.
  - intros env b. split.
    + intros r0 c. cbn [Op.UpperTriangle op_value].
      rewrite !upper_entry. fold (upper (op_value a_f env) b r0 c).
      rewrite upper_entry. destruct (Nat.ltb c r0); reflexivity.
    + destruct (block_loop_invariant ShapeToString _ _ _ _ _ _ _ _ _ _ _ _
                  env b (op_value a env) Hr El) as (i' & Hi' & Inv).
      { apply qr_invariant_initial. }
      exists i', (op_value a_f env). split; [exact Hi'|].
      split; [reflexivity | exact Inv].
Qed.

End DriverFactorization.

(** The block driver factorizes its input: on success the returned [Q]
    times the returned [R] is the input matrix, in every batch and for every
    value of the parameter. *)
Theorem BuildQrDecomposition_reconstructs (ShapeToString : Shape -> string)
    (a : XlaOp) (block_size : Z) (precision : Precision) (q r : XlaOp)
    (env : Tensor) (b : list nat) (r0 c : nat) :
  let m := GetDimension (op_shape a) (-2) in
  let n := GetDimension (op_shape a) (-1) in
  QrExpander.BuildQrDecomposition ShapeToString a block_size precision
  = Ok (q, r) ->
  (r0 < m)%nat -> (c < n)%nat ->
  BatchDot m (op_value q env) (op_value r env) precision b r0 c
  = op_value a env b r0 c.
Proof.
  cbv zeta. intros E Hr Hc.
  destruct (driver_invariant ShapeToString a block_size precision q r E)
    as (_ & _ & H).
  destruct (H env b) as (_ & i & A & Hi & HR & Inv & _).
  rewrite <- (Inv r0 c Hr Hc).
  unfold BatchDot, BatchDot4, Transposed. apply Reduce_ext. intros l Hl.
  rewrite HR. now rewrite (finished_upper_final _ _ i A b l c Hi Hl Hc).
Qed.

Lemma BuildQrDecomposition_reconstructs_witness :
  exists q r,
    QrExpander.BuildQrDecomposition render_shape
      (Parameter0 (MakeShape F32 [2; 2]%nat)) 128 HIGHEST = Ok (q, r) /\
    (1 < 2)%nat /\ (0 < 2)%nat /\
    BatchDot 2 (op_value q eye_2_env) (op_value r eye_2_env) HIGHEST [] 1%nat
      0%nat
    = 0.
Proof.
  destruct (driver_ok render_shape
              (Parameter0 (MakeShape F32 [2; 2]%nat)) 128 HIGHEST
              ltac:(cbn; lia) ltac:(lia)) as [[q r] E].
  exists q, r. split; [exact E|]. split; [lia|]. split; [lia|].
  apply (BuildQrDecomposition_reconstructs render_shape
           (Parameter0 (MakeShape F32 [2; 2]%nat)) 128 HIGHEST q r eye_2_env
           [] 1 0 E); vm_compute; lia.
Defined.

(** The [Q] that the block driver returns is orthogonal: [Q^T Q] and
    [Q Q^T] are the [m x m] identity. *)
Theorem BuildQrDecomposition_Q_orthogonal (ShapeToString : Shape -> string)
    (a : XlaOp) (block_size : Z) (precision : Precision) (q r : XlaOp)
    (env : Tensor) (b : list nat) (r0 c : nat) :
  let m := GetDimension (op_shape a) (-2) in
  QrExpander.BuildQrDecomposition ShapeToString a block_size precision
  = Ok (q, r) ->
  (r0 < m)%nat -> (c < m)%nat ->
  let Q := op_value q env in
  BatchDot4 m Q true Q false precision b r0 c = IdentityMatrix b r0 c /\
  BatchDot4 m Q false Q true precision b r0 c = IdentityMatrix b r0 c.
Proof.
  cbv zeta. intros E Hr Hc.
  destruct (driver_invariant ShapeToString a block_size precision q r E)
    as (_ & _ & H).
  destruct (H env b) as (_ & i & A & _ & _ & _ & Hrows & Hcols).
  unfold BatchDot4, Transposed, IdentityMatrix. split.
  - now apply Hcols.
  - now apply Hrows.
Qed.

Lemma BuildQrDecomposition_Q_orthogonal_witness :
  exists q r,
    QrExpander.BuildQrDecomposition render_shape
      (Parameter0 (MakeShape F32 [2; 2]%nat)) 128 HIGHEST = Ok (q, r) /\
    (1 < 2)%nat /\ (1 < 2)%nat /\
    BatchDot4 2 (op_value q eye_2_env) true (op_value q eye_2_env) false
      HIGHEST [] 1%nat 1%nat
    = 1.
Proof.
  destruct (driver_ok render_shape
              (Parameter0 (MakeShape F32 [2; 2]%nat)) 128 HIGHEST
              ltac:(cbn; lia) ltac:(lia)) as [[q r] E].
  exists q, r. split; [exact E|]. split; [lia|]. split; [lia|].
  destruct (BuildQrDecomposition_Q_orthogonal render_shape
              (Parameter0 (MakeShape F32 [2; 2]%nat)) 128 HIGHEST q r
              eye_2_env [] 1 1 E ltac:(vm_compute; lia) ltac:(vm_compute; lia))
    as [H _].
  exact H.
Defined.

(** The results of the block driver: [Q] has the batch dimensions of the
    input followed by [m, m] (a full, square [Q], also when [m > n]), [R]
    has the shape of the input, and [R] is zero below the diagonal. *)
Theorem BuildQrDecomposition_result (ShapeToString : Shape -> string)
    (a : XlaOp) (block_size : Z) (precision : Precision) (q r : XlaOp) :
  let m := GetDimension (op_shape a) (-2) in
  QrExpander.BuildQrDecomposition ShapeToString a block_size precision
  = Ok (q, r) ->
  op_shape q
  = MakeShape (element_type (op_shape a))
      (Op.batch_dims_of (op_shape a) ++ [m; m]) /\
  op_shape r = op_shape a /\
  forall env b r0 c, (c < r0)%nat -> op_value r env b r0 c = 0.
Proof.
  cbv zeta. intros E.
  destruct (driver_invariant ShapeToString a block_size precision q r E)
    as (Sq & Sr & H).
  split; [exact Sq|]. split; [exact Sr|].
  intros env b r0 c Hc. destruct (H env b) as (Hu & _).
  rewrite Hu, upper_entry. destruct (Nat.ltb_spec c r0); [reflexivity | lia].
Qed.

Lemma BuildQrDecomposition_result_witness :
  exists q r,
    QrExpander.BuildQrDecomposition render_shape
      (Parameter0 (MakeShape F32 [5; 3; 2]%nat)) 128 HIGHEST = Ok (q, r) /\
    op_shape q = MakeShape F32 [5; 3; 3]%nat /\
    op_shape r = MakeShape F32 [5; 3; 2]%nat.
Proof.
  destruct (driver_ok render_shape
              (Parameter0 (MakeShape F32 [5; 3; 2]%nat)) 128 HIGHEST
              ltac:(cbn; lia) ltac:(lia)) as [[q r] E].
  exists q, r. split; [exact E|].
  destruct (BuildQrDecomposition_result render_shape
              (Parameter0 (MakeShape F32 [5; 3; 2]%nat)) 128 HIGHEST q r E)
    as (Sq & Sr & _).
  split; [exact Sq | exact Sr].
Defined.

(** ** More on the panel emitter and the driver *)



(** Empty input: when the matrix has no row or no column the driver runs
    no block and returns the [m x m] identity as [Q] and the upper triangle
    of the input as [R]. *)
Theorem BuildQrDecomposition_empty (ShapeToString : Shape -> string)
    (a : XlaOp) (block_size : Z) (precision : Precision) :
  let m := GetDimension (op_shape a) (-2) in
  let n := GetDimension (op_shape a) (-1) in
  (2 <= rank (op_shape a))%nat -> (1 <= block_size)%Z ->
  (m = 0 \/ n = 0)%nat ->
  QrExpander.BuildQrDecomposition ShapeToString a block_size precision
  = Ok (Op.IdentityMatrix (element_type (op_shape a))
          (Op.batch_dims_of (op_shape a)) m m,
        Op.UpperTriangle a).
Proof.
  cbv zeta. intros Hr Hb Hz. unfold QrExpander.BuildQrDecomposition.
  destruct (Nat.ltb_spec (rank (op_shape a)) 2); [lia|].
  destruct (Z.ltb_spec block_size 1); [lia|].
  replace (Nat.min (GetDimension (op_shape a) (-2))
             (GetDimension (op_shape a) (-1))) with O by lia.
  cbn [QrExpander.block_loop Nat.ltb Nat.leb assign_or_return fst snd].
  now rewrite batch_dims_prefix.
Qed.

Lemma BuildQrDecomposition_empty_witness :
  (2 <= rank (MakeShape F32 [3; 0]%nat))%nat /\ (1 <= 128)%Z /\
  QrExpander.BuildQrDecomposition render_shape
    (Parameter0 (MakeShape F32 [3; 0]%nat)) 128 HIGHEST
  = Ok (Op.IdentityMatrix F32 [] 3 3,
        Op.UpperTriangle (Parameter0 (MakeShape F32 [3; 0]%nat))).
Proof.
  split; [cbn; lia|]. split; [lia|].
  apply (BuildQrDecomposition_empty render_shape
           (Parameter0 (MakeShape F32 [3; 0]%nat)) 128 HIGHEST).
  - cbn. lia.
  - lia.
  - right. reflexivity.
Defined.

(** ** More on the expansion *)

Section HostModule.

Variable ShapeToString : Shape -> string.

Local Abbreviation ExpandInstruction :=
  (QrExpander.ExpandInstruction ShapeToString).
Local Abbreviation computations := QrExpander.computations.

Lemma AddInstruction_parent st p i comp :
  computations st !! p = Some comp ->
  computations (QrExpander.AddInstruction st p i) !! p
  = Some (MakeComputation (comp_module comp) (instructions comp ++ [i])
            (emitted comp)).
Proof.
  intros H. unfold QrExpander.AddInstruction. cbn [QrExpander.computations].
  now rewrite list_lookup_alter_eq, H.
Qed.

Lemma AddInstruction_other st p i c :
  c <> p ->
  computations (QrExpander.AddInstruction st p i) !! c = computations st !! c.
Proof.
  intros H. unfold QrExpander.AddInstruction. cbn [QrExpander.computations].
  now rewrite list_lookup_alter_ne by congruence.
Qed.

End HostModule.

(** What a successful expansion does to the computations the host module
    had: the call it returns is appended to the computation of the node and
    is not itself a node the expander matches, and every other computation
    that existed is left as it was. *)
Theorem ExpandInstruction_host_module (ShapeToString : Shape -> string)
    (st st' : QrExpander.State) (instruction call : HloInstruction)
    (comp : HloComputation) :
  QrExpander.ExpandInstruction ShapeToString st instruction = (st', Ok call) ->
  QrExpander.computations st !! parent instruction = Some comp ->
  QrExpander.InstructionMatchesPattern call = false /\
  QrExpander.computations st' !! parent instruction
  = Some (MakeComputation (comp_module comp) (instructions comp ++ [call])
            (emitted comp)) /\
  (forall c, c <> parent instruction ->
     (c < length (QrExpander.computations st))%nat ->
     QrExpander.computations st' !! c = QrExpander.computations st !! c).
Proof.
  intros E Hp.
  assert (Hlt : (parent instruction < length (QrExpander.computations st))%nat)
    by (eapply lookup_lt_Some; exact Hp).
  destruct (ExpandInstruction_success_inv ShapeToString _ _ _ _ E)
    as (o & rest & c0 & Ho & -> & _ & [[_ ->]|(_ & -> & l & _ & ->)]).
  - split; [reflexivity|]. split; [now apply AddInstruction_parent|].
    intros c Hc _. now apply AddInstruction_other.
  - split; [reflexivity|]. split.
    + apply AddInstruction_parent. cbn [QrExpander.computations].
      now apply lookup_app_l_Some.
    + intros c Hc Hl. rewrite AddInstruction_other by assumption.
      cbn [QrExpander.computations]. now apply lookup_app_l.
Qed.

Lemma ExpandInstruction_host_module_witness :
  exists st' call,
    QrExpander.ExpandInstruction render_shape fresh_state
      (qr_custom_call [2; 2]%nat) = (st', Ok call) /\
    QrExpander.computations st' !! 0%nat
    = Some (MakeComputation O [call] None).
Proof.
  destruct (QrExpander.ExpandInstruction render_shape fresh_state
              (qr_custom_call [2; 2]%nat)) as [st' [call|status]] eqn:E.
  - exists st', call. split; [reflexivity|].
    destruct (ExpandInstruction_host_module render_shape fresh_state st'
                (qr_custom_call [2; 2]%nat) call (MakeComputation O [] None)
                E eq_refl) as (_ & H & _).
    exact H.
  - exfalso.
    destruct (ExpandInstruction_failure_inv render_shape _ _ _ _ E) as [_ H].
    destruct (H (qr_operand [2; 2]%nat) [] eq_refl) as (Hb & _).
    destruct (driver_failure_inv render_shape _ _ _ _ Hb) as [[Hr|Hz] _].
    + cbn in Hr. lia.
    + lia.
Defined.

(** In a pass of a fresh expander, two nodes whose operand shapes render
    to different strings are never given the same computation: a cached
    computation is used for the rendering it was built for only. *)
Theorem ExpandInstruction_distinct_shapes
    (ShapeToString : Shape -> string)
    (st : QrExpander.State) (done : list HloInstruction)
    (x y : nat) (node_x node_y operand_x operand_y : HloInstruction)
    (rest_x rest_y : list HloInstruction) (call_x call_y : HloInstruction) :
  let run := QrExpander.expand_all ShapeToString st done in
  QrExpander.computation_cache_ st = ∅ ->
  done !! x = Some node_x -> done !! y = Some node_y ->
  snd run !! x = Some (Ok call_x) -> snd run !! y = Some (Ok call_y) ->
  operands node_x = operand_x :: rest_x ->
  operands node_y = operand_y :: rest_y ->
  ShapeToString (shape operand_x) <> ShapeToString (shape operand_y) ->
  to_apply call_x <> to_apply call_y.
Proof.
  cbv zeta. intros Hempty Hx Hy Hrx Hry Hox Hoy Hne.
  destruct (expand_all_success ShapeToString done st x node_x operand_x
              rest_x call_x Hx Hrx Hox) as (cx & -> & Hcx).
  destruct (expand_all_success ShapeToString done st y node_y operand_y
              rest_y call_y Hy Hry Hoy) as (cy & -> & Hcy).
  assert (Inv : cache_built ShapeToString
                  (fst (QrExpander.expand_all ShapeToString st done))).
  { apply expand_all_cache_built. intros k c' Hk.
    rewrite Hempty, lookup_empty in Hk. discriminate. }
  destruct (Inv _ _ Hcx) as (sx & gx & _ & _ & Ex).
  destruct (Inv _ _ Hcy) as (sy & gy & _ & _ & Ey).
  cbn [call_of QrExpander.CreateCall to_apply]. intros [= <-].
  rewrite Ex in Ey. injection Ey as Ek _ _.
  unfold cache_key in Ek. apply Hne. exact (String.app_inj _ _ _ Ek).
Qed.

Lemma ExpandInstruction_distinct_shapes_witness :
  exists call_x call_y,
    snd (QrExpander.expand_all render_shape fresh_state
           [qr_custom_call [2; 2]%nat; qr_custom_call [3; 2]%nat])
    = [Ok call_x; Ok call_y] /\
    to_apply call_x <> to_apply call_y.
Proof.
  destruct (driver_ok render_shape
              (Parameter0 (MakeShape F32 [2; 2]%nat)) 128 HIGHEST
              ltac:(cbn; lia) ltac:(lia)) as [g1 E1].
  destruct (driver_ok render_shape
              (Parameter0 (MakeShape F32 [3; 2]%nat)) 128 HIGHEST
              ltac:(cbn; lia) ltac:(lia)) as [g2 E2].
  pose proof (ExpandInstruction_built render_shape fresh_state
                (qr_custom_call [2; 2]%nat) (qr_operand [2; 2]%nat) [] g1
                eq_refl (or_introl eq_refl) E1) as S1.
  cbv zeta in S1.
  set (st1 := QrExpander.AddInstruction _ _ _) in S1.
  pose proof (ExpandInstruction_built render_shape st1
                (qr_custom_call [3; 2]%nat) (qr_operand [3; 2]%nat) [] g2
                eq_refl (or_introl eq_refl) E2) as S2.
  cbv zeta in S2.
  assert (R : snd (QrExpander.expand_all render_shape fresh_state
                     [qr_custom_call [2; 2]%nat; qr_custom_call [3; 2]%nat])
              = [Ok (call_of (qr_custom_call [2; 2]%nat) 1);
                 Ok (call_of (qr_custom_call [3; 2]%nat) 2)]).
  { rewrite !expand_all_cons. cbn [snd fst]. rewrite S1. cbn [snd fst].
    rewrite S2. reflexivity. }
  eexists _, _. split; [exact R|].
  apply (ExpandInstruction_distinct_shapes render_shape fresh_state
           [qr_custom_call [2; 2]%nat; qr_custom_call [3; 2]%nat] 0 1
           (qr_custom_call [2; 2]%nat) (qr_custom_call [3; 2]%nat)
           (qr_operand [2; 2]%nat) (qr_operand [3; 2]%nat) [] []);
    try reflexivity.
  vm_compute. discriminate.
Defined.

(** ** The range of tau *)

Lemma House_tau_bounds {B : Type} (x : Vectors B) (k : S32) (m : nat) (b : B) :
  House_sigma x k m b <> 0 ->
  1 <= House_tau x k m b < 2.
Proof.
  intros Hs.
  pose proof (House_sigma_nonneg x k m b) as Hn.
  pose proof (House_mu_pos x k m b Hs) as Hmu.
  assert (E : House_mu x k m b * House_mu x k m b
              = House_alpha x k m b * House_alpha x k m b + House_sigma x k m b).
  { unfold House_mu. apply sqrt_sqrt.
    pose proof (Rle_0_sqr (House_alpha x k m b)) as Ha. unfold Rsqr in Ha. lra. }
  rewrite House_tau_nondegenerate by assumption.
  rewrite (House_beta_nondegenerate x k m b Hs).
  set (mu := House_mu x k m b) in *. set (alpha := House_alpha x k m b) in *.
  set (sigma := House_sigma x k m b) in *.
  assert (Hlt : alpha < mu /\ - alpha < mu) by (split; nra).
  unfold sign_of. destruct (Rlt_dec alpha 0) as [Ha|Ha].
  - match goal with
    | |- 1 <= ?e < 2 => replace e with (1 + - alpha / mu) by (field; lra)
    end.
    assert (Et : - alpha / mu * mu = - alpha) by (field; lra).
    set (t := - alpha / mu) in *. split; nra.
  - match goal with
    | |- 1 <= ?e < 2 => replace e with (1 + alpha / mu) by (field; lra)
    end.
    assert (Et : alpha / mu * mu = alpha) by (field; lra).
    assert (Ha' : 0 <= alpha) by lra.
    set (t := alpha / mu) in *.
    assert (0 <= t).
    { destruct (Rle_dec 0 t) as [|Hn']; [assumption|].
      assert (t * mu < 0) by (apply Rmult_neg_pos; lra). lra. }
    assert (t < 1).
    { destruct (Rlt_dec t 1) as [|Hn']; [assumption|].
      assert (1 * mu <= t * mu) by (apply Rmult_le_compat_r; lra). lra. }
    lra.
Qed.

(** Every tau of the packed panel is 0, for an identity reflector, or lies
    between 1 and 2, the bounds included. *)
Theorem QrBlock_tau_range {B : Type} (m n : nat) (precision : Precision)
    (a : Matrices B) (b : B) (c : nat) :
  let tau := snd (qr_loop m n precision a) b c in
  tau = 0 \/ 1 <= tau <= 2.
Proof.
  cbv zeta. rewrite qr_loop_taus.
  destruct (Nat.ltb_spec c (Nat.min m n)); [|now left].
  set (x := column (fst (qr_state m n precision a c)) c).
  destruct (Req_dec_T (House_sigma x (Z.of_nat c) m b) 0) as [Hs|Hs].
  - left. now apply House_tau_degenerate.
  - right. pose proof (House_tau_bounds x (Z.of_nat c) m b Hs). lra.
Qed.

(** ** One block of the driver *)

(** The body of the loop of the block driver, for the block of [k] columns
    that starts at [i]: the rows above [i] and the columns before [i] of
    [a] are kept; the columns of the block receive the packed panel; the
    columns right of the block receive [H_(k-1) ... H_0] applied to what
    they held, [H_j] being the reflectors of the panel (this is what the
    update with the Compact-WY factor computes); the columns of [q] before
    [i] are kept and those from [i] on are multiplied on the right by
    [H_0 ... H_(k-1)]. *)
Theorem block_step_applies_reflectors (ShapeToString : Shape -> string)
    (type : PrimitiveType) (batch_dims : list nat) (m n p block_size : nat)
    (precision : Precision) (i : nat) (a q a' q' : XlaOp) (env : Tensor)
    (b : list nat) :
  (2 <= rank (op_shape a))%nat -> (i < p)%nat -> (p <= m)%nat -> (p <= n)%nat ->
  QrExpander.block_step ShapeToString type batch_dims m n p block_size
    precision i a q = Ok (a', q') ->
  let k := Nat.min block_size (p - i) in
  let panel : Matrices (list nat) :=
    fun b r c => op_value a env b (i + r)%nat (i + c)%nat in
  let trailing : Matrices (list nat) :=
    fun b r c => op_value a env b (i + r)%nat (i + k + c)%nat in
  let q_right : Matrices (list nat) :=
    fun b r c => op_value q env b r (i + c)%nat in
  let packed := fst (qr_loop (m - i) k precision panel) in
  let taus := snd (qr_loop (m - i) k precision panel) in
  let Y := unit_lower packed in
  (forall r c, (r < i)%nat \/ (c < i)%nat ->
     op_value a' env b r c = op_value a env b r c) /\
  (forall r c, (i <= r)%nat -> (r < m)%nat -> (i <= c)%nat -> (c < i + k)%nat ->
     op_value a' env b r c = packed b (r - i)%nat (c - i)%nat) /\
  (forall r c, (i <= r)%nat -> (r < m)%nat -> (i + k <= c)%nat -> (c < n)%nat ->
     op_value a' env b r c
     = reflect_left (m - i) Y taus k trailing b (r - i)%nat (c - i - k)%nat) /\
  (forall r c, (c < i)%nat -> op_value q' env b r c = op_value q env b r c) /\
  (forall r c, (r < m)%nat -> (i <= c)%nat -> (c < m)%nat ->
     op_value q' env b r c
     = BatchDot (m - i) q_right (reflector_product (m - i) Y taus k) precision
         b r (c - i)%nat).
Proof.
  intros Ha Hi Hpm Hpn E. cbv zeta.
  destruct (block_step_inv ShapeToString type batch_dims m n p block_size
              precision i a q a' q' Ha E) as [_ Hv].
  destruct (block_step_values ShapeToString type batch_dims m n p block_size
              precision i a q a' q' Ha Hi Hpm Hpn E) as [_ Hw].
  destruct (Hw env b) as (W1 & W2 & W3 & W4).
  split; [|split; [|split; [|split]]].
  - intros r c [H|H]; [now apply W1 | now apply Hv].
  - intros r c H1 H2 H3 H4. now apply Hv.
  - exact W2.
  - exact W3.
  - intros r c H1 H2 H3. rewrite W4 by assumption. reflexivity.
Qed.

Lemma block_step_applies_reflectors_witness :
  exists a' q',
    QrExpander.block_step render_shape F32 [] 2 2 2 1 HIGHEST 0
      (Parameter0 (MakeShape F32 [2; 2]%nat)) (Op.IdentityMatrix F32 [] 2 2)
    = Ok (a', q') /\
    op_value a' eye_2_env [] 1%nat 0%nat
    = fst (qr_loop 2 1 HIGHEST
             (fun b r c => eye_2_env (b ++ [r; c]))) [] 1%nat 0%nat.
Proof.
  eexists _, _. split; [reflexivity|].
  pose proof (block_step_applies_reflectors render_shape F32 [] 2 2 2 1
                HIGHEST 0 (Parameter0 (MakeShape F32 [2; 2]%nat))
                (Op.IdentityMatrix F32 [] 2 2) _ _ eye_2_env []
                ltac:(cbn; lia) ltac:(lia) ltac:(lia) ltac:(lia) eq_refl)
    as (_ & H & _).
  exact (H 1%nat 0%nat ltac:(lia) ltac:(lia) ltac:(lia) ltac:(cbn; lia)).
Defined.
